(** * reqtraq: the requirement graph of [req.go]

    A shallow embedding of the requirement graph (type [Req], type
    [reqGraph]) with its ingestion, linking, status propagation and
    attribute checking, followed by the properties of these operations.

    Conventions.
    - A Go [string] is a byte sequence: [string] of the Standard Library.
    - [reqGraph] is [map[string]*Req].  Every [*Req] is allocated once and
      stored under exactly one key, so a pointer is modelled by the key it
      is stored under and the graph by a [gmap string Req]; [Parents] and
      [Children] ([[]*Req]) are lists of keys.
    - [for _, req := range rg] visits the keys in an order Go leaves
      unspecified: every loop over the graph takes the order as a list of
      keys.
    - [log.Fatal] ends the process: functions that may call it return a
      [result].
    - A recursive method that Go does not bound takes fuel and returns
      [None] when it runs out. *)

From Stdlib Require Import ZArith Ascii String List Sorting.Sorted Lia.
From stdpp Require Import base option list gmap strings.

Open Scope Z_scope.

(** ** Levels and statuses *)

Inductive RequirementLevel := SYSTEM | HIGH | LOW | CODE.

Inductive RequirementStatus := NOT_STARTED | STARTED | COMPLETED.

#[global] Instance RequirementLevel_eq_dec : EqDecision RequirementLevel.
Proof. solve_decision. Defined.

#[global] Instance RequirementStatus_eq_dec : EqDecision RequirementStatus.
Proof. solve_decision. Defined.

(** The [iota] value of a level. *)
Definition levelNum (l : RequirementLevel) : nat :=
  match l with SYSTEM => 0 | HIGH => 1 | LOW => 2 | CODE => 3 end%nat.

Definition ReqTypeToReqLevel (t : string) : option RequirementLevel :=
  if String.eqb t "SYS" then Some SYSTEM
  else if String.eqb t "SWH" then Some HIGH
  else if String.eqb t "HWH" then Some HIGH
  else if String.eqb t "SWL" then Some LOW
  else if String.eqb t "HWL" then Some LOW
  else None.

Definition reqStatusToString (rs : RequirementStatus) : string :=
  match rs with
  | NOT_STARTED => "NOT STARTED"
  | STARTED => "STARTED"
  | COMPLETED => "COMPLETED"
  end.

(** ** Results of functions that may call [log.Fatal] *)

Inductive result (A : Type) :=
| Returned (a : A)
| Fatal (msg : string).
Arguments Returned {A} a.
Arguments Fatal {A} msg.

(** ** The node *)

Record Req := mkReq {
  ID : string;
  Level : RequirementLevel;
  Path : string;
  FileHash : string;
  ParentIds : list string;
  Parents : list string;
  Children : list string;
  Body : string;
  Attributes : gmap string string;
  Position : Z;
  Seen : bool;
  Status : RequirementStatus
}.

Definition set_Parents (v : list string) (r : Req) : Req :=
  mkReq (ID r) (Level r) (Path r) (FileHash r) (ParentIds r) v (Children r)
        (Body r) (Attributes r) (Position r) (Seen r) (Status r).

Definition set_Children (v : list string) (r : Req) : Req :=
  mkReq (ID r) (Level r) (Path r) (FileHash r) (ParentIds r) (Parents r) v
        (Body r) (Attributes r) (Position r) (Seen r) (Status r).

Definition set_Position (v : Z) (r : Req) : Req :=
  mkReq (ID r) (Level r) (Path r) (FileHash r) (ParentIds r) (Parents r)
        (Children r) (Body r) (Attributes r) v (Seen r) (Status r).

Definition set_Seen (v : bool) (r : Req) : Req :=
  mkReq (ID r) (Level r) (Path r) (FileHash r) (ParentIds r) (Parents r)
        (Children r) (Body r) (Attributes r) (Position r) v (Status r).

Definition set_Status (v : RequirementStatus) (r : Req) : Req :=
  mkReq (ID r) (Level r) (Path r) (FileHash r) (ParentIds r) (Parents r)
        (Children r) (Body r) (Attributes r) (Position r) (Seen r) v.

(** [reqGraph]: the nodes by key. *)
Abbreviation reqGraph := (gmap string Req).

(** ** Strings

    The functions of Go's [strings] package that [req.go] calls, on byte
    strings. *)

Module GoStrings.

Definition nl : string := String (ascii_of_nat 10) EmptyString.

Definition bytes (l : list nat) : string :=
  fold_right (fun n s => String (ascii_of_nat n) s) EmptyString l.

(** [strings.HasPrefix(s, p)]. *)
Definition HasPrefix (s p : string) : bool := String.prefix p s.

(** [strings.TrimPrefix(s, p)]. *)
Definition TrimPrefix (s p : string) : string :=
  if HasPrefix s p then String.substring (String.length p) (String.length s - String.length p) s
  else s.

(** [strings.SplitN(s, "\n", 2)]: the text before the first newline and,
    when there is a newline, the text after it. *)
Fixpoint cutNewline (s : string) : string * option string :=
  match s with
  | EmptyString => (EmptyString, None)
  | String c s' =>
      if Ascii.eqb c (ascii_of_nat 10) then (EmptyString, Some s')
      else let '(a, b) := cutNewline s' in (String c a, b)
  end.

Definition SplitN2 (s : string) : list string :=
  match cutNewline s with
  | (a, None) => [a]
  | (a, Some b) => [a; b]
  end.

(** [strings.Split(s, "\n")[0]]. *)
Definition firstLine (s : string) : string := fst (cutNewline s).

(** The UTF-8 encodings of the code points with Unicode's White_Space
    property, which is what [unicode.IsSpace] tests: U+0009..U+000D,
    U+0020, U+0085, U+00A0, U+1680, U+2000..U+200A, U+2028, U+2029, U+202F,
    U+205F, U+3000. *)
Definition spaceRunes : list string :=
  map bytes
    [ [9]; [10]; [11]; [12]; [13]; [32];
      [194; 133]; [194; 160]; [225; 154; 128];
      [226; 128; 128]; [226; 128; 129]; [226; 128; 130]; [226; 128; 131];
      [226; 128; 132]; [226; 128; 133]; [226; 128; 134]; [226; 128; 135];
      [226; 128; 136]; [226; 128; 137]; [226; 128; 138];
      [226; 128; 168]; [226; 128; 169]; [226; 128; 175];
      [226; 129; 159]; [227; 128; 128] ]%nat.

(** Length in bytes of the white-space rune [s] starts with, if any. *)
Definition spaceAtHead (runes : list string) (s : string) : option nat :=
  String.length <$> List.find (fun r => String.prefix r s) runes.

(** Drops white-space runes from the head of [s]; [skip] counts the bytes
    of the current rune that are still to drop. *)
Fixpoint trimLeftRunes (runes : list string) (skip : nat) (s : string) {struct s} : string :=
  match s with
  | EmptyString => EmptyString
  | String c s' =>
      match skip with
      | S n => trimLeftRunes runes n s'
      | O =>
          match spaceAtHead runes s with
          | Some (S n) => trimLeftRunes runes n s'
          | _ => s
          end
      end
  end.

Definition revString (s : string) : string :=
  string_of_list_ascii (rev (list_ascii_of_string s)).

(** [strings.TrimSpace(s)]. *)
Definition TrimSpace (s : string) : string :=
  let l := trimLeftRunes spaceRunes 0 s in
  revString (trimLeftRunes (map revString spaceRunes) 0 (revString l)).

End GoStrings.

(** ** Methods of [Req] that read the body *)

(** [Req.Title]. *)
Definition Title (r : Req) : string :=
  GoStrings.TrimSpace (GoStrings.firstLine (Body r)).

(** [Req.BodyWithoutTitle]; [log.Fatal] prints its operands as [fmt.Sprint]
    does, which puts no space between two strings. *)
Definition BodyWithoutTitle (r : Req) : result string :=
  match GoStrings.SplitN2 (Body r) with
  | [_; rest] => Returned rest
  | _ => Fatal ("No valid title in body of requirement with id: " +:+ ID r)
  end.

(** [Req.IsDeleted]. *)
Definition IsDeleted (r : Req) : bool :=
  GoStrings.HasPrefix (Title r) "DELETED".

(** ** Ingestion *)

(** [lyx.Req], as far as [req.go] reads it: the record handed over by the
    document parser.  [Position] is a [uint32]. *)
Record lyxReq := mkLyxReq {
  lyx_ID : string;
  lyx_Parents : list string;
  lyx_Attributes : gmap string string;
  lyx_Position : Z
}.

Definition lyx_set_Position (p : Z) (r : lyxReq) : lyxReq :=
  mkLyxReq (lyx_ID r) (lyx_Parents r) (lyx_Attributes r) p.

Definition lyx_set_Attributes (a : gmap string string) (r : lyxReq) : lyxReq :=
  mkLyxReq (lyx_ID r) (lyx_Parents r) a (lyx_Position r).

Definition bindResult {A B} (x : result A) (f : A -> result B) : result B :=
  match x with
  | Returned a => f a
  | Fatal m => Fatal m
  end.

Section Ingestion.

(** What [req.go] takes from the packages [git] and [lyx] and from
    [lint.go]: the repository path, the type tag of a requirement
    identifier, and the document parser with its linter.  An [error] is
    modelled by its text. *)
Variable RepoPath : string.
Variable ReqType : lyxReq -> string.
Variable RawReq : Type.
Variable IsValidDocName : string -> option string.
Variable ParseCertdoc : string -> list RawReq + string.
Variable ParseReq : RawReq -> lyxReq + string.
Variable lintLyxReq : string -> nat -> list bool -> lyxReq -> list string * list bool.

(** [reqGraph.AddReq].  Returns the graph, the record (whose attribute map
    the stored node shares, so [delete(req.Attributes, "TEXT")] shows in
    both) and the error.  [int] is 64 bits wide, so [int(req.Position)]
    keeps the value. *)
Definition AddReq (rg : reqGraph) (req : lyxReq) (path : string)
  : result (reqGraph * lyxReq * option string) :=
  match rg !! lyx_ID req with
  | Some v =>
      Returned (rg, req,
                Some ("Requirement " +:+ lyx_ID req +:+ " in " +:+ path +:+
                      " already defined in " +:+ Path v))
  | None =>
      match ReqTypeToReqLevel (ReqType req) with
      | None => Fatal ("Invalid request type " +:+ ReqType req)
      | Some level =>
          let path' := GoStrings.TrimPrefix path RepoPath in
          let attrs := delete "TEXT" (lyx_Attributes req) in
          let node :=
            mkReq (lyx_ID req) level path' "" (lyx_Parents req) [] []
                  (default "" (lyx_Attributes req !! "TEXT")) attrs
                  (lyx_Position req) false NOT_STARTED in
          Returned (<[lyx_ID req := node]> rg, lyx_set_Attributes attrs req, None)
      end
  end.

(** [reqGraph.AddCodeRefs]. *)
Definition AddCodeRefs (rg : reqGraph) (id fileName fileHash : string)
    (reqIds : list string) : reqGraph :=
  <[fileName := mkReq id CODE fileName fileHash reqIds [] [] "" ∅ 0 false NOT_STARTED]> rg.

(** The loop of [ParseLyx] over the records of one document, from index
    [i] on. *)
Fixpoint ParseLyx_loop (fileName : string) (n : nat) (i : nat) (reqs : list RawReq)
    (isReqPresent : list bool) (graph : reqGraph) (errs : list string)
  : result (reqGraph * list string) :=
  match reqs with
  | [] => Returned (graph, errs)
  | v :: reqs' =>
      match ParseReq v with
      | inr err => ParseLyx_loop fileName n (S i) reqs' isReqPresent graph (errs ++ [err])
      | inl r =>
          let '(errs2, isReqPresent') := lintLyxReq fileName n isReqPresent r in
          if decide (length errs2 ≠ 0%nat) then
            ParseLyx_loop fileName n (S i) reqs' isReqPresent' graph (errs ++ errs2)
          else
            let r' := lyx_set_Position (Z.of_nat i mod 2 ^ 32) r in
            bindResult (AddReq graph r' fileName) (fun '(graph', _, _) =>
              ParseLyx_loop fileName n (S i) reqs' isReqPresent' graph' errs)
      end
  end.

(** [ParseLyx]. *)
Definition ParseLyx (fileName : string) (graph : reqGraph)
  : result (reqGraph * list string) :=
  match IsValidDocName fileName with
  | Some err => Returned (graph, [err])
  | None =>
      match ParseCertdoc fileName with
      | inr err => Returned (graph, ["Error parsing " +:+ fileName +:+ ": " +:+ err])
      | inl reqs =>
          ParseLyx_loop fileName (length reqs) 0 reqs
                        (replicate (length reqs) false) graph []
      end
  end.

End Ingestion.

(** ** Attribute checking *)

Section Attributes.

(** [strings.ToUpper], [regexp.Compile] (the error text, or the compiled
    expression's [MatchString]) and the order in which [range] visits the
    entries of a rule. *)
Variable ToUpper : string -> string.
Variable regexp_Compile : string -> (string -> bool) + string.
Variable rangeRule : gmap string string -> list (string * string).

Definition missingAttribute (r : Req) (v : string) : string :=
  "Requirement '" +:+ ID r +:+ "' is missing attribute '" +:+ v +:+ "'." +:+ GoStrings.nl.

Definition invalidAttribute (r : Req) (val aName v : string) : string :=
  "Requirement '" +:+ ID r +:+ "' has invalid value '" +:+ val +:+ "' in attribute '" +:+
  aName +:+ "'. Expected " +:+ v +:+ "." +:+ GoStrings.nl.

(** The body of the inner loop of [Req.CheckAttributes], for the entry
    [k, v] of the rule [a]. *)
Definition checkEntry (r : Req) (a : gmap string string) (errs : list string)
    (kv : string * string) : result (list string) :=
  let '(k, v) := kv in
  if String.eqb k "name" then
    match Attributes r !! ToUpper v with
    | Some _ => Returned errs
    | None =>
        if negb (bool_decide (Level r = SYSTEM) && String.eqb (ToUpper v) "PARENTS")
        then Returned (errs ++ [missingAttribute r v])
        else Returned errs
    end
  else if String.eqb k "value" then
    let aName := ToUpper (default "" (a !! "name")) in
    match Attributes r !! aName with
    | Some val =>
        match regexp_Compile v with
        | inr err => Fatal err
        | inl matchString =>
            if negb (matchString val)
            then Returned (errs ++ [invalidAttribute r val aName v])
            else Returned errs
        end
    | None => Returned errs
    end
  else Returned errs.

Definition foldResult {A B} (f : A -> B -> result A) (l : list B) (a : A) : result A :=
  fold_left (fun acc b => bindResult acc (fun a' => f a' b)) l (Returned a).

Definition checkRule (r : Req) (errs : list string) (a : gmap string string)
  : result (list string) :=
  foldResult (checkEntry r a) (rangeRule a) errs.

(** [Req.CheckAttributes]. *)
Definition Req_CheckAttributes (r : Req) (rules : list (gmap string string))
  : result (list string) :=
  foldResult (checkRule r) rules [].

(** [reqGraph.CheckAttributes], visiting the nodes in the order [order]. *)
Definition CheckAttributes (order : list string) (rg : reqGraph)
    (rules : list (gmap string string)) : result (list string) :=
  foldResult (fun errs k =>
      match rg !! k with
      | Some req =>
          if decide (Level req ≠ CODE) then
            bindResult (Req_CheckAttributes req rules) (fun es => Returned (errs ++ es))
          else Returned errs
      | None => Returned errs
      end) order [].

End Attributes.

(** ** Linking and status propagation *)

(** [sort.Sort(byPosition(l))], where [pos] gives the position of the node
    behind a key.  [sort.Sort] promises a permutation that is sorted by
    [Less] and no more; the function below is the insertion sort Go runs on
    short slices, and the properties proved of [Resolve] use only that its
    result is a sorted permutation. *)
Fixpoint insertByPosition (pos : string -> Z) (x : string) (l : list string) : list string :=
  match l with
  | [] => [x]
  | y :: l' => if pos x <? pos y then x :: l else y :: insertByPosition pos x l'
  end.

Definition sortByPosition (pos : string -> Z) (l : list string) : list string :=
  fold_left (fun acc x => insertByPosition pos x acc) l [].

(** [p.Position] for the node stored under [k]. *)
Definition positionOf (rg : reqGraph) (k : string) : Z :=
  from_option Position 0 (rg !! k).

(** [Req.resolveUp]; every nested call takes one unit of fuel. *)
Fixpoint resolveUp (fuel : nat) (rg : reqGraph) (k : string) : option reqGraph :=
  match fuel with
  | O => None
  | S fuel' =>
      match rg !! k with
      | None => None
      | Some r =>
          fold_left (fun acc p => acc ≫= fun h => resolveUp fuel' h p)
                    (Parents r) (Some (<[k := set_Seen true r]> rg))
      end
  end.

(** [r.Status = s] for the node stored under [k]. *)
Definition assignStatus (k : string) (s : RequirementStatus) (rg : reqGraph) : reqGraph :=
  alter (set_Status s) k rg.

(** The body of the loop of [resolveDown] over the children of the node
    stored under [k]; [down] is the recursive call. *)
Definition resolveDown_child (down : reqGraph -> string -> option (reqGraph * RequirementStatus))
    (k : string) (acc : option reqGraph) (c : string) : option reqGraph :=
  acc ≫= fun h =>
  down h c ≫= fun '(h', st) =>
  Some (if decide (st ≠ COMPLETED) then assignStatus k STARTED h' else h').

(** [Req.resolveDown]; every nested call takes one unit of fuel. *)
Fixpoint resolveDown (fuel : nat) (rg : reqGraph) (k : string)
  : option (reqGraph * RequirementStatus) :=
  match fuel with
  | O => None
  | S fuel' =>
      match rg !! k with
      | None => None
      | Some r =>
          let rg1 := <[k := set_Status COMPLETED (set_Seen true r)]> rg in
          let rg2 :=
            if bool_decide (Level r ≠ CODE) && bool_decide (length (Children r) = 0%nat)
            then Some (assignStatus k NOT_STARTED rg1)
            else fold_left (resolveDown_child (resolveDown fuel') k) (Children r) (Some rg1) in
          rg2 ≫= fun h => (fun r' => (h, Status r')) <$> h !! k
      end
  end.

(** The error texts of [Resolve]. *)
Definition errNoParents (req : Req) : string :=
  "Requirement " +:+ ID req +:+ " in file " +:+ Path req +:+ " has no parents." +:+ GoStrings.nl.

Definition errInvalid (req : Req) (parentId what : string) : string :=
  if decide (Level req ≠ CODE)
  then "Invalid parent of requirement " +:+ ID req +:+ ": " +:+ parentId +:+ what +:+ GoStrings.nl
  else "Invalid reference in file " +:+ Path req +:+ ": " +:+ parentId +:+ what +:+ GoStrings.nl.

(** The body of the loop of [Resolve] over [req.ParentIds], for the node
    stored under [k].  [parent] and [req] may be the same node, so [req] is
    read again after [parent.Children] is written. *)
Definition linkParent (k : string) (st : reqGraph * string) (parentId : string)
  : reqGraph * string :=
  let '(rg, errorResult) := st in
  match rg !! k with
  | None => st
  | Some req =>
      match rg !! parentId with
      | Some parent =>
          let errorResult' :=
            if IsDeleted parent && negb (IsDeleted req)
            then errorResult +:+ errInvalid req parentId " is deleted."
            else errorResult in
          let rg1 := <[parentId := set_Children (Children parent ++ [k]) parent]> rg in
          (alter (fun req1 => set_Parents (Parents req1 ++ [parentId]) req1) k rg1,
           errorResult')
      | None => (rg, errorResult +:+ errInvalid req parentId " does not exist.")
      end
  end.

(** The body of the first loop of [Resolve]. *)
Definition linkReq (st : reqGraph * string) (k : string) : reqGraph * string :=
  let '(rg, errorResult) := st in
  match rg !! k with
  | None => st
  | Some req =>
      let errorResult' :=
        if bool_decide (length (ParentIds req) = 0%nat) && bool_decide (Level req ≠ SYSTEM)
        then errorResult +:+ errNoParents req
        else errorResult in
      fold_left (linkParent k) (ParentIds req) (rg, errorResult')
  end.

(** The loop that calls [resolveDown] on the SYSTEM nodes. *)
Definition downPass (fuel : nat) (order : list string) (rg : reqGraph) : option reqGraph :=
  fold_left (fun acc k =>
      acc ≫= fun h =>
      match h !! k with
      | Some req =>
          if decide (Level req = SYSTEM) then fst <$> resolveDown fuel h k else Some h
      | None => Some h
      end) order (Some rg).

(** The loop that sorts the links of every node. *)
Definition sortReq (rg : reqGraph) (k : string) : reqGraph :=
  let rg1 := alter (fun req => set_Parents (sortByPosition (positionOf rg) (Parents req)) req) k rg in
  alter (fun req => set_Children (sortByPosition (positionOf rg1) (Children req)) req) k rg1.

Definition sortPass (order : list string) (rg : reqGraph) : reqGraph :=
  fold_left sortReq order rg.

(** How a call of [Resolve] ends. *)
Inductive resolved :=
| Linked (rg : reqGraph)
| LinkErrors (errorResult : string) (rg : reqGraph)
| IndexOutOfRange.

(** The loop over the CODE nodes: [resolveUp], then the position of the
    first parent; [req.Parents[0]] panics on an empty slice. *)
Definition upReq (fuel : nat) (acc : option resolved) (k : string) : option resolved :=
  match acc with
  | Some (Linked h) =>
      match h !! k with
      | Some req =>
          if decide (Level req = CODE) then
            resolveUp fuel h k ≫= fun h1 =>
            match h1 !! k with
            | Some req1 =>
                match Parents req1 with
                | p :: _ => Some (Linked (<[k := set_Position (positionOf h1 p) req1]> h1))
                | [] => Some IndexOutOfRange
                end
            | None => None
            end
          else acc
      | None => acc
      end
  | _ => acc
  end.

Definition upPass (fuel : nat) (order : list string) (rg : reqGraph) : option resolved :=
  fold_left (upReq fuel) order (Some (Linked rg)).

(** [reqGraph.Resolve].  The four loops visit the graph in the orders [o1]
    to [o4].  [LinkErrors e rg] stands for [return fmt.Errorf(e)]. *)
Definition Resolve (fuel : nat) (o1 o2 o3 o4 : list string) (rg : reqGraph)
  : option resolved :=
  let '(rg1, errorResult) := fold_left linkReq o1 (rg, "") in
  if decide (errorResult ≠ "") then Some (LinkErrors (errorResult +:+ GoStrings.nl) rg1)
  else downPass fuel o2 rg1 ≫= fun rg2 => upPass fuel o4 (sortPass o3 rg2).

(** The three loops of [Resolve] that follow linking. *)
Definition propagate (fuel : nat) (o2 o3 o4 : list string) (rg : reqGraph)
  : option resolved :=
  downPass fuel o2 rg ≫= fun rg2 => upPass fuel o4 (sortPass o3 rg2).

(** [reqGraph.DanglingReqsByPosition]. *)
Definition DanglingReqsByPosition (order : list string) (rg : reqGraph) : list string :=
  sortByPosition (positionOf rg)
    (List.filter (fun k => from_option (fun reg => negb (Seen reg)) false (rg !! k)) order).

(** ** The other accessors *)

(** [reqGraph.OrdsByPosition]. *)
Definition OrdsByPosition (order : list string) (rg : reqGraph) : list string :=
  sortByPosition (positionOf rg)
    (List.filter (fun k => from_option (fun v => bool_decide (Level v = SYSTEM)) false (rg !! k))
                 order).

(** [reqGraph.CodeFilesByPosition]. *)
Definition CodeFilesByPosition (order : list string) (rg : reqGraph) : list string :=
  sortByPosition (positionOf rg)
    (List.filter (fun k => from_option (fun v => bool_decide (Level v = CODE)) false (rg !! k))
                 order).

(** [reqGraph.ReqsWithInvalidRequirementsByPosition]. *)
Definition ReqsWithInvalidRequirementsByPosition (rg : reqGraph) : list string := [].

(** ** Filters *)

(** [FilterType] is an [int]; the three constants. *)
Definition TitleFilter : Z := 0.
Definition IdFilter : Z := 1.
Definition BodyFilter : Z := 2.

(** The loop of [Req.Matches] over the entries of the filter, in the order
    in which [range] visits them.  A [*regexp.Regexp] is modelled by its
    [MatchString], and [nil] by [None]: calling [MatchString] on it
    panics, which is the result [None]. *)
Fixpoint Matches_filter (r : Req) (entries : list (Z * option (string -> bool)))
  : option bool :=
  match entries with
  | [] => Some true
  | (t, e) :: rest =>
      let test (subject : string) : option bool :=
        match e with
        | None => None
        | Some matchString =>
            if negb (matchString subject) then Some false else Matches_filter r rest
        end in
      if t =? TitleFilter then test (Title r)
      else if t =? IdFilter then test (ID r)
      else if t =? BodyFilter then test (Body r)
      else Matches_filter r rest
  end.

(** [Req.Matches]; [diffs] is [None] for a [nil] map. *)
Definition Matches (r : Req) (entries : list (Z * option (string -> bool)))
    (diffs : option (gmap string (list string))) : option bool :=
  match Matches_filter r entries with
  | None => None
  | Some false => Some false
  | Some true =>
      match diffs with
      | None => Some true
      | Some d => Some (bool_decide (is_Some (d !! ID r)))
      end
  end.

(** ** Paths *)

Module GoPath.

(** The width in bytes of the first rune of [s], as
    [utf8.DecodeRuneInString] gives it: 1 for an ASCII byte and for a byte
    that starts no valid encoding. *)
Definition between (lo hi : nat) (c : ascii) : bool :=
  (lo <=? nat_of_ascii c)%nat && (nat_of_ascii c <=? hi)%nat.

Definition runeWidth (s : string) : nat :=
  match s with
  | EmptyString => 0
  | String c0 s1 =>
      let continuation (lo hi : nat) (size : nat) : nat :=
        match s1 with
        | String c1 s2 =>
            if between lo hi c1 then
              if (size <=? 2)%nat then 2%nat
              else match s2 with
                   | String c2 s3 =>
                       if between 128 191 c2 then
                         if (size <=? 3)%nat then 3%nat
                         else match s3 with
                              | String c3 _ => if between 128 191 c3 then 4%nat else 1%nat
                              | EmptyString => 1%nat
                              end
                       else 1%nat
                   | EmptyString => 1%nat
                   end
            else 1%nat
        | EmptyString => 1%nat
        end in
      if between 194 223 c0 then continuation 128 191 2
      else if between 224 224 c0 then continuation 160 191 3
      else if between 225 236 c0 then continuation 128 191 3
      else if between 237 237 c0 then continuation 128 159 3
      else if between 238 239 c0 then continuation 128 191 3
      else if between 240 240 c0 then continuation 144 191 4
      else if between 241 243 c0 then continuation 128 191 4
      else if between 244 244 c0 then continuation 128 143 4
      else 1
  end%nat.

Fixpoint take (n : nat) (s : string) : string :=
  match n, s with
  | S n', String c s' => String c (take n' s')
  | _, _ => EmptyString
  end.

Fixpoint drop (n : nat) (s : string) : string :=
  match n, s with
  | S n', String _ s' => drop n' s'
  | _, _ => s
  end.

(** For a separator that is not empty: [s] up to and with the first
    occurrence of [sep], and what follows. *)
Fixpoint cutAfter (s sep : string) : option (string * string) :=
  if String.prefix sep s then Some (sep, drop (String.length sep) s)
  else match s with
       | EmptyString => None
       | String c s' => (fun '(a, b) => (String c a, b)) <$> cutAfter s' sep
       end.

(** [strings.SplitAfterN(s, sep, 2)].  With an empty separator it splits
    after the first rune. *)
Definition SplitAfterN2 (s sep : string) : list string :=
  match sep with
  | EmptyString =>
      match s with
      | EmptyString => []
      | _ => if (String.length s <=? runeWidth s)%nat then [s]
             else [take (runeWidth s) s; drop (runeWidth s) s]
      end
  | _ =>
      match cutAfter s sep with
      | Some (a, b) => [a; b]
      | None => [s]
      end
  end.

End GoPath.

(** [relativePathToRepo]; [None] stands for the panic of [fields[1][1:]] on
    an empty string. *)
Definition relativePathToRepo (filePath repoPath : string) : option string :=
  match GoPath.SplitAfterN2 filePath repoPath with
  | _ :: field1 :: _ =>
      match field1 with
      | EmptyString => None
      | String _ rest => Some rest
      end
  | _ => Some ""
  end.

(** ** Code files *)

(** [reLLRReference]: the regular expression
    [//\s*@llr\s*(REQ-\d+-\w+-SWL-\d+).*].  The classes are ASCII classes,
    no class holds the character that follows it in the expression, and
    the last one is followed by [.*]: so each repetition takes all the
    characters of its class that there are. *)
Module LLR.

Definition code (c : ascii) : nat := nat_of_ascii c.

(** [\s], [\d] and [\w]. *)
Definition isSpace (c : ascii) : bool :=
  let n := code c in
  (n =? 9)%nat || (n =? 10)%nat || (n =? 12)%nat || (n =? 13)%nat || (n =? 32)%nat.

Definition isDigit (c : ascii) : bool :=
  let n := code c in (48 <=? n)%nat && (n <=? 57)%nat.

Definition isWord (c : ascii) : bool :=
  let n := code c in
  isDigit c || ((65 <=? n)%nat && (n <=? 90)%nat) || ((97 <=? n)%nat && (n <=? 122)%nat)
  || (n =? 95)%nat.

Fixpoint takeWhile (p : ascii -> bool) (s : string) : string :=
  match s with
  | String c s' => if p c then String c (takeWhile p s') else EmptyString
  | EmptyString => EmptyString
  end.

Fixpoint dropWhile (p : ascii -> bool) (s : string) : string :=
  match s with
  | String c s' => if p c then dropWhile p s' else s
  | EmptyString => EmptyString
  end.

(** [s] without the literal [lit] it starts with. *)
Fixpoint expect (lit s : string) : option string :=
  match lit, s with
  | EmptyString, _ => Some s
  | String a lit', String b s' => if Ascii.eqb a b then expect lit' s' else None
  | String _ _, EmptyString => None
  end.

(** One or more characters of the class [p], then the literal [lit]: the
    characters, and what follows the literal. *)
Definition classThen (p : ascii -> bool) (lit s : string) : option (string * string) :=
  match takeWhile p s with
  | EmptyString => None
  | run => (fun rest => (run, rest)) <$> expect lit (dropWhile p s)
  end.

(** The submatch of a match that starts at the head of [s]. *)
Definition matchHere (s : string) : option string :=
  expect "//" s ≫= fun s1 =>
  expect "@llr" (dropWhile isSpace s1) ≫= fun s2 =>
  expect "REQ-" (dropWhile isSpace s2) ≫= fun s3 =>
  classThen isDigit "-" s3 ≫= fun '(d1, s4) =>
  classThen isWord "-SWL-" s4 ≫= fun '(w, s5) =>
  classThen isDigit "" s5 ≫= fun '(d2, _) =>
  Some ("REQ-" +:+ d1 +:+ "-" +:+ w +:+ "-SWL-" +:+ d2).

(** [reLLRReference.FindStringSubmatch(s)[1]], when there is a match: the
    submatch of the leftmost match. *)
Fixpoint FindStringSubmatch (s : string) : option string :=
  match matchHere s with
  | Some ref => Some ref
  | None =>
      match s with
      | EmptyString => None
      | String _ s' => FindStringSubmatch s'
      end
  end.

End LLR.

(** The file as [parseCode] sees it: the error of [os.Open], or the lines
    that the scanner delivers, the error it ends with, if any, and the
    hash of what has been read. *)
Record codeFile := mkCodeFile {
  cf_lines : list string;
  cf_scanErr : option string;
  cf_hash : string
}.

(** [parseCode]: the graph and the error. *)
Definition parseCode (id fileName : string) (file : codeFile + string) (graph : reqGraph)
  : reqGraph * option string :=
  match file with
  | inr err => (graph, Some err)
  | inl f =>
      let refs := omap LLR.FindStringSubmatch (cf_lines f) in
      match cf_scanErr f with
      | Some err => (graph, Some err)
      | None =>
          if (0 <? length refs)%nat
          then (AddCodeRefs graph id fileName (cf_hash f) refs, None)
          else (graph, None)
      end
  end.

(** * Definitions for the properties

    What the properties below are stated with: the errors and the links
    that linking is to produce, the relations between a graph before and
    after a traversal, the status as a function of the children, and the
    graphs used as examples. *)

(** ** Bodies and attribute rules *)

(** Whether [s] holds a newline byte. *)
Fixpoint containsNewline (s : string) : bool :=
  match s with
  | EmptyString => false
  | String c s' => Ascii.eqb c (ascii_of_nat 10) || containsNewline s'
  end.

Section AttributeRules.

Variable ToUpper : string -> string.
Variable regexp_Compile : string -> (string -> bool) + string.

(** The rule [a] asks for an attribute that [r] lacks, and [r] is not a
    SYSTEM node asked for its parents. *)
Definition lacksAttribute (r : Req) (a : gmap string string) (v : string) : Prop :=
  a !! "name" = Some v /\
  Attributes r !! ToUpper v = None /\
  ~ (Level r = SYSTEM /\ ToUpper v = "PARENTS").

(** The rule [a] gives the pattern [v] for an attribute that [r] has with
    the value [val], which the pattern does not match. *)
Definition failsPattern (r : Req) (a : gmap string string) (v val : string) : Prop :=
  a !! "value" = Some v /\
  Attributes r !! ToUpper (default "" (a !! "name")) = Some val /\
  exists matchString, regexp_Compile v = inl matchString /\ matchString val = false.

(** The errors that [r] owes to the rule [a]. *)
Definition ruleError (r : Req) (a : gmap string string) (e : string) : Prop :=
  (exists v, lacksAttribute r a v /\ e = missingAttribute r v) \/
  (exists v val, failsPattern r a v val /\
                 e = invalidAttribute r val (ToUpper (default "" (a !! "name"))) v).

Definition entryErrors (r : Req) (a : gmap string string) (kv : string * string)
    (new : list string) : Prop :=
  a !! kv.1 = Some kv.2 ->
  (forall e, e ∈ new -> ruleError r a e) /\
  (kv.1 = "name" -> lacksAttribute r a kv.2 -> missingAttribute r kv.2 ∈ new) /\
  (kv.1 = "value" -> forall val, failsPattern r a kv.2 val ->
     invalidAttribute r val (ToUpper (default "" (a !! "name"))) kv.2 ∈ new).

End AttributeRules.

(** ** Linking: the errors and the links to expect *)

(** The texts of a list of errors, one after the other. *)
Definition joinErrors (l : list string) : string := fold_right String.append "" l.

(** The linking errors that a declared parent calls for: the parent is not
    in the graph, or it is superseded while the node is not. *)
Definition parentErrors (rg : reqGraph) (req : Req) (parentId : string) : list string :=
  match rg !! parentId with
  | None => [errInvalid req parentId " does not exist."]
  | Some parent =>
      if IsDeleted parent && negb (IsDeleted req)
      then [errInvalid req parentId " is deleted."]
      else []
  end.

(** The linking errors that a node calls for: no declared parent below
    SYSTEM level, and the errors of its declared parents. *)
Definition nodeErrors (rg : reqGraph) (k : string) : list string :=
  match rg !! k with
  | None => []
  | Some req =>
      (if bool_decide (length (ParentIds req) = 0%nat) && bool_decide (Level req ≠ SYSTEM)
       then [errNoParents req] else [])
      ++ flat_map (parentErrors rg req) (ParentIds req)
  end.

Definition linkErrors (order : list string) (rg : reqGraph) : list string :=
  flat_map (nodeErrors rg) order.

(** [r] with more parents and children. *)
Definition addLinks (ps cs : list string) (r : Req) : Req :=
  set_Parents (Parents r ++ ps) (set_Children (Children r ++ cs) r).

(** [rg'] is [rg] with the parents [P x] and the children [C x] added to
    the node under [x], for every [x]. *)
Definition linksAdded (P C : string -> list string) (rg rg' : reqGraph) : Prop :=
  forall x, rg' !! x = addLinks (P x) (C x) <$> rg !! x.

(** The links that one turn of the loop over [req.ParentIds] adds. *)
Definition stepP (rg : reqGraph) (k parentId x : string) : list string :=
  if decide (x = k)
  then match rg !! parentId with Some _ => [parentId] | None => [] end
  else [].

Definition stepC (k parentId x : string) : list string :=
  if decide (x = parentId) then [k] else [].

(** The links that the first loop of [Resolve] adds to the node under [x]:
    its declared parents that are in the graph, and the nodes that declare
    it as a parent. *)
Definition nodeP (rg : reqGraph) (x k : string) : list string :=
  from_option (fun req => flat_map (fun pid => stepP rg k pid x) (ParentIds req)) [] (rg !! k).

Definition nodeC (rg : reqGraph) (x k : string) : list string :=
  from_option (fun req => flat_map (fun pid => stepC k pid x) (ParentIds req)) [] (rg !! k).

(** ** Traversals: reachability, shape, and the status of a node *)

Definition childrenOf (rg : reqGraph) (k : string) : list string :=
  from_option Children [] (rg !! k).

Definition parentsOf (rg : reqGraph) (k : string) : list string :=
  from_option Parents [] (rg !! k).

(** [x] is reached from [k] through child links, and through parent
    links. *)
Definition reachDown (rg : reqGraph) : string -> string -> Prop :=
  rtc (fun a b => b ∈ childrenOf rg a).

Definition reachUp (rg : reqGraph) : string -> string -> Prop :=
  rtc (fun a b => b ∈ parentsOf rg a).

(** Two nodes, and two graphs, with the same levels and the same links, up
    to the order of the links. *)
Definition sameNode (o o' : option Req) : Prop :=
  match o, o' with
  | Some r, Some r' =>
      Level r = Level r' /\ Children r ≡ₚ Children r' /\ Parents r ≡ₚ Parents r'
  | None, None => True
  | _, _ => False
  end.

Definition sameGraph (g h : reqGraph) : Prop :=
  forall x, sameNode (g !! x) (h !! x).

(** [h'] is [h] but for the reached markers and the statuses. *)
Definition eraseMarks (r : Req) : Req := set_Seen false (set_Status NOT_STARTED r).

Definition marksOnly (h h' : reqGraph) : Prop :=
  forall x, eraseMarks <$> h' !! x = eraseMarks <$> h !! x.

(** The status that [resolveDown] computes for [k]: COMPLETED for a node
    all of whose children are COMPLETED, NOT_STARTED for a childless node
    that is not a CODE node, STARTED otherwise; [None] when the children
    lie deeper than [fuel]. *)
Fixpoint statusOf (fuel : nat) (rg : reqGraph) (k : string) : option RequirementStatus :=
  match fuel with
  | O => None
  | S fuel' =>
      match rg !! k with
      | None => None
      | Some r =>
          if bool_decide (Level r ≠ CODE) && bool_decide (length (Children r) = 0%nat)
          then Some NOT_STARTED
          else if forallb (fun c => bool_decide (is_Some (statusOf fuel' rg c))) (Children r)
          then Some (if forallb (fun c => bool_decide (statusOf fuel' rg c = Some COMPLETED))
                                (Children r)
                     then COMPLETED else STARTED)
          else None
      end
  end.

(** The node under [x] has been visited: it is marked as reached and holds
    the status that its children give it. *)
Definition Marked (g : reqGraph) (x : string) (o : option Req) : Prop :=
  exists r', o = Some r' /\ Seen r' = true /\
             exists fuel, statusOf fuel g x = Some (Status r').

(** What calls of [resolveDown] on [roots] make of [h]: marks are all that
    changes, they change only below the roots, and every node below a root
    is marked. *)
Definition downPost (g h : reqGraph) (roots : list string) (h' : reqGraph) : Prop :=
  marksOnly h h' /\
  (forall x, h' !! x = h !! x \/
             ((exists c, c ∈ roots /\ reachDown g c x) /\ Marked g x (h' !! x))) /\
  (forall c x, c ∈ roots -> reachDown g c x -> Marked g x (h' !! x)).

(** The SYSTEM nodes among [order]. *)
Definition systemRoots (g : reqGraph) (order : list string) : list string :=
  List.filter (fun k => bool_decide (Level <$> g !! k = Some SYSTEM)) order.

(** The CODE nodes among [order]. *)
Definition codeRoots (g : reqGraph) (order : list string) : list string :=
  List.filter (fun k => bool_decide (Level <$> g !! k = Some CODE)) order.

(** ** The upward pass *)

(** [h'] is [h] but for the reached markers and the positions. *)
Definition eraseUp (r : Req) : Req := set_Seen false (set_Position 0 r).

Definition upOnly (h h' : reqGraph) : Prop :=
  forall x, eraseUp <$> h' !! x = eraseUp <$> h !! x.

(** What calls of [resolveUp] on [roots], with positions set in between,
    make of [h]: a marker changes only to [true] and only above a root, and
    every node above a root is marked. *)
Definition upPost (g h : reqGraph) (roots : list string) (h' : reqGraph) : Prop :=
  upOnly h h' /\
  (forall x, Seen <$> h' !! x = Seen <$> h !! x \/
             ((exists c, c ∈ roots /\ reachUp g c x) /\ Seen <$> h' !! x = Some true)) /\
  (forall c x, c ∈ roots -> reachUp g c x -> Seen <$> h' !! x = Some true).

(** Whether the parents of [k] end within [fuel] levels. *)
Fixpoint climbs (fuel : nat) (rg : reqGraph) (k : string) : bool :=
  match fuel with
  | O => false
  | S fuel' =>
      match rg !! k with
      | None => false
      | Some r => forallb (climbs fuel' rg) (Parents r)
      end
  end.

(** [resolveUp] writes reached markers only. *)
Definition seenOnly (h h' : reqGraph) : Prop :=
  forall x, set_Seen false <$> h' !! x = set_Seen false <$> h !! x.

(** ** Sorting *)

Definition byPos (pos : string -> Z) (a b : string) : Prop := pos a <= pos b.

(** [h'] is [h] with the links of every node put in another order. *)
Definition relinked (h h' : reqGraph) : Prop :=
  forall x,
    match h !! x, h' !! x with
    | Some r, Some r' =>
        r' = set_Parents (Parents r') (set_Children (Children r') r) /\
        Parents r' ≡ₚ Parents r /\ Children r' ≡ₚ Children r
    | None, None => True
    | _, _ => False
    end.

(** ** Ingested graphs and levels *)

(** A graph as ingestion leaves it: no links yet, no node reached. *)
Definition unlinked (rg : reqGraph) : Prop :=
  forall k r, rg !! k = Some r -> Parents r = [] /\ Children r = [].

Definition unseen (rg : reqGraph) : Prop :=
  forall k r, rg !! k = Some r -> Seen r = false.

(** [order] visits every node of [rg]. *)
Definition covers (order : list string) (rg : reqGraph) : Prop :=
  forall k, is_Some (rg !! k) -> k ∈ order.

(** Every declared parent that is in the graph is of a strictly higher
    level (a smaller [iota]) than the node that declares it. *)
Definition declaredUpwards (rg : reqGraph) : Prop :=
  forall k req pid parent,
    rg !! k = Some req -> pid ∈ ParentIds req -> rg !! pid = Some parent ->
    (levelNum (Level parent) < levelNum (Level req))%nat.

(** Every parent link leads to a strictly higher level and every child
    link to a strictly lower one. *)
Definition levelledLinks (h : reqGraph) : Prop :=
  (forall x p, p ∈ parentsOf h x ->
     exists rx rp, h !! x = Some rx /\ h !! p = Some rp /\
                   (levelNum (Level rp) < levelNum (Level rx))%nat) /\
  (forall x c, c ∈ childrenOf h x ->
     exists rx rc, h !! x = Some rx /\ h !! c = Some rc /\
                   (levelNum (Level rx) < levelNum (Level rc))%nat).

(** ** The nodes that the two passes reach *)

(** [x] lies below a SYSTEM node that the downward loop visits, or above a
    CODE node that the upward loop visits. *)
Definition belowSystem (g : reqGraph) (o2 : list string) (x : string) : Prop :=
  exists s, s ∈ systemRoots g o2 /\ reachDown g s x.

Definition aboveCode (g : reqGraph) (o4 : list string) (x : string) : Prop :=
  exists c, c ∈ codeRoots g o4 /\ reachUp g c x.

(** ** Example graphs *)

(** Two documents, each with one record, both called REQ-0-DDLN-SYS-001. *)
Module DuplicateScenario.

Definition record (text : string) : lyxReq :=
  mkLyxReq "REQ-0-DDLN-SYS-001" [] {[ "TEXT" := text ]} 0.

Definition certdocs (fileName : string) : list lyxReq + string :=
  if String.eqb fileName "/repo/a.lyx" then inl [record "First"]
  else if String.eqb fileName "/repo/b.lyx" then inl [record "Second"]
  else inr "no such file".

Definition parse : string -> reqGraph -> result (reqGraph * list string) :=
  ParseLyx "/repo" (fun _ => "SYS") lyxReq (fun _ => None) certdocs inl
           (fun _ _ present _ => ([], present)).

Definition first : Req :=
  mkReq "REQ-0-DDLN-SYS-001" SYSTEM "/a.lyx" "" [] [] [] "First" ∅ 0 false NOT_STARTED.

End DuplicateScenario.

(** A schema with one rule, a SYSTEM node that lacks the attribute of the
    rule, a HIGH node that has it with a value the pattern does not match,
    and a CODE node; patterns are compared literally. *)
Module AttributeScenario.

Definition compile (pattern : string) : (string -> bool) + string :=
  inl (String.eqb pattern).

Definition rules : list (gmap string string) :=
  [ {[ "name" := "RATIONALE"; "value" := "yes" ]} ].

Definition sys : Req :=
  mkReq "REQ-0-DDLN-SYS-001" SYSTEM "/a.lyx" "" [] [] [] "Title" ∅ 0 false NOT_STARTED.

Definition high : Req :=
  mkReq "REQ-0-DDLN-SWH-001" HIGH "/a.lyx" "" ["REQ-0-DDLN-SYS-001"] [] [] "Title"
        {[ "RATIONALE" := "no" ]} 1 false NOT_STARTED.

Definition code : Req :=
  mkReq "a.go" CODE "/repo/a.go" "" ["REQ-0-DDLN-SWH-001"] [] [] "" ∅ 0 false NOT_STARTED.

Definition graph : reqGraph :=
  {[ "REQ-0-DDLN-SYS-001" := sys; "REQ-0-DDLN-SWH-001" := high; "/repo/a.go" := code ]}.

Definition order : list string :=
  ["/repo/a.go"; "REQ-0-DDLN-SWH-001"; "REQ-0-DDLN-SYS-001"].

End AttributeScenario.

(** A superseded SYSTEM node and a live HIGH node that names it as its
    parent. *)
Module SupersededScenario.

Definition old : Req :=
  mkReq "REQ-0-DDLN-SYS-001" SYSTEM "/a.lyx" "" [] [] []
        ("DELETED Old requirement" +:+ GoStrings.nl +:+ "Body.") ∅ 0 false NOT_STARTED.

Definition live : Req :=
  mkReq "REQ-0-DDLN-SWH-001" HIGH "/b.lyx" "" ["REQ-0-DDLN-SYS-001"] [] []
        ("Live requirement" +:+ GoStrings.nl +:+ "Body.") ∅ 0 false NOT_STARTED.

Definition graph : reqGraph :=
  {[ "REQ-0-DDLN-SYS-001" := old; "REQ-0-DDLN-SWH-001" := live ]}.

Definition order : list string := ["REQ-0-DDLN-SYS-001"; "REQ-0-DDLN-SWH-001"].

End SupersededScenario.

(** A SYSTEM node, a code file that refers to it, and a HIGH node that
    names the code file as its parent. *)
Module CodeParentScenario.

Definition sys : Req :=
  mkReq "REQ-0-DDLN-SYS-001" SYSTEM "/a.lyx" "" [] [] []
        ("System requirement" +:+ GoStrings.nl +:+ "Body.") ∅ 0 false NOT_STARTED.

Definition code : Req :=
  mkReq "a.go" CODE "/repo/a.go" "" ["REQ-0-DDLN-SYS-001"] [] [] "" ∅ 0 false NOT_STARTED.

Definition high : Req :=
  mkReq "REQ-0-DDLN-SWH-001" HIGH "/a.lyx" "" ["/repo/a.go"] [] []
        ("High-level requirement" +:+ GoStrings.nl +:+ "Body.") ∅ 1 false NOT_STARTED.

Definition graph : reqGraph :=
  {[ "REQ-0-DDLN-SYS-001" := sys; "/repo/a.go" := code; "REQ-0-DDLN-SWH-001" := high ]}.

Definition order : list string :=
  ["REQ-0-DDLN-SWH-001"; "/repo/a.go"; "REQ-0-DDLN-SYS-001"].

End CodeParentScenario.

(** A SYSTEM node and two HIGH nodes each of which names the other as a
    parent. *)
Module CycleScenario.

Definition sys : Req :=
  mkReq "REQ-0-DDLN-SYS-001" SYSTEM "/a.lyx" "" [] [] []
        ("System requirement" +:+ GoStrings.nl +:+ "Body.") ∅ 0 false NOT_STARTED.

Definition first : Req :=
  mkReq "REQ-0-DDLN-SWH-001" HIGH "/a.lyx" ""
        ["REQ-0-DDLN-SYS-001"; "REQ-0-DDLN-SWH-002"] [] []
        ("First requirement" +:+ GoStrings.nl +:+ "Body.") ∅ 1 false NOT_STARTED.

Definition second : Req :=
  mkReq "REQ-0-DDLN-SWH-002" HIGH "/a.lyx" "" ["REQ-0-DDLN-SWH-001"] [] []
        ("Second requirement" +:+ GoStrings.nl +:+ "Body.") ∅ 2 false NOT_STARTED.

Definition graph : reqGraph :=
  <["REQ-0-DDLN-SYS-001" := sys]>
    (<["REQ-0-DDLN-SWH-001" := first]> (<["REQ-0-DDLN-SWH-002" := second]> ∅)).

Definition order : list string :=
  ["REQ-0-DDLN-SYS-001"; "REQ-0-DDLN-SWH-001"; "REQ-0-DDLN-SWH-002"].

(** The graph after the first loop of [Resolve]. *)
Definition linked : reqGraph := (fold_left linkReq order (graph, "")).1.

End CycleScenario.

(** A SYSTEM node, a HIGH node below it, and a code file that refers to
    the HIGH node. *)
Module ChainScenario.

Definition sys : Req :=
  mkReq "REQ-0-DDLN-SYS-001" SYSTEM "/a.lyx" "" [] [] []
        ("System requirement" +:+ GoStrings.nl +:+ "Body.") ∅ 0 false NOT_STARTED.

Definition high : Req :=
  mkReq "REQ-0-DDLN-SWH-001" HIGH "/a.lyx" "" ["REQ-0-DDLN-SYS-001"] [] []
        ("High-level requirement" +:+ GoStrings.nl +:+ "Body.") ∅ 1 false NOT_STARTED.

Definition code : Req :=
  mkReq "a.go" CODE "/repo/a.go" "" ["REQ-0-DDLN-SWH-001"] [] [] "" ∅ 0 false NOT_STARTED.

Definition graph : reqGraph :=
  <["REQ-0-DDLN-SYS-001" := sys]>
    (<["REQ-0-DDLN-SWH-001" := high]> (<["/repo/a.go" := code]> ∅)).

Definition order : list string :=
  ["/repo/a.go"; "REQ-0-DDLN-SWH-001"; "REQ-0-DDLN-SYS-001"].

End ChainScenario.

(** A SYSTEM node with two HIGH nodes below it, of which only the first
    has a code file below it. *)
Module StalledScenario.

Definition sys : Req :=
  mkReq "REQ-0-DDLN-SYS-001" SYSTEM "/a.lyx" "" [] [] []
        ("System requirement" +:+ GoStrings.nl +:+ "Body.") ∅ 0 false NOT_STARTED.

Definition high : Req :=
  mkReq "REQ-0-DDLN-SWH-001" HIGH "/a.lyx" "" ["REQ-0-DDLN-SYS-001"] [] []
        ("Implemented requirement" +:+ GoStrings.nl +:+ "Body.") ∅ 1 false NOT_STARTED.

Definition stalled : Req :=
  mkReq "REQ-0-DDLN-SWH-002" HIGH "/a.lyx" "" ["REQ-0-DDLN-SYS-001"] [] []
        ("Stalled requirement" +:+ GoStrings.nl +:+ "Body.") ∅ 2 false NOT_STARTED.

Definition code : Req :=
  mkReq "a.go" CODE "/repo/a.go" "" ["REQ-0-DDLN-SWH-001"] [] [] "" ∅ 0 false NOT_STARTED.

Definition graph : reqGraph :=
  <["REQ-0-DDLN-SYS-001" := sys]>
    (<["REQ-0-DDLN-SWH-001" := high]>
       (<["REQ-0-DDLN-SWH-002" := stalled]> (<["/repo/a.go" := code]> ∅))).

Definition order : list string :=
  ["REQ-0-DDLN-SWH-002"; "/repo/a.go"; "REQ-0-DDLN-SYS-001"; "REQ-0-DDLN-SWH-001"].

End StalledScenario.

(** Two LOW nodes and two code files; the first file implements the second
    LOW node, the second file implements both. *)
Module TwoFilesScenario.

Definition sys : Req :=
  mkReq "REQ-0-DDLN-SYS-001" SYSTEM "/a.lyx" "" [] [] []
        ("System requirement" +:+ GoStrings.nl +:+ "Body.") ∅ 0 false NOT_STARTED.

Definition high : Req :=
  mkReq "REQ-0-DDLN-SWH-001" HIGH "/a.lyx" "" ["REQ-0-DDLN-SYS-001"] [] []
        ("High-level requirement" +:+ GoStrings.nl +:+ "Body.") ∅ 1 false NOT_STARTED.

Definition low1 : Req :=
  mkReq "REQ-0-DDLN-SWL-001" LOW "/a.lyx" "" ["REQ-0-DDLN-SWH-001"] [] []
        ("First low-level requirement" +:+ GoStrings.nl +:+ "Body.") ∅ 2 false NOT_STARTED.

Definition low2 : Req :=
  mkReq "REQ-0-DDLN-SWL-002" LOW "/a.lyx" "" ["REQ-0-DDLN-SWH-001"] [] []
        ("Second low-level requirement" +:+ GoStrings.nl +:+ "Body.") ∅ 3 false NOT_STARTED.

Definition fileA : Req :=
  mkReq "a.go" CODE "/repo/a.go" "" ["REQ-0-DDLN-SWL-002"] [] [] "" ∅ 0 false NOT_STARTED.

Definition fileB : Req :=
  mkReq "b.go" CODE "/repo/b.go" "" ["REQ-0-DDLN-SWL-001"; "REQ-0-DDLN-SWL-002"] [] []
        "" ∅ 0 false NOT_STARTED.

Definition graph : reqGraph :=
  <["REQ-0-DDLN-SYS-001" := sys]>
    (<["REQ-0-DDLN-SWH-001" := high]>
       (<["REQ-0-DDLN-SWL-001" := low1]>
          (<["REQ-0-DDLN-SWL-002" := low2]>
             (<["/repo/a.go" := fileA]> (<["/repo/b.go" := fileB]> ∅))))).

Definition order : list string :=
  ["REQ-0-DDLN-SYS-001"; "REQ-0-DDLN-SWH-001"; "REQ-0-DDLN-SWL-001";
   "REQ-0-DDLN-SWL-002"; "/repo/a.go"; "/repo/b.go"].

End TwoFilesScenario.

(** The chain scenario after [Resolve]. *)
Definition ChainScenario_resolved : reqGraph :=
  match Resolve 4 ChainScenario.order ChainScenario.order ChainScenario.order
                ChainScenario.order ChainScenario.graph with
  | Some (Linked h) => h
  | _ => ∅
  end.

(** The chain scenario after linking and after a first propagation. *)
Definition ChainScenario_linked : reqGraph :=
  (fold_left linkReq ChainScenario.order (ChainScenario.graph, "")).1.

Definition ChainScenario_propagated : reqGraph :=
  match propagate 4 ChainScenario.order ChainScenario.order ChainScenario.order
                  ChainScenario_linked with
  | Some (Linked h) => h
  | _ => ∅
  end.

(** ** What [Resolve] leaves of a graph *)

(** The graph that a call of [Resolve] leaves behind, unless it panics. *)
Definition graphOf (res : resolved) : option reqGraph :=
  match res with
  | Linked rg | LinkErrors _ rg => Some rg
  | IndexOutOfRange => None
  end.

(** What ingestion has stored in a node. *)
Definition ingestedFields (r : Req)
  : string * RequirementLevel * string * string * list string * string * gmap string string :=
  (ID r, Level r, Path r, FileHash r, ParentIds r, Body r, Attributes r).

(** The declared parents of [req] that are in the graph. *)
Definition resolvedParents (rg : reqGraph) (req : Req) : list string :=
  List.filter (fun pid => bool_decide (is_Some (rg !! pid))) (ParentIds req).

(** [x] is, or lies below, a SYSTEM node of [rg] that the loop over [o2]
    visits. *)
Definition underSystem (o2 : list string) (rg : reqGraph) (x : string) : Prop :=
  exists s rs, s ∈ o2 /\ rg !! s = Some rs /\ Level rs = SYSTEM /\ reachDown rg s x.

(** The chain scenario after a second call of [Resolve]. *)
Definition ChainScenario_resolved_again : reqGraph :=
  match Resolve 4 ChainScenario.order ChainScenario.order ChainScenario.order
                ChainScenario.order ChainScenario_resolved with
  | Some (Linked h) => h
  | _ => ∅
  end.

(** The stalled scenario after [Resolve]. *)
Definition StalledScenario_resolved : reqGraph :=
  match Resolve 4 StalledScenario.order StalledScenario.order StalledScenario.order
                StalledScenario.order StalledScenario.graph with
  | Some (Linked h) => h
  | _ => ∅
  end.

(** A HIGH node that names itself as its parent, and no SYSTEM node. *)
Module DetachedScenario.

Definition high : Req :=
  mkReq "REQ-0-DDLN-SWH-001" HIGH "/a.lyx" "" ["REQ-0-DDLN-SWH-001"] [] []
        ("High-level requirement" +:+ GoStrings.nl +:+ "Body.") ∅ 0 false NOT_STARTED.

Definition graph : reqGraph := <["REQ-0-DDLN-SWH-001" := high]> ∅.

Definition order : list string := ["REQ-0-DDLN-SWH-001"].

End DetachedScenario.

Definition DetachedScenario_resolved : reqGraph :=
  match Resolve 1 DetachedScenario.order DetachedScenario.order DetachedScenario.order
                DetachedScenario.order DetachedScenario.graph with
  | Some (Linked h) => h
  | _ => ∅
  end.

(** ** Ingested graphs *)

(** A node as ingestion stores it under the key [k]: without links, not
    reached, NOT_STARTED; a CODE node under its path, with a reference or
    more and nothing else; any other node under its identifier, its text in
    [Body] and not among its attributes, at a position that fits 32 bits. *)
Definition ingestedNode (k : string) (r : Req) : Prop :=
  Parents r = [] /\ Children r = [] /\ Seen r = false /\ Status r = NOT_STARTED /\
  (Level r = CODE ->
   Path r = k /\ ParentIds r <> [] /\ Body r = "" /\ Attributes r = ∅ /\ Position r = 0) /\
  (Level r <> CODE ->
   ID r = k /\ FileHash r = "" /\ Attributes r !! "TEXT" = None /\
   0 <= Position r < 2 ^ 32).

Definition ingested (rg : reqGraph) : Prop :=
  forall k r, rg !! k = Some r -> ingestedNode k r.

(** The characters of [s] are all of the class [p]. *)
Fixpoint allOf (p : ascii -> bool) (s : string) : bool :=
  match s with
  | EmptyString => true
  | String c s' => p c && allOf p s'
  end.

(** [ref] is [REQ-], digits, [-], word characters, [-SWL-], digits. *)
Definition llrReference (ref : string) : Prop :=
  exists d1 w d2,
    ref = "REQ-" +:+ d1 +:+ "-" +:+ w +:+ "-SWL-" +:+ d2 /\
    d1 <> "" /\ allOf LLR.isDigit d1 = true /\
    w <> "" /\ allOf LLR.isWord w = true /\
    d2 <> "" /\ allOf LLR.isDigit d2 = true.

(** [s] does not start with a character of the class [p]. *)
Definition startsWithout (p : ascii -> bool) (s : string) : Prop :=
  match s with
  | EmptyString => True
  | String c _ => p c = false
  end.

(** A code file with two tagged lines. *)
Module CodeFileScenario.

Definition file : codeFile :=
  mkCodeFile ["package main"; "// @llr REQ-0-DDLN-SWL-001"; "func main() {}";
              "  //@llr REQ-0-DDLN-SWL-002 and more"] None "hash".

End CodeFileScenario.

(** ** Filters *)

(** What the filter of type [t] is matched against, if [t] is one of the
    three filter types. *)
Definition subjectOf (r : Req) (t : Z) : option string :=
  if t =? TitleFilter then Some (Title r)
  else if t =? IdFilter then Some (ID r)
  else if t =? BodyFilter then Some (Body r)
  else None.

(** No entry of one of the three types holds a [nil] expression. *)
Definition compiled (r : Req) (entries : list (Z * option (string -> bool))) : Prop :=
  forall t e, (t, e) ∈ entries -> is_Some (subjectOf r t) -> is_Some e.

(** Every expression matches what it is for. *)
Definition passes (r : Req) (entries : list (Z * option (string -> bool))) : Prop :=
  forall t m subject,
    (t, Some m) ∈ entries -> subjectOf r t = Some subject -> m subject = true.

(** ** Paths *)

(** [sep] occurs in [s] at the byte offset [n]. *)
Definition occursAt (sep s : string) (n : nat) : Prop :=
  String.prefix sep (GoPath.drop n s) = true.

(** ** Patterns that do not compile *)

Section BadPatterns.

Variable ToUpper : string -> string.
Variable regexp_Compile : string -> (string -> bool) + string.

(** The rule [a] gives, for an attribute that [r] has, a pattern that does
    not compile; [m] is the error of [regexp.Compile]. *)
Definition badPattern (r : Req) (a : gmap string string) (m : string) : Prop :=
  exists v val,
    a !! "value" = Some v /\
    Attributes r !! ToUpper (default "" (a !! "name")) = Some val /\
    regexp_Compile v = inr m.

End BadPatterns.

(** A schema whose rule has a pattern that does not compile, and a SYSTEM
    node with the attribute of the rule. *)
Module BadPatternScenario.

Definition compile (pattern : string) : (string -> bool) + string :=
  if String.eqb pattern "(" then inr "missing closing )" else inl (String.eqb pattern).

Definition rules : list (gmap string string) :=
  [ {[ "name" := "RATIONALE"; "value" := "(" ]} ].

Definition sys : Req :=
  mkReq "REQ-0-DDLN-SYS-001" SYSTEM "/a.lyx" "" [] [] [] "Title"
        {[ "RATIONALE" := "none" ]} 0 false NOT_STARTED.

Definition graph : reqGraph := {[ "REQ-0-DDLN-SYS-001" := sys ]}.

Definition order : list string := ["REQ-0-DDLN-SYS-001"].

End BadPatternScenario.

(** * Properties *)

(** ** The body of a requirement *)

Lemma cutNewline_None (s a : string) :
  GoStrings.cutNewline s = (a, None) -> a = s /\ containsNewline s = false.
Proof.
  revert a. induction s as [|c s IH]; simpl; intros a H.
  - by inversion H.
  - destruct (Ascii.eqb c _) eqn:Hc; [done|].
    destruct (GoStrings.cutNewline s) as [a' b'] eqn:Hs.
    inversion H; subst. destruct (IH a' eq_refl) as [-> ->]. done.
Qed.

Lemma cutNewline_Some (s a b : string) :
  GoStrings.cutNewline s = (a, Some b) ->
  s = a +:+ GoStrings.nl +:+ b /\ containsNewline a = false /\ containsNewline s = true.
Proof.
  revert a. induction s as [|c s IH]; simpl; intros a H.
  - by inversion H.
  - destruct (Ascii.eqb c _) eqn:Hc.
    + inversion H; subst. apply Ascii.eqb_eq in Hc as ->. done.
    + destruct (GoStrings.cutNewline s) as [a' b'] eqn:Hs.
      inversion H; subst. destruct (IH a' eq_refl) as (Hs' & Ha & Hn).
      simpl. rewrite Hc, Ha, Hn. split_and!; [|done..]. by rewrite Hs' at 1.
Qed.

Lemma cutNewline_app (a b : string) :
  containsNewline a = false ->
  GoStrings.cutNewline (a +:+ GoStrings.nl +:+ b) = (a, Some b).
Proof.
  induction a as [|c a IH]; simpl; [done|].
  intros H. apply orb_false_elim in H as [Hc Ha]. rewrite Hc, (IH Ha). done.
Qed.

(** C10.  [BodyWithoutTitle] ends the process through [log.Fatal] exactly
    when the body holds no newline, and returns [rest] exactly when the body
    is a first line without newline, a newline, and [rest]. *)
Theorem BodyWithoutTitle_fatal_or_rest (r : Req) :
  (containsNewline (Body r) = false <->
   BodyWithoutTitle r =
     Fatal ("No valid title in body of requirement with id: " +:+ ID r)) /\
  (forall rest,
     BodyWithoutTitle r = Returned rest <->
     exists title, containsNewline title = false /\
                   Body r = title +:+ GoStrings.nl +:+ rest).
Proof.
  unfold BodyWithoutTitle, GoStrings.SplitN2.
  destruct (GoStrings.cutNewline (Body r)) as [a [b|]] eqn:Hcut.
  - apply cutNewline_Some in Hcut as Hs. destruct Hs as (Hbody & Ha & Hnl).
    split.
    + rewrite Hnl. split; discriminate.
    + intros rest. split.
      * intros [= <-]. eauto.
      * intros (title & Ht & Hb). rewrite Hb, (cutNewline_app _ _ Ht) in Hcut.
        by inversion Hcut.
  - apply cutNewline_None in Hcut as Hs. destruct Hs as [-> Hnl].
    split; [done|].
    intros rest. split; [discriminate|].
    intros (title & Ht & Hb). rewrite Hb, (cutNewline_app _ _ Ht) in Hcut.
    discriminate.
Qed.

(** ** Ingestion *)

Section IngestionFacts.

Variable RepoPath : string.
Variable ReqType : lyxReq -> string.

(** [AddReq] turns down a record whose identifier is taken: the graph and
    the record stay as they are, and the error names the identifier, the
    path given and the path of the node already stored. *)
Lemma AddReq_duplicate (rg : reqGraph) (req : lyxReq) (path : string) (v : Req) :
  rg !! lyx_ID req = Some v ->
  AddReq RepoPath ReqType rg req path =
    Returned (rg, req,
              Some ("Requirement " +:+ lyx_ID req +:+ " in " +:+ path +:+
                    " already defined in " +:+ Path v)).
Proof. intros H. unfold AddReq. by rewrite H. Qed.

End IngestionFacts.

(** C6.  The second definition of an identifier is turned down by [AddReq],
    which leaves the graph as it is and returns the error naming both
    paths; [ParseLyx] drops that error, so the second document is ingested
    with an empty error list. *)
Theorem ParseLyx_duplicate_unreported :
  let g1 : reqGraph := {[ "REQ-0-DDLN-SYS-001" := DuplicateScenario.first ]} in
  DuplicateScenario.parse "/repo/a.lyx" ∅ = Returned (g1, []) /\
  AddReq "/repo" (fun _ => "SYS") g1 (DuplicateScenario.record "Second") "/repo/b.lyx" =
    Returned (g1, DuplicateScenario.record "Second",
              Some "Requirement REQ-0-DDLN-SYS-001 in /repo/b.lyx already defined in /a.lyx") /\
  DuplicateScenario.parse "/repo/b.lyx" g1 = Returned (g1, []).
Proof. vm_compute. done. Qed.

(** ** Attribute checking *)

Lemma foldResult_nil {A B} (f : A -> B -> result A) (a : A) :
  foldResult f [] a = Returned a.
Proof. done. Qed.

Lemma foldResult_fatal {A B} (f : A -> B -> result A) (l : list B) (m : string) :
  fold_left (fun acc b => bindResult acc (fun a' => f a' b)) l (Fatal m) = Fatal m.
Proof. induction l as [|x l IH]; simpl; done. Qed.

Lemma foldResult_cons {A B} (f : A -> B -> result A) (x : B) (l : list B) (a : A) :
  foldResult f (x :: l) a = bindResult (f a x) (foldResult f l).
Proof.
  unfold foldResult. simpl. destruct (f a x) as [a'|m]; simpl; [done|].
  apply foldResult_fatal.
Qed.

(** A loop whose body only appends: what was appended, entry by entry. *)
Lemma foldResult_appends {B E} (f : list E -> B -> result (list E))
    (P : B -> list E -> Prop) (l : list B) :
  (forall errs x errs', f errs x = Returned errs' ->
     exists new, errs' = errs ++ new /\ P x new) ->
  forall errs errs', foldResult f l errs = Returned errs' ->
  exists news, errs' = errs ++ concat news /\ Forall2 P l news.
Proof.
  intros Hf. induction l as [|x l IH]; intros errs errs'.
  - rewrite foldResult_nil. intros [= <-]. exists []. split; [|constructor].
    simpl. by rewrite app_nil_r.
  - rewrite foldResult_cons. destruct (f errs x) as [e1|m] eqn:Hx; [|done].
    simpl. intros Hl. destruct (Hf _ _ _ Hx) as (new & -> & Hnew).
    destruct (IH _ _ Hl) as (news & -> & Hnews).
    exists (new :: news). split; [|by constructor].
    simpl. by rewrite app_assoc.
Qed.

Lemma elem_of_concat {A} (x : A) (ls : list (list A)) :
  x ∈ concat ls <-> exists l, x ∈ l /\ l ∈ ls.
Proof.
  rewrite list_elem_of_In, in_concat. split.
  - intros (l & Hl & Hx). exists l. by rewrite !list_elem_of_In.
  - intros (l & Hx & Hl). exists l. by rewrite <- !list_elem_of_In.
Qed.

Lemma Forall2_elem_l {A B} (P : A -> B -> Prop) (l : list A) (k : list B) (x : A) :
  Forall2 P l k -> x ∈ l -> exists y, y ∈ k /\ P x y.
Proof.
  induction 1 as [|a b l k Hab _ IH]; [by intros ?%elem_of_nil|].
  intros [->|Hx]%elem_of_cons.
  - exists b. split; [left|done].
  - destruct (IH Hx) as (y & Hy & HP). exists y. split; [by right|done].
Qed.

Lemma Forall2_elem_r {A B} (P : A -> B -> Prop) (l : list A) (k : list B) (y : B) :
  Forall2 P l k -> y ∈ k -> exists x, x ∈ l /\ P x y.
Proof.
  induction 1 as [|a b l k Hab _ IH]; [by intros ?%elem_of_nil|].
  intros [->|Hy]%elem_of_cons.
  - exists a. split; [left|done].
  - destruct (IH Hy) as (x & Hx & HP). exists x. split; [by right|done].
Qed.

Section AttributeFacts.

Variable ToUpper : string -> string.
Variable regexp_Compile : string -> (string -> bool) + string.
Variable rangeRule : gmap string string -> list (string * string).

(** [range] visits every entry of a map once. *)
Hypothesis rangeRule_perm : forall a, rangeRule a ≡ₚ map_to_list a.

Lemma checkEntry_appends (r : Req) (a : gmap string string) (errs errs' : list string)
    (kv : string * string) :
  checkEntry ToUpper regexp_Compile r a errs kv = Returned errs' ->
  exists new, errs' = errs ++ new /\ entryErrors ToUpper regexp_Compile r a kv new.
Proof.
  destruct kv as [k v]. unfold checkEntry, entryErrors. simpl.
  destruct (String.eqb k "name") eqn:Hname.
  { apply String.eqb_eq in Hname as ->.
    destruct (Attributes r !! ToUpper v) as [val|] eqn:Hattr.
    - intros [= <-]. exists []. rewrite app_nil_r. split; [done|]. intros Ha.
      split_and!; [by intros e ?%elem_of_nil| |done].
      intros _ (_ & Hnone & _). congruence.
    - destruct (negb _) eqn:Hex.
      + intros [= <-]. exists [missingAttribute r v]. split; [done|]. intros Ha.
        split_and!; [| |done].
        * intros e ->%list_elem_of_singleton. left. exists v. split; [|done].
          split_and!; [done..|]. intros [Hl Hp].
          apply negb_true_iff, andb_false_iff in Hex as [Hex|Hex].
          -- by apply bool_decide_eq_false in Hex.
          -- apply String.eqb_neq in Hex. done.
        * intros _ _. by apply list_elem_of_singleton.
      + intros [= <-]. exists []. rewrite app_nil_r. split; [done|]. intros Ha.
        split_and!; [by intros e ?%elem_of_nil| |done].
        intros _ (_ & _ & Hne). exfalso. apply Hne.
        apply negb_false_iff, andb_true_iff in Hex as [Hl Hp].
        apply bool_decide_eq_true in Hl. apply String.eqb_eq in Hp. done. }
  destruct (String.eqb k "value") eqn:Hvalue.
  { apply String.eqb_eq in Hvalue as ->.
    destruct (Attributes r !! ToUpper (default "" (a !! "name"))) as [val|] eqn:Hattr.
    - destruct (regexp_Compile v) as [m|err] eqn:Hre; [|done].
      destruct (negb (m val)) eqn:Hm.
      + intros [= <-]. eexists [_]. split; [done|]. intros Ha.
        apply negb_true_iff in Hm.
        split_and!; [|done|].
        * intros e ->%list_elem_of_singleton. right. exists v, val. split; [|done].
          split_and!; [done..|]. eauto.
        * intros _ val' (_ & Hval & _). apply list_elem_of_singleton.
          congruence.
      + intros [= <-]. exists []. rewrite app_nil_r. split; [done|]. intros Ha.
        apply negb_false_iff in Hm.
        split_and!; [by intros e ?%elem_of_nil|done|].
        intros _ val' (_ & Hval & m' & Hm' & Hfalse). congruence.
    - intros [= <-]. exists []. rewrite app_nil_r. split; [done|]. intros Ha.
      split_and!; [by intros e ?%elem_of_nil|done|].
      intros _ val' (_ & Hval & _). congruence. }
  intros [= <-]. exists []. rewrite app_nil_r. split; [done|]. intros Ha.
  split_and!; [by intros e ?%elem_of_nil| |].
  - intros ->. done.
  - intros ->. done.
Qed.

(** The errors of one rule are those the rule calls for. *)
Lemma checkRule_appends (r : Req) (a : gmap string string) (errs errs' : list string) :
  checkRule ToUpper regexp_Compile rangeRule r errs a = Returned errs' ->
  exists new, errs' = errs ++ new /\ forall e, e ∈ new <-> ruleError ToUpper regexp_Compile r a e.
Proof.
  unfold checkRule. intros H.
  apply (foldResult_appends _ (entryErrors ToUpper regexp_Compile r a)) in H
    as (news & -> & Hnews); [|intros ???; apply checkEntry_appends].
  exists (concat news). split; [done|].
  assert (Hin : forall k v, (k, v) ∈ rangeRule a <-> a !! k = Some v).
  { intros k v. rewrite rangeRule_perm. apply elem_of_map_to_list. }
  intros e. split.
  - intros (new & He & Hnew)%elem_of_concat.
    apply (Forall2_elem_r _ _ _ _ Hnews) in Hnew as ([k v] & Hkv & Hspec).
    apply Hin in Hkv. destruct (Hspec Hkv) as (Hsound & _). by apply Hsound.
  - intros [(v & Hlack & ->)|(v & val & Hfail & ->)].
    + assert (Hkv : ("name", v) ∈ rangeRule a) by (apply Hin, Hlack).
      apply (Forall2_elem_l _ _ _ _ Hnews) in Hkv as (new & Hnew & Hspec).
      apply elem_of_concat. exists new. split; [|done].
      destruct (Hspec (proj1 Hlack)) as (_ & Hmiss & _). by apply Hmiss.
    + assert (Hkv : ("value", v) ∈ rangeRule a) by (apply Hin, Hfail).
      apply (Forall2_elem_l _ _ _ _ Hnews) in Hkv as (new & Hnew & Hspec).
      apply elem_of_concat. exists new. split; [|done].
      destruct (Hspec (proj1 Hfail)) as (_ & _ & Hinv). by apply Hinv.
Qed.

(** The errors of one node are those its rules call for. *)
Lemma Req_CheckAttributes_errors (r : Req) (rules : list (gmap string string))
    (errs : list string) :
  Req_CheckAttributes ToUpper regexp_Compile rangeRule r rules = Returned errs ->
  forall e, e ∈ errs <-> exists a, a ∈ rules /\ ruleError ToUpper regexp_Compile r a e.
Proof.
  unfold Req_CheckAttributes. intros H.
  apply (foldResult_appends _ (fun a new => forall e, e ∈ new <-> ruleError ToUpper regexp_Compile r a e)) in H
    as (news & -> & Hnews); [|intros ???; apply checkRule_appends].
  simpl. intros e. rewrite elem_of_concat. split.
  - intros (new & He & Hnew).
    apply (Forall2_elem_r _ _ _ _ Hnews) in Hnew as (a & Ha & Hspec).
    exists a. split; [done|]. by apply Hspec.
  - intros (a & Ha & He).
    apply (Forall2_elem_l _ _ _ _ Hnews) in Ha as (new & Hnew & Hspec).
    exists new. split; [by apply Hspec|done].
Qed.

(** The errors of the graph are those its nodes other than CODE nodes owe
    to the rules. *)
Lemma CheckAttributes_ruleErrors (order : list string) (rg : reqGraph)
    (rules : list (gmap string string)) (errs : list string) :
  CheckAttributes ToUpper regexp_Compile rangeRule order rg rules = Returned errs ->
  forall e, e ∈ errs <->
    exists k req a, k ∈ order /\ rg !! k = Some req /\ Level req <> CODE /\
                    a ∈ rules /\ ruleError ToUpper regexp_Compile req a e.
Proof.
  unfold CheckAttributes. intros H.
  apply (foldResult_appends _ (fun k new =>
           forall e, e ∈ new <->
             exists req a, rg !! k = Some req /\ Level req <> CODE /\
                           a ∈ rules /\ ruleError ToUpper regexp_Compile req a e)) in H
    as (news & -> & Hnews).
  - simpl. intros e. rewrite elem_of_concat. split.
    + intros (new & He & Hnew).
      apply (Forall2_elem_r _ _ _ _ Hnews) in Hnew as (k & Hk & Hspec).
      destruct (proj1 (Hspec e) He) as (req & a & H1 & H2 & H3 & H4).
      by exists k, req, a.
    + intros (k & req & a & Hk & Hrest).
      apply (Forall2_elem_l _ _ _ _ Hnews) in Hk as (new & Hnew & Hspec).
      exists new. split; [|done]. apply Hspec. eauto.
  - intros es k es'. destruct (rg !! k) as [req|] eqn:Hreq.
    + destruct (decide (Level req <> CODE)) as [Hl|Hl].
      * destruct (Req_CheckAttributes _ _ _ req rules) as [new|m] eqn:Hnew; [|done].
        simpl. intros [= <-]. exists new. split; [done|]. intros e.
        rewrite (Req_CheckAttributes_errors _ _ _ Hnew). split.
        -- intros (a & Ha & He). by exists req, a.
        -- intros (req' & a & [= <-] & _ & Ha & He). by exists a.
      * intros [= <-]. exists []. rewrite app_nil_r. split; [done|]. intros e.
        split; [by intros ?%elem_of_nil|]. intros (req' & a & [= <-] & ? & _). done.
    + intros [= <-]. exists []. rewrite app_nil_r. split; [done|]. intros e.
      split; [by intros ?%elem_of_nil|]. intros (req' & a & [=] & _).
Qed.

(** C9.  When [reqGraph.CheckAttributes] returns, its errors are those of
    the nodes that are not CODE nodes: for each such node and each rule,
    the missing-attribute error, which names the node and the attribute,
    when the node lacks the attribute the rule names (unless the node is a
    SYSTEM node and the attribute is PARENTS); and the invalid-value error,
    which names the node, the value and the attribute and ends with
    [Expected], the pattern of the rule and a full stop, when the node has
    the attribute with a value the rule's pattern does not match; and no
    other error. *)
Theorem CheckAttributes_reports (order : list string) (rg : reqGraph)
    (rules : list (gmap string string)) (errs : list string) :
  CheckAttributes ToUpper regexp_Compile rangeRule order rg rules = Returned errs ->
  forall e, e ∈ errs <->
    exists k req a,
      k ∈ order /\ rg !! k = Some req /\ Level req <> CODE /\ a ∈ rules /\
      ((exists v,
          lacksAttribute ToUpper req a v /\
          e = "Requirement '" +:+ ID req +:+ "' is missing attribute '" +:+ v +:+ "'." +:+
              GoStrings.nl) \/
       (exists v val,
          failsPattern ToUpper regexp_Compile req a v val /\
          e = "Requirement '" +:+ ID req +:+ "' has invalid value '" +:+ val +:+
              "' in attribute '" +:+ ToUpper (default "" (a !! "name")) +:+
              "'. Expected " +:+ v +:+ "." +:+ GoStrings.nl)).
Proof.
  intros H e. rewrite (CheckAttributes_ruleErrors order rg rules errs H e).
  unfold ruleError, missingAttribute, invalidAttribute. done.
Qed.

End AttributeFacts.

Lemma CheckAttributes_reports_witness :
  let errs :=
    ["Requirement 'REQ-0-DDLN-SWH-001' has invalid value 'no' in attribute 'RATIONALE'. Expected yes."
       +:+ GoStrings.nl;
     "Requirement 'REQ-0-DDLN-SYS-001' is missing attribute 'RATIONALE'." +:+ GoStrings.nl] in
  CheckAttributes id AttributeScenario.compile map_to_list AttributeScenario.order
                  AttributeScenario.graph AttributeScenario.rules = Returned errs /\
  forall e, e ∈ errs <->
    exists k req a,
      k ∈ AttributeScenario.order /\ AttributeScenario.graph !! k = Some req /\
      Level req <> CODE /\ a ∈ AttributeScenario.rules /\
      ((exists v,
          lacksAttribute id req a v /\
          e = "Requirement '" +:+ ID req +:+ "' is missing attribute '" +:+ v +:+ "'." +:+
              GoStrings.nl) \/
       (exists v val,
          failsPattern id AttributeScenario.compile req a v val /\
          e = "Requirement '" +:+ ID req +:+ "' has invalid value '" +:+ val +:+
              "' in attribute '" +:+ id (default "" (a !! "name")) +:+
              "'. Expected " +:+ v +:+ "." +:+ GoStrings.nl)).
Proof.
  split; [vm_compute; reflexivity|].
  apply (CheckAttributes_reports id AttributeScenario.compile map_to_list
           (fun a => reflexivity (map_to_list a))).
  vm_compute. reflexivity.
Defined.

(** ** Linking *)

Lemma append_assoc (a b c : string) : (a +:+ b) +:+ c = a +:+ b +:+ c.
Proof.
  induction a as [|x a IH]; [done|].
  change (String x ((a +:+ b) +:+ c) = String x (a +:+ b +:+ c)). by rewrite IH.
Qed.

Lemma append_nil_r (a : string) : a +:+ "" = a.
Proof.
  induction a as [|x a IH]; [done|].
  change (String x (a +:+ "") = String x a). by rewrite IH.
Qed.

Lemma append_eq_nil (a b : string) : a +:+ b = "" -> a = "" /\ b = "".
Proof. destruct a; [done|discriminate]. Qed.

Lemma joinErrors_app (l1 l2 : list string) :
  joinErrors (l1 ++ l2) = joinErrors l1 +:+ joinErrors l2.
Proof.
  induction l1 as [|x l1 IH]; [done|].
  change (x +:+ joinErrors (l1 ++ l2) = (x +:+ joinErrors l1) +:+ joinErrors l2).
  by rewrite IH, append_assoc.
Qed.

Lemma addLinks_nil (r : Req) : addLinks [] [] r = r.
Proof. destruct r. unfold addLinks, set_Parents, set_Children. simpl. by rewrite !app_nil_r. Qed.

Lemma addLinks_addLinks (ps1 cs1 ps2 cs2 : list string) (r : Req) :
  addLinks ps2 cs2 (addLinks ps1 cs1 r) = addLinks (ps1 ++ ps2) (cs1 ++ cs2) r.
Proof. unfold addLinks, set_Parents, set_Children. simpl. by rewrite !app_assoc. Qed.

Lemma linksAdded_refl (rg : reqGraph) : linksAdded (fun _ => []) (fun _ => []) rg rg.
Proof. intros x. destruct (rg !! x); simpl; [|done]. by rewrite addLinks_nil. Qed.

Lemma linksAdded_trans (P1 C1 P2 C2 : string -> list string) (rg1 rg2 rg3 : reqGraph) :
  linksAdded P1 C1 rg1 rg2 -> linksAdded P2 C2 rg2 rg3 ->
  linksAdded (fun x => P1 x ++ P2 x) (fun x => C1 x ++ C2 x) rg1 rg3.
Proof.
  intros H1 H2 x. rewrite H2, H1. destruct (rg1 !! x); simpl; [|done].
  by rewrite addLinks_addLinks.
Qed.

Lemma linksAdded_ext (P C P' C' : string -> list string) (rg rg' : reqGraph) :
  (forall x, P x = P' x) -> (forall x, C x = C' x) ->
  linksAdded P C rg rg' -> linksAdded P' C' rg rg'.
Proof. intros HP HC H x. by rewrite H, HP, HC. Qed.

Lemma linksAdded_is_Some (P C : string -> list string) (rg rg' : reqGraph) (x : string) :
  linksAdded P C rg rg' -> is_Some (rg' !! x) <-> is_Some (rg !! x).
Proof. intros H. rewrite H. apply fmap_is_Some. Qed.

Lemma parentErrors_linksAdded (P C : string -> list string) (rg rg' : reqGraph)
    (req : Req) (ps cs : list string) (pid : string) :
  linksAdded P C rg rg' ->
  parentErrors rg' (addLinks ps cs req) pid = parentErrors rg req pid.
Proof.
  intros H. unfold parentErrors. rewrite H. by destruct (rg !! pid).
Qed.

Lemma nodeErrors_linksAdded (P C : string -> list string) (rg rg' : reqGraph) (k : string) :
  linksAdded P C rg rg' -> nodeErrors rg' k = nodeErrors rg k.
Proof.
  intros H. unfold nodeErrors. rewrite H. destruct (rg !! k) as [req|]; simpl; [|done].
  f_equal. apply flat_map_ext. intros pid.
  apply (parentErrors_linksAdded P C), H.
Qed.

Lemma stepP_linksAdded (P C : string -> list string) (rg rg' : reqGraph) (k pid x : string) :
  linksAdded P C rg rg' -> stepP rg' k pid x = stepP rg k pid x.
Proof. intros H. unfold stepP. rewrite H. by destruct (rg !! pid). Qed.

Lemma linkParent_step (k : string) (rg : reqGraph) (e pid : string) (req : Req) :
  rg !! k = Some req ->
  exists rg',
    linkParent k (rg, e) pid = (rg', e +:+ joinErrors (parentErrors rg req pid)) /\
    linksAdded (stepP rg k pid) (stepC k pid) rg rg'.
Proof.
  intros Hk. unfold linkParent, parentErrors, stepP. rewrite Hk.
  destruct (rg !! pid) as [parent|] eqn:Hp.
  - eexists. split.
    + f_equal. destruct (IsDeleted parent && negb (IsDeleted req)); simpl.
      * by rewrite append_nil_r.
      * by rewrite append_nil_r.
    + intros x. unfold stepC.
      destruct (decide (x = k)) as [->|Hkx]; destruct (decide (k = pid)) as [->|Hpx];
        try destruct (decide (x = pid)) as [->|Hxp].
      * rewrite lookup_alter_eq, lookup_insert_eq. rewrite Hk in Hp.
        inversion Hp; subst. rewrite Hk. done.
      * rewrite lookup_alter_eq, lookup_insert_ne, Hk by done. simpl.
        unfold addLinks. by rewrite app_nil_r.
      * rewrite lookup_alter_ne, lookup_insert_eq, Hp by done. simpl.
        unfold addLinks. simpl. by rewrite app_nil_r.
      * rewrite lookup_alter_ne, lookup_insert_ne by done.
        destruct (rg !! x); simpl; [|done]. by rewrite addLinks_nil.
      * rewrite lookup_alter_ne, lookup_insert_eq, Hp by done. simpl.
        unfold addLinks. simpl. by rewrite app_nil_r.
      * rewrite lookup_alter_ne, lookup_insert_ne by done.
        destruct (rg !! x); simpl; [|done]. by rewrite addLinks_nil.
  - exists rg. split.
    + simpl. by rewrite append_nil_r.
    + intros x. unfold stepC. destruct (decide (x = k)) as [->|Hkx].
      * rewrite Hk. simpl. destruct (decide (k = pid)) as [->|]; [congruence|].
        by rewrite addLinks_nil.
      * destruct (decide (x = pid)) as [->|].
        -- by rewrite Hp.
        -- destruct (rg !! x); simpl; [|done]. by rewrite addLinks_nil.
Qed.

Lemma linkParents_fold (k : string) (pids : list string) (rg : reqGraph) (e : string)
    (req : Req) :
  rg !! k = Some req ->
  exists rg',
    fold_left (linkParent k) pids (rg, e)
      = (rg', e +:+ joinErrors (flat_map (parentErrors rg req) pids)) /\
    linksAdded (fun x => flat_map (fun pid => stepP rg k pid x) pids)
               (fun x => flat_map (fun pid => stepC k pid x) pids) rg rg'.
Proof.
  revert rg e req. induction pids as [|pid pids IH]; intros rg e req Hk.
  - exists rg. simpl. rewrite append_nil_r. split; [done|]. apply linksAdded_refl.
  - destruct (linkParent_step k rg e pid req Hk) as (rg1 & Hstep & H1).
    assert (Hk1 : rg1 !! k = Some (addLinks (stepP rg k pid k) (stepC k pid k) req)).
    { by rewrite H1, Hk. }
    destruct (IH rg1 (e +:+ joinErrors (parentErrors rg req pid)) _ Hk1)
      as (rg2 & Hfold & H2).
    exists rg2. split.
    + change (fold_left (linkParent k) (pid :: pids) (rg, e))
        with (fold_left (linkParent k) pids (linkParent k (rg, e) pid)).
      rewrite Hstep, Hfold. f_equal. cbn [flat_map].
      rewrite joinErrors_app, append_assoc. do 3 f_equal.
      apply flat_map_ext. intros p. apply (parentErrors_linksAdded _ _ _ _ _ _ _ _ H1).
    + simpl. eapply linksAdded_ext; [| |exact (linksAdded_trans _ _ _ _ _ _ _ H1 H2)].
      * intros x. simpl. f_equal. apply flat_map_ext. intros p.
        apply (stepP_linksAdded _ _ _ _ _ _ _ H1).
      * done.
Qed.

Lemma nodeP_linksAdded (P C : string -> list string) (rg rg' : reqGraph) (x k : string) :
  linksAdded P C rg rg' -> nodeP rg' x k = nodeP rg x k.
Proof.
  intros H. unfold nodeP. rewrite H. destruct (rg !! k); simpl; [|done].
  apply flat_map_ext. intros p. apply (stepP_linksAdded _ _ _ _ _ _ _ H).
Qed.

Lemma nodeC_linksAdded (P C : string -> list string) (rg rg' : reqGraph) (x k : string) :
  linksAdded P C rg rg' -> nodeC rg' x k = nodeC rg x k.
Proof. intros H. unfold nodeC. rewrite H. by destruct (rg !! k). Qed.

Lemma linkReq_step (k : string) (rg : reqGraph) (e : string) :
  exists rg',
    linkReq (rg, e) k = (rg', e +:+ joinErrors (nodeErrors rg k)) /\
    linksAdded (fun x => nodeP rg x k) (fun x => nodeC rg x k) rg rg'.
Proof.
  unfold linkReq, nodeErrors, nodeP, nodeC. destruct (rg !! k) as [req|] eqn:Hk.
  - destruct (linkParents_fold k (ParentIds req) rg
                (if bool_decide (length (ParentIds req) = 0%nat) &&
                    bool_decide (Level req ≠ SYSTEM)
                 then e +:+ errNoParents req else e) req Hk) as (rg' & Hfold & H).
    exists rg'. split; [|done]. rewrite Hfold. f_equal.
    rewrite joinErrors_app.
    destruct (bool_decide _ && bool_decide _); simpl.
    + by rewrite append_nil_r, append_assoc.
    + done.
  - exists rg. simpl. rewrite append_nil_r. split; [done|]. apply linksAdded_refl.
Qed.

Lemma link_fold (order : list string) (rg : reqGraph) (e : string) :
  exists rg',
    fold_left linkReq order (rg, e) = (rg', e +:+ joinErrors (linkErrors order rg)) /\
    linksAdded (fun x => flat_map (nodeP rg x) order)
               (fun x => flat_map (nodeC rg x) order) rg rg'.
Proof.
  revert rg e. induction order as [|k order IH]; intros rg e.
  - exists rg. simpl. rewrite append_nil_r. split; [done|]. apply linksAdded_refl.
  - destruct (linkReq_step k rg e) as (rg1 & Hstep & H1).
    destruct (IH rg1 (e +:+ joinErrors (nodeErrors rg k))) as (rg2 & Hfold & H2).
    exists rg2. split.
    + change (fold_left linkReq (k :: order) (rg, e))
        with (fold_left linkReq order (linkReq (rg, e) k)).
      rewrite Hstep, Hfold. f_equal. unfold linkErrors. cbn [flat_map].
      rewrite joinErrors_app, append_assoc. do 3 f_equal.
      apply flat_map_ext. intros x. apply (nodeErrors_linksAdded _ _ _ _ _ H1).
    + simpl. eapply linksAdded_ext; [| |exact (linksAdded_trans _ _ _ _ _ _ _ H1 H2)].
      * intros x. simpl. f_equal. apply flat_map_ext. intros p.
        apply (nodeP_linksAdded _ _ _ _ _ _ H1).
      * intros x. simpl. f_equal. apply flat_map_ext. intros p.
        apply (nodeC_linksAdded _ _ _ _ _ _ H1).
Qed.

Lemma elem_of_flat_map {A B} (f : A -> list B) (l : list A) (y : B) :
  y ∈ flat_map f l <-> exists x, x ∈ l /\ y ∈ f x.
Proof.
  rewrite list_elem_of_In, in_flat_map. split.
  - intros (x & Hx & Hy). exists x. by rewrite !list_elem_of_In.
  - intros (x & Hx & Hy). exists x. by rewrite <- !list_elem_of_In.
Qed.

Lemma elem_of_stepP (rg : reqGraph) (k pid x p : string) :
  p ∈ stepP rg k pid x <-> x = k /\ p = pid /\ is_Some (rg !! pid).
Proof.
  unfold stepP. destruct (decide (x = k)) as [->|Hne].
  - destruct (rg !! pid) as [parent|] eqn:Hp.
    + rewrite list_elem_of_singleton. split; [intros ->; eauto|]. by intros (_ & -> & _).
    + split; [by intros ?%elem_of_nil|]. intros (_ & _ & [? [=]]).
  - split; [by intros ?%elem_of_nil|]. by intros (-> & _).
Qed.

Lemma elem_of_stepC (k pid x c : string) :
  c ∈ stepC k pid x <-> x = pid /\ c = k.
Proof.
  unfold stepC. destruct (decide (x = pid)) as [->|Hne].
  - rewrite list_elem_of_singleton. by split; [intros ->|intros [_ ->]].
  - split; [by intros ?%elem_of_nil|]. by intros [-> _].
Qed.

(** The parents that linking adds to [x] are the declared parents of [x]
    that are in the graph. *)
Lemma elem_of_linkedParents (rg : reqGraph) (order : list string) (x p : string) :
  p ∈ flat_map (nodeP rg x) order <->
  x ∈ order /\ exists req, rg !! x = Some req /\ p ∈ ParentIds req /\ is_Some (rg !! p).
Proof.
  rewrite elem_of_flat_map. unfold nodeP. split.
  - intros (k & Hk & Hp). destruct (rg !! k) as [req|] eqn:Hreq; simpl in Hp;
      [|by apply elem_of_nil in Hp].
    apply elem_of_flat_map in Hp as (pid & Hpid & Hp).
    apply elem_of_stepP in Hp as (-> & -> & Hsome). eauto.
  - intros (Hx & req & Hreq & Hp & Hsome). exists x. split; [done|].
    rewrite Hreq. simpl. apply elem_of_flat_map. exists p. split; [done|].
    by apply elem_of_stepP.
Qed.

(** The children that linking adds to [x] are the nodes that declare [x]
    as a parent. *)
Lemma elem_of_linkedChildren (rg : reqGraph) (order : list string) (x c : string) :
  c ∈ flat_map (nodeC rg x) order <->
  c ∈ order /\ exists req, rg !! c = Some req /\ x ∈ ParentIds req.
Proof.
  rewrite elem_of_flat_map. unfold nodeC. split.
  - intros (k & Hk & Hc). destruct (rg !! k) as [req|] eqn:Hreq; simpl in Hc;
      [|by apply elem_of_nil in Hc].
    apply elem_of_flat_map in Hc as (pid & Hpid & Hc).
    apply elem_of_stepC in Hc as (-> & ->). eauto.
  - intros (Hc & req & Hreq & Hx). exists c. split; [done|].
    rewrite Hreq. simpl. apply elem_of_flat_map. exists x. split; [done|].
    by apply elem_of_stepC.
Qed.

(** Every error that the design calls for is among the linking errors. *)
Lemma linkErrors_complete (order : list string) (rg : reqGraph) (k : string) (req : Req) :
  k ∈ order -> rg !! k = Some req ->
  (length (ParentIds req) = 0%nat -> Level req <> SYSTEM ->
   errNoParents req ∈ linkErrors order rg) /\
  (forall pid, pid ∈ ParentIds req -> rg !! pid = None ->
   errInvalid req pid " does not exist." ∈ linkErrors order rg) /\
  (forall pid parent, pid ∈ ParentIds req -> rg !! pid = Some parent ->
   IsDeleted parent = true -> IsDeleted req = false ->
   errInvalid req pid " is deleted." ∈ linkErrors order rg).
Proof.
  intros Hk Hreq. unfold linkErrors.
  assert (Hnode : forall e, e ∈ nodeErrors rg k -> e ∈ flat_map (nodeErrors rg) order).
  { intros e He. apply elem_of_flat_map. eauto. }
  unfold nodeErrors in Hnode. rewrite Hreq in Hnode. split_and!.
  - intros Hlen Hlvl. apply Hnode, elem_of_app. left.
    rewrite bool_decide_eq_true_2, bool_decide_eq_true_2 by done. simpl. left.
  - intros pid Hpid Hnone. apply Hnode, elem_of_app. right.
    apply elem_of_flat_map. exists pid. split; [done|].
    unfold parentErrors. rewrite Hnone. left.
  - intros pid parent Hpid Hsome Hdel Hlive. apply Hnode, elem_of_app. right.
    apply elem_of_flat_map. exists pid. split; [done|].
    unfold parentErrors. rewrite Hsome, Hdel, Hlive. left.
Qed.

Lemma errNoParents_nonempty (req : Req) : errNoParents req <> "".
Proof. done. Qed.

Lemma errInvalid_nonempty (req : Req) (pid what : string) : errInvalid req pid what <> "".
Proof. unfold errInvalid. by destruct (decide _). Qed.

Lemma linkErrors_nonempty (order : list string) (rg : reqGraph) (e : string) :
  e ∈ linkErrors order rg -> e <> "".
Proof.
  unfold linkErrors. intros (k & _ & He)%elem_of_flat_map. unfold nodeErrors in He.
  destruct (rg !! k) as [req|]; [|by apply elem_of_nil in He].
  apply elem_of_app in He as [He|He].
  - destruct (bool_decide _ && bool_decide _); [|by apply elem_of_nil in He].
    apply list_elem_of_singleton in He as ->. apply errNoParents_nonempty.
  - apply elem_of_flat_map in He as (pid & _ & He). unfold parentErrors in He.
    destruct (rg !! pid) as [parent|].
    + destruct (IsDeleted parent && negb (IsDeleted req)); [|by apply elem_of_nil in He].
      apply list_elem_of_singleton in He as ->. apply errInvalid_nonempty.
    + apply list_elem_of_singleton in He as ->. apply errInvalid_nonempty.
Qed.

Lemma joinErrors_linkErrors_empty (order : list string) (rg : reqGraph) :
  joinErrors (linkErrors order rg) = "" <-> linkErrors order rg = [].
Proof.
  split; [|by intros ->].
  intros Hjoin. destruct (linkErrors order rg) as [|e errs] eqn:Herrs; [done|].
  exfalso. apply (linkErrors_nonempty order rg e); [rewrite Herrs; left|].
  by apply append_eq_nil in Hjoin as [-> _].
Qed.

(** What the first loop of [Resolve] leaves. *)
Lemma Resolve_link (order : list string) (rg : reqGraph) :
  exists rg',
    fold_left linkReq order (rg, "") = (rg', joinErrors (linkErrors order rg)) /\
    linksAdded (fun x => flat_map (nodeP rg x) order)
               (fun x => flat_map (nodeC rg x) order) rg rg'.
Proof. apply (link_fold order rg ""). Qed.

(** With a linking error, [Resolve] returns after the first loop. *)
Lemma Resolve_with_errors (fuel : nat) (o1 o2 o3 o4 : list string) (rg : reqGraph) :
  linkErrors o1 rg <> [] ->
  exists rg',
    Resolve fuel o1 o2 o3 o4 rg =
      Some (LinkErrors (joinErrors (linkErrors o1 rg) +:+ GoStrings.nl) rg') /\
    linksAdded (fun x => flat_map (nodeP rg x) o1)
               (fun x => flat_map (nodeC rg x) o1) rg rg'.
Proof.
  intros Herrs. destruct (Resolve_link o1 rg) as (rg' & Hlink & Hadded).
  exists rg'. split; [|done]. unfold Resolve. rewrite Hlink.
  rewrite decide_True; [done|]. by rewrite joinErrors_linkErrors_empty.
Qed.

(** C5.  [Resolve] collects the errors of all the nodes it visits and of
    all their declared parents (no parent below SYSTEM level, parent not in
    the graph, parent superseded); when there is one or more, it returns
    them all, joined, and nothing but links has been written: every node
    has the [Seen] and the [Status] it had.  When there is none, it does
    not return an error. *)
Theorem Resolve_accumulates_errors (fuel : nat) (o1 o2 o3 o4 : list string) (rg : reqGraph) :
  (forall k req, k ∈ o1 -> rg !! k = Some req ->
     (length (ParentIds req) = 0%nat -> Level req <> SYSTEM ->
      errNoParents req ∈ linkErrors o1 rg) /\
     (forall pid, pid ∈ ParentIds req -> rg !! pid = None ->
      errInvalid req pid " does not exist." ∈ linkErrors o1 rg) /\
     (forall pid parent, pid ∈ ParentIds req -> rg !! pid = Some parent ->
      IsDeleted parent = true -> IsDeleted req = false ->
      errInvalid req pid " is deleted." ∈ linkErrors o1 rg)) /\
  (linkErrors o1 rg <> [] ->
   exists rg',
     Resolve fuel o1 o2 o3 o4 rg =
       Some (LinkErrors (joinErrors (linkErrors o1 rg) +:+ GoStrings.nl) rg') /\
     forall k, Seen <$> rg' !! k = Seen <$> rg !! k /\
               Status <$> rg' !! k = Status <$> rg !! k) /\
  (linkErrors o1 rg = [] ->
   forall e rg', Resolve fuel o1 o2 o3 o4 rg <> Some (LinkErrors e rg')).
Proof.
  split_and!.
  - intros k req. apply linkErrors_complete.
  - intros Herrs.
    destruct (Resolve_with_errors fuel o1 o2 o3 o4 rg Herrs) as (rg' & Hres & Hadded).
    exists rg'. split; [done|].
    intros k. rewrite Hadded. by destruct (rg !! k).
  - intros Herrs e rg'. destruct (Resolve_link o1 rg) as (rg1 & Hlink & Hadded).
    unfold Resolve. rewrite Hlink, Herrs. simpl.
    destruct (downPass fuel o2 rg1) as [rg2|]; simpl; [|done].
    unfold upPass. generalize (sortPass o3 rg2). intros h.
    assert (Hfold : forall acc, (forall e0 h0, acc <> Some (LinkErrors e0 h0)) ->
              fold_left (upReq fuel) o4 acc <> Some (LinkErrors e rg')).
    { induction o4 as [|k o4 IH]; intros acc Hacc; simpl; [done|].
      apply IH. intros e0 h0. unfold upReq.
      destruct acc as [[h1| |]|]; try done.
      destruct (h1 !! k) as [req|]; [|done].
      destruct (decide (Level req = CODE)); [|done].
      destruct (resolveUp fuel h1 k) as [h2|]; simpl; [|done].
      destruct (h2 !! k) as [req1|]; [|done].
      by destruct (Parents req1). }
    by apply Hfold.
Qed.

(** C4, as stated, fails: the reference of a live node to a superseded
    parent is reported, and the edge is appended all the same. *)
Lemma superseded_parent_is_linked :
  exists rg',
    Resolve 0 SupersededScenario.order SupersededScenario.order
              SupersededScenario.order SupersededScenario.order
              SupersededScenario.graph =
      Some (LinkErrors
              ("Invalid parent of requirement REQ-0-DDLN-SWH-001: REQ-0-DDLN-SYS-001 is deleted."
                 +:+ GoStrings.nl +:+ GoStrings.nl) rg') /\
    Children <$> rg' !! "REQ-0-DDLN-SYS-001" = Some ["REQ-0-DDLN-SWH-001"] /\
    Parents <$> rg' !! "REQ-0-DDLN-SWH-001" = Some ["REQ-0-DDLN-SYS-001"].
Proof. eexists. split; [vm_compute; reflexivity|]. vm_compute. done. Qed.

(** C4, amended.  When a node that is not superseded declares a parent
    that is, [Resolve] returns the linking errors, among them the one for
    this reference, worded for a CODE node or for a requirement; and, as
    for every declared parent that is in the graph, the node is among the
    children of the parent and the parent among the parents of the node. *)
Theorem Resolve_superseded_parent (fuel : nat) (o1 o2 o3 o4 : list string)
    (rg : reqGraph) (k pid : string) (req parent : Req) :
  k ∈ o1 -> rg !! k = Some req -> pid ∈ ParentIds req -> rg !! pid = Some parent ->
  IsDeleted parent = true -> IsDeleted req = false ->
  exists rg',
    Resolve fuel o1 o2 o3 o4 rg =
      Some (LinkErrors (joinErrors (linkErrors o1 rg) +:+ GoStrings.nl) rg') /\
    errInvalid req pid " is deleted." ∈ linkErrors o1 rg /\
    errInvalid req pid " is deleted." =
      (if decide (Level req = CODE)
       then "Invalid reference in file " +:+ Path req +:+ ": " +:+ pid +:+ " is deleted."
              +:+ GoStrings.nl
       else "Invalid parent of requirement " +:+ ID req +:+ ": " +:+ pid +:+ " is deleted."
              +:+ GoStrings.nl) /\
    (exists req', rg' !! k = Some req' /\ pid ∈ Parents req') /\
    (exists parent', rg' !! pid = Some parent' /\ k ∈ Children parent').
Proof.
  intros Hk Hreq Hpid Hparent Hdel Hlive.
  destruct (linkErrors_complete o1 rg k req Hk Hreq) as (_ & _ & Herr).
  specialize (Herr pid parent Hpid Hparent Hdel Hlive).
  destruct (Resolve_link o1 rg) as (rg' & Hlink & Hadded).
  exists rg'. split_and!.
  - unfold Resolve. rewrite Hlink. rewrite decide_True; [done|].
    rewrite joinErrors_linkErrors_empty. intros Hnil. rewrite Hnil in Herr.
    by apply elem_of_nil in Herr.
  - done.
  - unfold errInvalid. destruct (decide (Level req = CODE)) as [Hc|Hc].
    + by rewrite decide_False by (by intros ?).
    + by rewrite decide_True.
  - eexists. rewrite Hadded, Hreq. split; [done|]. simpl.
    apply elem_of_app. right. apply elem_of_linkedParents. eauto 10.
  - eexists. rewrite Hadded, Hparent. split; [done|]. simpl.
    apply elem_of_app. right. apply elem_of_linkedChildren. eauto.
Qed.

Lemma Resolve_superseded_parent_witness :
  exists rg',
    Resolve 0 SupersededScenario.order [] [] [] SupersededScenario.graph =
      Some (LinkErrors
              (joinErrors (linkErrors SupersededScenario.order SupersededScenario.graph)
                 +:+ GoStrings.nl) rg') /\
    (exists req', rg' !! "REQ-0-DDLN-SWH-001" = Some req' /\
                  "REQ-0-DDLN-SYS-001" ∈ Parents req') /\
    (exists parent', rg' !! "REQ-0-DDLN-SYS-001" = Some parent' /\
                     "REQ-0-DDLN-SWH-001" ∈ Children parent').
Proof.
  destruct (Resolve_superseded_parent 0 SupersededScenario.order [] [] []
              SupersededScenario.graph "REQ-0-DDLN-SWH-001" "REQ-0-DDLN-SYS-001"
              SupersededScenario.live SupersededScenario.old)
    as (rg' & Hres & _ & _ & Hp & Hc).
  - right. left.
  - vm_compute. reflexivity.
  - left.
  - vm_compute. reflexivity.
  - vm_compute. reflexivity.
  - vm_compute. reflexivity.
  - exists rg'. by split_and!.
Defined.

(** ** Status propagation: the shape of a graph *)

Lemma sameGraph_refl (g : reqGraph) : sameGraph g g.
Proof. intros x. unfold sameNode. by destruct (g !! x). Qed.

Lemma sameGraph_sym (g h : reqGraph) : sameGraph g h -> sameGraph h g.
Proof.
  intros H x. specialize (H x). unfold sameNode in *.
  destruct (g !! x), (h !! x); try done. by destruct H as (-> & -> & ->).
Qed.

Lemma sameGraph_trans (g h i : reqGraph) : sameGraph g h -> sameGraph h i -> sameGraph g i.
Proof.
  intros H1 H2 x. specialize (H1 x). specialize (H2 x). unfold sameNode in *.
  destruct (g !! x), (h !! x), (i !! x); try done.
  destruct H1 as (-> & -> & ->), H2 as (-> & -> & ->). done.
Qed.

Lemma sameGraph_children (g h : reqGraph) (x c : string) :
  sameGraph g h -> c ∈ childrenOf g x <-> c ∈ childrenOf h x.
Proof.
  intros H. specialize (H x). unfold childrenOf, sameNode in *.
  destruct (g !! x), (h !! x); try done. simpl. destruct H as (_ & -> & _). done.
Qed.

Lemma sameGraph_parents (g h : reqGraph) (x p : string) :
  sameGraph g h -> p ∈ parentsOf g x <-> p ∈ parentsOf h x.
Proof.
  intros H. specialize (H x). unfold parentsOf, sameNode in *.
  destruct (g !! x), (h !! x); try done. simpl. destruct H as (_ & _ & ->). done.
Qed.

Lemma sameGraph_reachDown (g h : reqGraph) (a b : string) :
  sameGraph g h -> reachDown g a b -> reachDown h a b.
Proof.
  intros H. unfold reachDown. induction 1 as [|a c b Hac _ IH]; [constructor|].
  econstructor; [|exact IH]. by apply (sameGraph_children g h).
Qed.

Lemma sameGraph_reachUp (g h : reqGraph) (a b : string) :
  sameGraph g h -> reachUp g a b -> reachUp h a b.
Proof.
  intros H. unfold reachUp. induction 1 as [|a c b Hac _ IH]; [constructor|].
  econstructor; [|exact IH]. by apply (sameGraph_parents g h).
Qed.

Lemma marksOnly_refl (h : reqGraph) : marksOnly h h.
Proof. done. Qed.

Lemma marksOnly_trans (h1 h2 h3 : reqGraph) :
  marksOnly h1 h2 -> marksOnly h2 h3 -> marksOnly h1 h3.
Proof. intros H1 H2 x. by rewrite H2, H1. Qed.

Lemma marksOnly_insert (h : reqGraph) (k : string) (r r' : Req) :
  h !! k = Some r -> eraseMarks r' = eraseMarks r -> marksOnly h (<[k := r']> h).
Proof.
  intros Hk Hr x. destruct (decide (k = x)) as [<-|Hne].
  - rewrite lookup_insert_eq, Hk. simpl. by rewrite Hr.
  - by rewrite lookup_insert_ne.
Qed.

Lemma marksOnly_assignStatus (h : reqGraph) (k : string) (s : RequirementStatus) :
  marksOnly h (assignStatus k s h).
Proof.
  intros x. unfold assignStatus. destruct (decide (k = x)) as [<-|Hne].
  - rewrite lookup_alter_eq. by destruct (h !! k).
  - by rewrite lookup_alter_ne.
Qed.

Lemma marksOnly_lookup (h h' : reqGraph) (x : string) (r' : Req) :
  marksOnly h h' -> h' !! x = Some r' ->
  exists r, h !! x = Some r /\ eraseMarks r' = eraseMarks r.
Proof.
  intros H Hx. specialize (H x). rewrite Hx in H. destruct (h !! x) as [r|]; [|done].
  exists r. split; [done|]. simpl in H. congruence.
Qed.

Lemma marksOnly_sameGraph (h h' : reqGraph) : marksOnly h h' -> sameGraph h h'.
Proof.
  intros H x. specialize (H x). unfold sameNode.
  destruct (h !! x) as [r|], (h' !! x) as [r'|]; try done.
  simpl in H. assert (He : eraseMarks r' = eraseMarks r) by congruence.
  split_and!.
  - by apply (f_equal Level) in He.
  - apply (f_equal Children) in He. simpl in He. by rewrite He.
  - apply (f_equal Parents) in He. simpl in He. by rewrite He.
Qed.

(** ** Status propagation: the status as a function of the children *)

Lemma forallb_Permutation {A} (p : A -> bool) (l l' : list A) :
  l ≡ₚ l' -> forallb p l = forallb p l'.
Proof.
  induction 1 as [|x l l' _ IH|x y l|l1 l2 l3 _ IH1 _ IH2]; simpl.
  - done.
  - by rewrite IH.
  - destruct (p x), (p y); done.
  - by rewrite IH1.
Qed.

Lemma forallb_elem {A} (p : A -> bool) (l : list A) :
  forallb p l = true <-> forall x, x ∈ l -> p x = true.
Proof.
  rewrite forallb_forall. split; intros H x Hx; apply H; by apply list_elem_of_In.
Qed.

Lemma forallb_ext_elem {A} (p q : A -> bool) (l : list A) :
  (forall x, x ∈ l -> p x = q x) -> forallb p l = forallb q l.
Proof.
  induction l as [|x l IH]; simpl; [done|]. intros H.
  rewrite (H x) by left. rewrite IH; [done|]. intros y Hy. apply H. by right.
Qed.

Lemma statusOf_sameGraph (fuel : nat) (g h : reqGraph) (k : string) :
  sameGraph g h -> statusOf fuel g k = statusOf fuel h k.
Proof.
  intros H. revert k. induction fuel as [|fuel IH]; intros k; simpl; [done|].
  pose proof (H k) as Hk. unfold sameNode in Hk.
  destruct (g !! k) as [r|], (h !! k) as [r'|]; try done.
  destruct Hk as (Hl & Hc & _). rewrite Hl, (Permutation_length Hc).
  destruct (_ && _); [done|].
  rewrite (forallb_Permutation _ _ _ Hc).
  rewrite (forallb_Permutation (fun c => bool_decide (statusOf fuel g c = _)) _ _ Hc).
  rewrite (forallb_ext_elem _ (fun c => bool_decide (is_Some (statusOf fuel h c))))
    by (intros c _; by rewrite IH).
  rewrite (forallb_ext_elem (fun c => bool_decide (statusOf fuel g c = _))
             (fun c => bool_decide (statusOf fuel h c = Some COMPLETED)))
    by (intros c _; by rewrite IH).
  done.
Qed.

Lemma statusOf_S (fuel : nat) (rg : reqGraph) (k : string) (s : RequirementStatus) :
  statusOf fuel rg k = Some s -> statusOf (S fuel) rg k = Some s.
Proof.
  revert k s. induction fuel as [|fuel IH]; intros k s; [done|].
  intros H. simpl in H. change (statusOf (S (S fuel)) rg k) with
    (match rg !! k with
     | None => None
     | Some r =>
         if bool_decide (Level r ≠ CODE) && bool_decide (length (Children r) = 0%nat)
         then Some NOT_STARTED
         else if forallb (fun c => bool_decide (is_Some (statusOf (S fuel) rg c))) (Children r)
         then Some (if forallb (fun c => bool_decide (statusOf (S fuel) rg c = Some COMPLETED))
                               (Children r)
                    then COMPLETED else STARTED)
         else None
     end).
  destruct (rg !! k) as [r|]; [|done].
  destruct (_ && _); [done|].
  destruct (forallb (fun c => bool_decide (is_Some (statusOf fuel rg c))) (Children r))
    eqn:Hdef; [|done].
  assert (Hc : forall c, c ∈ Children r ->
            statusOf (S fuel) rg c = statusOf fuel rg c /\ is_Some (statusOf fuel rg c)).
  { intros c Hc. rewrite forallb_elem in Hdef. specialize (Hdef c Hc).
    apply bool_decide_eq_true in Hdef as [sc Hsc]. rewrite Hsc. split; [by apply IH|eauto]. }
  rewrite (forallb_ext_elem _ (fun c => bool_decide (is_Some (statusOf fuel rg c))))
    by (intros c Hin; by rewrite (proj1 (Hc c Hin))).
  rewrite Hdef.
  rewrite (forallb_ext_elem (fun c => bool_decide (statusOf (S fuel) rg c = _))
             (fun c => bool_decide (statusOf fuel rg c = Some COMPLETED)))
    by (intros c Hin; by rewrite (proj1 (Hc c Hin))).
  done.
Qed.

Lemma statusOf_le (f f' : nat) (rg : reqGraph) (k : string) (s : RequirementStatus) :
  (f <= f')%nat -> statusOf f rg k = Some s -> statusOf f' rg k = Some s.
Proof. induction 1 as [|f' _ IH]; [done|]. intros H. by apply statusOf_S, IH. Qed.

Lemma statusOf_agree (f f' : nat) (rg : reqGraph) (k : string) (s s' : RequirementStatus) :
  statusOf f rg k = Some s -> statusOf f' rg k = Some s' -> s = s'.
Proof.
  intros H H'. apply (statusOf_le f (f `max` f')%nat) in H; [|lia].
  apply (statusOf_le f' (f `max` f')%nat) in H'; [|lia]. congruence.
Qed.

Lemma statusOf_child (fuel : nat) (rg : reqGraph) (a c : string) :
  is_Some (statusOf (S fuel) rg a) -> c ∈ childrenOf rg a ->
  is_Some (statusOf fuel rg c).
Proof.
  unfold childrenOf. simpl. destruct (rg !! a) as [r|]; simpl; [|by intros ? ?%elem_of_nil].
  intros H Hc. destruct (bool_decide (Level r ≠ CODE) && _) eqn:Hleaf.
  - apply andb_true_iff in Hleaf as [_ Hlen]. apply bool_decide_eq_true in Hlen.
    destruct (Children r); [by apply elem_of_nil in Hc|done].
  - destruct (forallb _ (Children r)) eqn:Hdef; [|by destruct H].
    rewrite forallb_elem in Hdef. specialize (Hdef c Hc).
    by apply bool_decide_eq_true in Hdef.
Qed.

Lemma statusOf_reach (fuel : nat) (rg : reqGraph) (a b : string) :
  is_Some (statusOf fuel rg a) -> reachDown rg a b ->
  exists fuel', (fuel' <= fuel)%nat /\ is_Some (statusOf fuel' rg b).
Proof.
  intros H R. revert fuel H. induction R as [a|a c b Hac _ IH]; intros fuel H.
  - by exists fuel.
  - destruct fuel as [|fuel]; [by destruct H|].
    destruct (IH fuel (statusOf_child _ _ _ _ H Hac)) as (fuel' & Hle & Hb).
    exists fuel'. split; [lia|done].
Qed.

(** A node whose status is defined lies on no cycle of child links. *)
Lemma statusOf_no_cycle (fuel : nat) (rg : reqGraph) (k c : string) :
  is_Some (statusOf fuel rg c) -> c ∈ childrenOf rg k -> reachDown rg c k -> False.
Proof.
  induction (lt_wf fuel) as [fuel _ IH]. intros Hc Hkc R.
  destruct (statusOf_reach _ _ _ _ Hc R) as (fuel' & Hle & Hk).
  destruct fuel' as [|fuel']; [by destruct Hk|].
  apply (IH fuel'); [lia| |done..]. by apply (statusOf_child _ _ k).
Qed.

Lemma downPost_nil (g h : reqGraph) : downPost g h [] h.
Proof.
  split_and!; [done|by left|]. by intros c x ?%elem_of_nil.
Qed.

Lemma downPost_app (g h h1 h2 : reqGraph) (r1 r2 : list string) :
  downPost g h r1 h1 -> downPost g h1 r2 h2 -> downPost g h (r1 ++ r2) h2.
Proof.
  intros (Hm1 & Hf1 & Hr1) (Hm2 & Hf2 & Hr2). split_and!.
  - by apply (marksOnly_trans _ h1).
  - intros x. destruct (Hf2 x) as [Heq|[(c & Hc & R) HM]].
    + rewrite Heq. destruct (Hf1 x) as [Heq1|[(c & Hc & R) HM]]; [by left|].
      right. split; [|done]. exists c. split; [|done]. apply elem_of_app. by left.
    + right. split; [|done]. exists c. split; [|done]. apply elem_of_app. by right.
  - intros c x [Hc|Hc]%elem_of_app R.
    + destruct (Hf2 x) as [Heq|[_ HM]]; [|done]. rewrite Heq. by apply (Hr1 c).
    + by apply (Hr2 c).
Qed.

Lemma resolveDown_child_None (down : reqGraph -> string -> option (reqGraph * RequirementStatus))
    (k : string) (cs : list string) :
  fold_left (resolveDown_child down k) cs None = None.
Proof. induction cs as [|c cs IH]; simpl; done. Qed.

Lemma resolveDown_S (fuel : nat) (rg : reqGraph) (k : string) :
  resolveDown (S fuel) rg k =
  match rg !! k with
  | None => None
  | Some r =>
      let rg1 := <[k := set_Status COMPLETED (set_Seen true r)]> rg in
      let rg2 :=
        if bool_decide (Level r ≠ CODE) && bool_decide (length (Children r) = 0%nat)
        then Some (assignStatus k NOT_STARTED rg1)
        else fold_left (resolveDown_child (resolveDown fuel) k) (Children r) (Some rg1) in
      rg2 ≫= fun h => (fun r' => (h, Status r')) <$> h !! k
  end.
Proof. done. Qed.

(** The loop of [resolveDown] over the children of [k], given what the
    nested calls do. *)
Lemma resolveDown_loop (fuel : nat) (g : reqGraph) (k : string) :
  (forall h c h' st, sameGraph g h -> resolveDown fuel h c = Some (h', st) ->
     statusOf fuel g c = Some st /\ downPost g h [c] h') ->
  forall cs hi hf rk,
    (forall c, c ∈ cs -> c ∈ childrenOf g k) ->
    sameGraph g hi -> hi !! k = Some rk -> Seen rk = true ->
    fold_left (resolveDown_child (resolveDown fuel) k) cs (Some hi) = Some hf ->
    marksOnly hi hf /\
    (forall c, c ∈ cs -> is_Some (statusOf fuel g c)) /\
    (exists rk', hf !! k = Some rk' /\ Seen rk' = true /\
       Status rk' =
         if forallb (fun c => bool_decide (statusOf fuel g c = Some COMPLETED)) cs
         then Status rk else STARTED) /\
    (forall x, x ≠ k ->
       hf !! x = hi !! x \/
       ((exists c, c ∈ cs /\ reachDown g c x) /\ Marked g x (hf !! x))) /\
    (forall c x, c ∈ cs -> reachDown g c x -> Marked g x (hf !! x)).
Proof.
  intros IHf. induction cs as [|c cs IH]; intros hi hf rk Hcs Hg Hk Hseen Hfold.
  - simpl in Hfold. inversion Hfold; subst. split_and!.
    + done.
    + by intros c ?%elem_of_nil.
    + by exists rk.
    + intros x _. by left.
    + by intros c x ?%elem_of_nil.
  - change (fold_left (resolveDown_child (resolveDown fuel) k) (c :: cs) (Some hi))
      with (fold_left (resolveDown_child (resolveDown fuel) k) cs
              (resolveDown_child (resolveDown fuel) k (Some hi) c)) in Hfold.
    unfold resolveDown_child at 2 in Hfold. simpl in Hfold.
    destruct (resolveDown fuel hi c) as [[h' stc]|] eqn:Hc; simpl in Hfold;
      [|by rewrite resolveDown_child_None in Hfold].
    destruct (IHf _ _ _ _ Hg Hc) as (Hstc & Hm & Hfr & Hrm).
    assert (Hck : c ∈ childrenOf g k) by (apply Hcs; left).
    assert (Hnock : forall c0, c0 ∈ c :: cs -> is_Some (statusOf fuel g c0) ->
              ~ reachDown g c0 k).
    { intros c0 Hc0 Hs R. apply (statusOf_no_cycle fuel g k c0); [done| |done].
      by apply Hcs. }
    assert (Hk' : h' !! k = Some rk).
    { destruct (Hfr k) as [->|[(c0 & ->%list_elem_of_singleton & R) _]]; [done|].
      exfalso. apply (Hnock c); [left|by rewrite Hstc|done]. }
    set (h'' := if decide (stc ≠ COMPLETED) then assignStatus k STARTED h' else h') in *.
    set (rk'' := if decide (stc ≠ COMPLETED) then set_Status STARTED rk else rk).
    assert (Hk'' : h'' !! k = Some rk'').
    { unfold h'', rk''. destruct (decide (stc ≠ COMPLETED)); [|done].
      unfold assignStatus. by rewrite lookup_alter_eq, Hk'. }
    assert (Hne : forall x, x ≠ k -> h'' !! x = h' !! x).
    { intros x Hx. unfold h''. destruct (decide (stc ≠ COMPLETED)); [|done].
      unfold assignStatus. by rewrite lookup_alter_ne. }
    assert (Hm'' : marksOnly h' h'').
    { unfold h''. destruct (decide (stc ≠ COMPLETED)); [|done].
      apply marksOnly_assignStatus. }
    assert (Hg'' : sameGraph g h'').
    { apply (sameGraph_trans _ hi); [done|]. apply marksOnly_sameGraph.
      by apply (marksOnly_trans _ h'). }
    assert (Hseen'' : Seen rk'' = true).
    { unfold rk''. by destruct (decide (stc ≠ COMPLETED)). }
    destruct (IH h'' hf rk'' (fun c0 H0 => Hcs c0 (list_elem_of_further _ _ _ H0))
                Hg'' Hk'' Hseen'' Hfold)
      as (Hmf & Hdef & (rkf & Hkf & Hseenf & Hstf) & Hfrf & Hrmf).
    split_and!.
    + apply (marksOnly_trans _ h'); [done|]. by apply (marksOnly_trans _ h'').
    + intros c0 [->|H0]%elem_of_cons; [by rewrite Hstc|by apply Hdef].
    + exists rkf. split_and!; [done..|]. rewrite Hstf. simpl. rewrite Hstc.
      unfold rk''. destruct (decide (stc ≠ COMPLETED)) as [Hn|Hn].
      * rewrite bool_decide_eq_false_2 by congruence. simpl.
        by destruct (forallb _ cs).
      * apply dec_stable in Hn. subst stc. by rewrite bool_decide_eq_true_2.
    + intros x Hx. destruct (Hfrf x Hx) as [Heq|[(c0 & H0 & R) HM]].
      * rewrite Heq, (Hne x Hx).
        destruct (Hfr x) as [Heq'|[(c0 & ->%list_elem_of_singleton & R) HM]]; [by left|].
        right. split; [|done]. exists c. split; [left|done].
      * right. split; [|done]. exists c0. split; [by right|done].
    + intros c0 x [->|H0]%elem_of_cons R; [|by apply (Hrmf c0)].
      assert (Hx : x ≠ k).
      { intros ->. apply (Hnock c); [left|by rewrite Hstc|done]. }
      destruct (Hfrf x Hx) as [Heq|[_ HM]]; [|done].
      rewrite Heq, (Hne x Hx). apply (Hrm c); [by apply list_elem_of_singleton|done].
Qed.

Lemma statusOf_unfold (fuel : nat) (rg : reqGraph) (k : string) :
  statusOf (S fuel) rg k =
  match rg !! k with
  | None => None
  | Some r =>
      if bool_decide (Level r ≠ CODE) && bool_decide (length (Children r) = 0%nat)
      then Some NOT_STARTED
      else if forallb (fun c => bool_decide (is_Some (statusOf fuel rg c))) (Children r)
      then Some (if forallb (fun c => bool_decide (statusOf fuel rg c = Some COMPLETED))
                            (Children r)
                 then COMPLETED else STARTED)
      else None
  end.
Proof. done. Qed.

Lemma reachDown_inv (rg : reqGraph) (k x : string) :
  reachDown rg k x -> x = k \/ exists c, c ∈ childrenOf rg k /\ reachDown rg c x.
Proof. destruct 1 as [|k c x Hc R]; [by left|]. right. eauto. Qed.

(** What a call of [resolveDown] that returns has done. *)
Lemma resolveDown_post (fuel : nat) (g : reqGraph) :
  forall h k h' st,
    sameGraph g h -> resolveDown fuel h k = Some (h', st) ->
    statusOf fuel g k = Some st /\ downPost g h [k] h' /\
    Status <$> h' !! k = Some st.
Proof.
  induction fuel as [|fuel IHf]; intros h k h' st Hg Hres; [done|].
  rewrite resolveDown_S in Hres. rewrite statusOf_unfold.
  pose proof (Hg k) as Hgk. unfold sameNode in Hgk.
  destruct (h !! k) as [r|] eqn:Hk; [|done].
  destruct (g !! k) as [rg|] eqn:Hgk'; [|done].
  destruct Hgk as (Hlvl & Hch & _).
  rewrite Hlvl, (Permutation_length Hch).
  set (r1 := set_Status COMPLETED (set_Seen true r)) in *.
  set (h1 := <[k := r1]> h) in *. cbv zeta in Hres.
  assert (Hm1 : marksOnly h h1) by (by apply (marksOnly_insert h k r r1)).
  assert (Hk1 : h1 !! k = Some r1) by apply lookup_insert_eq.
  assert (Hne1 : forall x, x ≠ k -> h1 !! x = h !! x).
  { intros x Hx. unfold h1. by rewrite lookup_insert_ne. }
  assert (Hchildren : forall c, c ∈ Children r <-> c ∈ childrenOf g k).
  { intros c. unfold childrenOf. rewrite Hgk'. simpl. by rewrite Hch. }
  destruct (bool_decide (Level r ≠ CODE) && bool_decide (length (Children r) = 0%nat))
    eqn:Hleaf.
  - simpl in Hres. unfold assignStatus in Hres. rewrite lookup_alter_eq, Hk1 in Hres.
    simpl in Hres. inversion Hres; subst h' st. clear Hres.
    assert (Hnil : childrenOf g k = []).
    { apply andb_true_iff in Hleaf as [_ Hlen]. apply bool_decide_eq_true in Hlen.
      unfold childrenOf. rewrite Hgk'. simpl.
      apply Permutation_length in Hch. rewrite Hlen in Hch.
      by destruct (Children rg). }
    assert (HM : Marked g k (alter (set_Status NOT_STARTED) k h1 !! k)).
    { rewrite lookup_alter_eq, Hk1. eexists. split; [done|]. split; [done|].
      exists (S fuel). rewrite statusOf_unfold, Hgk', Hlvl, (Permutation_length Hch), Hleaf.
      done. }
    split_and!.
    + done.
    + split_and!.
      * apply (marksOnly_trans _ h1); [done|]. apply marksOnly_assignStatus.
      * intros x. destruct (decide (x = k)) as [->|Hx].
        -- right. split; [|done]. exists k. split; [left|constructor].
        -- left. rewrite lookup_alter_ne by done. by apply Hne1.
      * intros c x ->%list_elem_of_singleton R.
        apply reachDown_inv in R as [->|(c & Hc & _)]; [done|].
        rewrite Hnil in Hc. by apply elem_of_nil in Hc.
    + by rewrite lookup_alter_eq, Hk1.
  - destruct (fold_left _ (Children r) (Some h1)) as [hf|] eqn:Hfold; [|done].
    simpl in Hres.
    destruct (resolveDown_loop fuel g k
                (fun h0 c h0' st0 H1 H2 =>
                   conj (proj1 (IHf h0 c h0' st0 H1 H2))
                        (proj1 (proj2 (IHf h0 c h0' st0 H1 H2))))
                (Children r) h1 hf r1
                (fun c Hc => proj1 (Hchildren c) Hc)
                (sameGraph_trans _ _ _ Hg (marksOnly_sameGraph _ _ Hm1))
                Hk1 eq_refl Hfold)
      as (Hmf & Hdef & (rkf & Hkf & Hseenf & Hstf) & Hfrf & Hrmf).
    rewrite Hkf in Hres. simpl in Hres. inversion Hres; subst h' st. clear Hres.
    assert (Hst : (if forallb (fun c => bool_decide (is_Some (statusOf fuel g c)))
                         (Children rg)
                   then Some (if forallb (fun c => bool_decide
                                            (statusOf fuel g c = Some COMPLETED))
                                         (Children rg)
                              then COMPLETED else STARTED)
                   else None) = Some (Status rkf)).
    { rewrite (forallb_Permutation (fun c => bool_decide (is_Some (statusOf fuel g c)))
                 _ _ Hch).
      rewrite (forallb_Permutation
                 (fun c => bool_decide (statusOf fuel g c = Some COMPLETED)) _ _ Hch).
      replace (forallb (fun c => bool_decide (is_Some (statusOf fuel g c))) (Children r))
        with true.
      - by rewrite Hstf.
      - symmetry. apply forallb_elem. intros c Hc. by apply bool_decide_eq_true, Hdef. }
    assert (HM : Marked g k (hf !! k)).
    { rewrite Hkf. eexists. split; [done|]. split; [done|].
      exists (S fuel). rewrite statusOf_unfold, Hgk', Hlvl, (Permutation_length Hch), Hleaf.
      done. }
    split_and!.
    + done.
    + split_and!.
      * by apply (marksOnly_trans _ h1).
      * intros x. destruct (decide (x = k)) as [->|Hx].
        -- right. split; [|done]. exists k. split; [left|constructor].
        -- destruct (Hfrf x Hx) as [Heq|[(c & Hc & R) HMx]].
           ++ left. by rewrite Heq, Hne1.
           ++ right. split; [|done]. exists k. split; [left|].
              eapply rtc_l; [|exact R]. by apply Hchildren.
      * intros c x ->%list_elem_of_singleton R.
        apply reachDown_inv in R as [->|(c & Hc & R)]; [done|].
        apply (Hrmf c); [by apply Hchildren|done].
    + by rewrite Hkf.
Qed.

Lemma sameGraph_assignStatus (g h : reqGraph) (k : string) (s : RequirementStatus) :
  sameGraph g h -> sameGraph g (assignStatus k s h).
Proof.
  intros H. apply (sameGraph_trans _ h); [done|].
  apply marksOnly_sameGraph, marksOnly_assignStatus.
Qed.

Lemma sameGraph_is_Some (g h : reqGraph) (x : string) :
  sameGraph g h -> is_Some (g !! x) -> is_Some (h !! x).
Proof.
  intros H [r Hr]. specialize (H x). unfold sameNode in H. rewrite Hr in H.
  destruct (h !! x); [eauto|done].
Qed.

(** [resolveDown] returns whenever the status is defined within the fuel. *)
Lemma resolveDown_total (fuel : nat) (g : reqGraph) :
  forall h k st,
    sameGraph g h -> statusOf fuel g k = Some st ->
    exists h', resolveDown fuel h k = Some (h', st).
Proof.
  induction fuel as [|fuel IHf]; intros h k st Hg Hst; [done|].
  assert (Hsome : is_Some (resolveDown (S fuel) h k)).
  { rewrite resolveDown_S. pose proof Hst as Hst'. rewrite statusOf_unfold in Hst'.
    pose proof (Hg k) as Hgk. unfold sameNode in Hgk.
    destruct (g !! k) as [rg|] eqn:Hgk'; [|done].
    destruct (h !! k) as [r|] eqn:Hk; [|done].
    destruct Hgk as (Hlvl & Hch & _).
    rewrite Hlvl, (Permutation_length Hch) in Hst'.
    set (h1 := <[k := set_Status COMPLETED (set_Seen true r)]> h). cbv zeta.
    assert (Hg1 : sameGraph g h1).
    { apply (sameGraph_trans _ h); [done|].
      by apply marksOnly_sameGraph, (marksOnly_insert h k r). }
    destruct (bool_decide (Level r ≠ CODE) && bool_decide (length (Children r) = 0%nat)).
    - simpl. unfold assignStatus. rewrite lookup_alter_eq. unfold h1.
      rewrite lookup_insert_eq. simpl. eauto.
    - destruct (forallb (fun c => bool_decide (is_Some (statusOf fuel g c))) (Children rg))
        eqn:Hdef; [|done].
      rewrite (forallb_Permutation _ _ _ Hch), forallb_elem in Hdef.
      assert (Hloop : forall cs hi,
                (forall c, c ∈ cs -> c ∈ Children r) -> sameGraph g hi ->
                exists hf, fold_left (resolveDown_child (resolveDown fuel) k) cs (Some hi)
                           = Some hf /\ sameGraph g hf).
      { induction cs as [|c cs IH]; intros hi Hcs Hgi; [by exists hi|].
        assert (Hc : is_Some (statusOf fuel g c)).
        { apply (bool_decide_eq_true_1 _), Hdef, Hcs. left. }
        destruct Hc as [stc Hstc].
        destruct (IHf hi c stc Hgi Hstc) as (h' & Hres).
        destruct (resolveDown_post fuel g _ _ _ _ Hgi Hres) as (_ & (Hm & _) & _).
        destruct (IH (if decide (stc ≠ COMPLETED) then assignStatus k STARTED h' else h'))
          as (hf & Hfold & Hgf).
        - intros c0 H0. apply Hcs. by right.
        - assert (Hg' : sameGraph g h').
          { apply (sameGraph_trans _ hi); [done|]. by apply marksOnly_sameGraph. }
          destruct (decide (stc ≠ COMPLETED)); [|done]. by apply sameGraph_assignStatus.
        - exists hf. split; [|done].
          change (fold_left (resolveDown_child (resolveDown fuel) k) (c :: cs) (Some hi))
            with (fold_left (resolveDown_child (resolveDown fuel) k) cs
                    (resolveDown_child (resolveDown fuel) k (Some hi) c)).
          replace (resolveDown_child (resolveDown fuel) k (Some hi) c)
            with (Some (if decide (stc ≠ COMPLETED)
                        then assignStatus k STARTED h' else h')); [done|].
          unfold resolveDown_child. simpl. by rewrite Hres. }
      destruct (Hloop (Children r) h1 (fun c Hc => Hc) Hg1) as (hf & -> & Hgf).
      simpl. destruct (sameGraph_is_Some g hf k Hgf) as [rf ->]; [by rewrite Hgk'|].
      simpl. eauto. }
  destruct Hsome as [[h' st'] Hres]. exists h'. rewrite Hres.
  destruct (resolveDown_post _ g _ _ _ _ Hg Hres) as (Hst' & _). congruence.
Qed.

Lemma sameGraph_level (g h : reqGraph) (x : string) :
  sameGraph g h -> Level <$> g !! x = Level <$> h !! x.
Proof.
  intros H. specialize (H x). unfold sameNode in H.
  destruct (g !! x), (h !! x); try done. simpl. by destruct H as (-> & _).
Qed.

Lemma downPass_None (fuel : nat) (order : list string) :
  fold_left (fun acc k =>
      acc ≫= fun h =>
      match h !! k with
      | Some req =>
          if decide (Level req = SYSTEM) then fst <$> resolveDown fuel h k else Some h
      | None => Some h
      end) order None = None.
Proof. induction order as [|k order IH]; simpl; done. Qed.

Lemma downPass_cons (fuel : nat) (k : string) (order : list string) (h : reqGraph) :
  downPass fuel (k :: order) h =
  match h !! k with
  | Some req =>
      if decide (Level req = SYSTEM)
      then resolveDown fuel h k ≫= fun '(h', _) => downPass fuel order h'
      else downPass fuel order h
  | None => downPass fuel order h
  end.
Proof.
  unfold downPass. simpl. destruct (h !! k) as [req|]; [|done].
  destruct (decide (Level req = SYSTEM)); [|done].
  destruct (resolveDown fuel h k) as [[h' st]|]; simpl; [done|].
  apply downPass_None.
Qed.

(** What the loop over the SYSTEM nodes has done when it ends. *)
Lemma downPass_post (fuel : nat) (g : reqGraph) (order : list string) :
  forall h h',
    sameGraph g h -> downPass fuel order h = Some h' ->
    downPost g h (systemRoots g order) h' /\
    forall s, s ∈ systemRoots g order -> is_Some (statusOf fuel g s).
Proof.
  induction order as [|k order IH]; intros h h' Hg Hpass.
  - inversion Hpass; subst. split; [apply downPost_nil|]. by intros s ?%elem_of_nil.
  - rewrite downPass_cons in Hpass. unfold systemRoots. simpl.
    rewrite (sameGraph_level g h k Hg).
    destruct (h !! k) as [req|] eqn:Hk; simpl.
    + destruct (decide (Level req = SYSTEM)) as [Hl|Hl].
      * rewrite bool_decide_eq_true_2 by congruence.
        destruct (resolveDown fuel h k) as [[h1 st]|] eqn:Hres; [|done]. simpl in Hpass.
        destruct (resolveDown_post _ g _ _ _ _ Hg Hres) as (Hst & Hpost & _).
        assert (Hg1 : sameGraph g h1).
        { apply (sameGraph_trans _ h); [done|]. apply marksOnly_sameGraph, Hpost. }
        destruct (IH h1 h' Hg1 Hpass) as (Hpost' & Hdef). split.
        -- apply (downPost_app g h h1 h' [k]); done.
        -- intros s [->|Hs]%elem_of_cons; [by rewrite Hst|by apply Hdef].
      * rewrite bool_decide_eq_false_2 by congruence. by apply IH.
    + by apply IH.
Qed.

(** The loop over the SYSTEM nodes ends when their statuses are defined
    within the fuel. *)
Lemma downPass_total (fuel : nat) (g : reqGraph) (order : list string) :
  forall h,
    sameGraph g h ->
    (forall s, s ∈ systemRoots g order -> is_Some (statusOf fuel g s)) ->
    is_Some (downPass fuel order h).
Proof.
  induction order as [|k order IH]; intros h Hg Hdef; [by eexists|].
  rewrite downPass_cons. unfold systemRoots in Hdef. simpl in Hdef.
  rewrite (sameGraph_level g h k Hg) in Hdef.
  destruct (h !! k) as [req|] eqn:Hk; simpl in Hdef.
  - destruct (decide (Level req = SYSTEM)) as [Hl|Hl].
    + rewrite bool_decide_eq_true_2 in Hdef by congruence.
      destruct (Hdef k) as [st Hst]; [left|].
      destruct (resolveDown_total fuel g h k st Hg Hst) as (h1 & Hres).
      rewrite Hres. simpl.
      destruct (resolveDown_post _ g _ _ _ _ Hg Hres) as (_ & Hpost & _).
      apply IH.
      * apply (sameGraph_trans _ h); [done|]. apply marksOnly_sameGraph, Hpost.
      * intros s Hs. apply Hdef. by right.
    + rewrite bool_decide_eq_false_2 in Hdef by congruence. by apply IH.
  - by apply IH.
Qed.

(** C1, as stated, fails for a CODE node with a child: linking succeeds,
    [resolveDown] visits the CODE node from the SYSTEM node above it and
    leaves it STARTED. *)
Lemma code_node_with_child_is_STARTED :
  exists rg',
    Resolve 4 CodeParentScenario.order CodeParentScenario.order
              CodeParentScenario.order CodeParentScenario.order
              CodeParentScenario.graph = Some (Linked rg') /\
    Level <$> rg' !! "/repo/a.go" = Some CODE /\
    Seen <$> rg' !! "/repo/a.go" = Some true /\
    Status <$> rg' !! "/repo/a.go" = Some STARTED.
Proof. eexists. split; [vm_compute; reflexivity|]. vm_compute. done. Qed.

(** C1, amended.  When [resolveDown] returns, it returns the status it has
    stored in its node, and every node below that node (the nodes it has
    visited) keeps its level and its children, is marked as reached, and
    has this status: COMPLETED for a CODE node without children;
    NOT_STARTED for a node without children that is not a CODE node; for a
    node with children, COMPLETED if and only if all its children are
    COMPLETED, and STARTED otherwise. *)
Theorem resolveDown_status (fuel : nat) (rg : reqGraph) (k : string) (rg' : reqGraph)
    (st : RequirementStatus) :
  resolveDown fuel rg k = Some (rg', st) ->
  Status <$> rg' !! k = Some st /\
  forall x, reachDown rg k x ->
    exists r r',
      rg !! x = Some r /\ rg' !! x = Some r' /\
      Level r' = Level r /\ Children r' = Children r /\ Seen r' = true /\
      (Children r = [] -> Level r = CODE -> Status r' = COMPLETED) /\
      (Children r = [] -> Level r <> CODE -> Status r' = NOT_STARTED) /\
      (Children r <> [] ->
       (Status r' = COMPLETED <->
        forall c, c ∈ Children r -> Status <$> rg' !! c = Some COMPLETED) /\
       (Status r' <> COMPLETED -> Status r' = STARTED)).
Proof.
  intros Hres.
  destruct (resolveDown_post fuel rg rg k rg' st (sameGraph_refl rg) Hres)
    as (_ & (Hm & _ & Hmarked) & Hst).
  split; [done|]. intros x Hx.
  destruct (Hmarked k x (list_elem_of_here _ _) Hx) as (r' & Hr' & Hseen & f & Hf).
  destruct (marksOnly_lookup _ _ _ _ Hm Hr') as (r & Hr & He).
  assert (Hlvl : Level r' = Level r) by (by apply (f_equal Level) in He).
  assert (Hch : Children r' = Children r) by (by apply (f_equal Children) in He).
  exists r, r'. split_and!; try done.
  all: destruct f as [|f]; [done|]; rewrite statusOf_unfold, Hr in Hf.
  - intros Hnil Hcode. rewrite Hnil in Hf. simpl in Hf.
    rewrite bool_decide_eq_false_2 in Hf by (by intros ?). simpl in Hf. congruence.
  - intros Hnil Hcode. rewrite Hnil in Hf. simpl in Hf.
    rewrite bool_decide_eq_true_2 in Hf by done. simpl in Hf. congruence.
  - intros Hne.
    rewrite (bool_decide_eq_false_2 (length (Children r) = 0%nat)) in Hf
      by (by destruct (Children r)).
    rewrite andb_false_r in Hf.
    destruct (forallb (fun c => bool_decide (is_Some (statusOf f rg c))) (Children r))
      eqn:Hdef; [|done].
    rewrite forallb_elem in Hdef.
    assert (Hchild : forall c, c ∈ Children r ->
              statusOf f rg c = Some COMPLETED <-> Status <$> rg' !! c = Some COMPLETED).
    { intros c Hc.
      destruct (bool_decide_eq_true_1 _ (Hdef c Hc)) as [sc Hsc].
      assert (Hxc : reachDown rg k c).
      { eapply rtc_r; [exact Hx|]. unfold childrenOf. by rewrite Hr. }
      destruct (Hmarked k c (list_elem_of_here _ _) Hxc) as (rc & -> & _ & fc & Hfc).
      simpl. rewrite Hsc, (statusOf_agree _ _ _ _ _ _ Hsc Hfc). done. }
    destruct (forallb (fun c => bool_decide (statusOf f rg c = Some COMPLETED)) (Children r))
      eqn:Hall; inversion Hf as [Hs].
    + split; [|done]. split; [|done]. intros _ c Hc. apply Hchild; [done|].
      rewrite forallb_elem in Hall. by apply (bool_decide_eq_true_1 _), Hall.
    + split; [|done]. split; [done|]. intros Hcs.
      rewrite <- not_true_iff_false, forallb_elem in Hall. exfalso. apply Hall.
      intros c Hc. apply bool_decide_eq_true_2, Hchild; [done|]. by apply Hcs.
Qed.

Lemma resolveDown_status_witness :
  exists rg',
    resolveDown 4 ChainScenario_linked "REQ-0-DDLN-SYS-001" = Some (rg', COMPLETED) /\
    Status <$> rg' !! "REQ-0-DDLN-SYS-001" = Some COMPLETED.
Proof.
  eexists. split; [vm_compute; reflexivity|].
  eapply (proj1 (resolveDown_status 4 ChainScenario_linked "REQ-0-DDLN-SYS-001" _
                   COMPLETED _)).
  Unshelve. vm_compute. reflexivity.
Defined.

(** ** Status propagation: the upward pass *)

Lemma upOnly_refl (h : reqGraph) : upOnly h h.
Proof. done. Qed.

Lemma upOnly_trans (h1 h2 h3 : reqGraph) : upOnly h1 h2 -> upOnly h2 h3 -> upOnly h1 h3.
Proof. intros H1 H2 x. by rewrite H2, H1. Qed.

Lemma upOnly_insert (h : reqGraph) (k : string) (r r' : Req) :
  h !! k = Some r -> eraseUp r' = eraseUp r -> upOnly h (<[k := r']> h).
Proof.
  intros Hk Hr x. destruct (decide (k = x)) as [<-|Hne].
  - rewrite lookup_insert_eq, Hk. simpl. by rewrite Hr.
  - by rewrite lookup_insert_ne.
Qed.

Lemma upOnly_lookup (h h' : reqGraph) (x : string) (r' : Req) :
  upOnly h h' -> h' !! x = Some r' ->
  exists r, h !! x = Some r /\ eraseUp r' = eraseUp r.
Proof.
  intros H Hx. specialize (H x). rewrite Hx in H. destruct (h !! x) as [r|]; [|done].
  exists r. split; [done|]. simpl in H. congruence.
Qed.

Lemma upOnly_lookup_r (h h' : reqGraph) (x : string) (r : Req) :
  upOnly h h' -> h !! x = Some r ->
  exists r', h' !! x = Some r' /\ eraseUp r' = eraseUp r.
Proof.
  intros H Hx. specialize (H x). rewrite Hx in H. destruct (h' !! x) as [r'|]; [|done].
  exists r'. split; [done|]. simpl in H. congruence.
Qed.

Lemma upOnly_sameGraph (h h' : reqGraph) : upOnly h h' -> sameGraph h h'.
Proof.
  intros H x. specialize (H x). unfold sameNode.
  destruct (h !! x) as [r|], (h' !! x) as [r'|]; try done.
  simpl in H. assert (He : eraseUp r' = eraseUp r) by congruence.
  split_and!.
  - by apply (f_equal Level) in He.
  - apply (f_equal Children) in He. simpl in He. by rewrite He.
  - apply (f_equal Parents) in He. simpl in He. by rewrite He.
Qed.

Lemma upOnly_status (h h' : reqGraph) (x : string) :
  upOnly h h' -> Status <$> h' !! x = Status <$> h !! x.
Proof.
  intros H. specialize (H x). destruct (h !! x) as [r|], (h' !! x) as [r'|]; try done.
  simpl in *. assert (He : eraseUp r' = eraseUp r) by congruence.
  apply (f_equal Status) in He. simpl in He. by rewrite He.
Qed.

Lemma upPost_nil (g h : reqGraph) : upPost g h [] h.
Proof. split_and!; [done|by left|]. by intros c x ?%elem_of_nil. Qed.

Lemma upPost_app (g h h1 h2 : reqGraph) (r1 r2 : list string) :
  upPost g h r1 h1 -> upPost g h1 r2 h2 -> upPost g h (r1 ++ r2) h2.
Proof.
  intros (Hm1 & Hf1 & Hr1) (Hm2 & Hf2 & Hr2). split_and!.
  - by apply (upOnly_trans _ h1).
  - intros x. destruct (Hf2 x) as [Heq|[(c & Hc & R) HM]].
    + rewrite Heq. destruct (Hf1 x) as [Heq1|[(c & Hc & R) HM]]; [by left|].
      right. split; [|done]. exists c. split; [|done]. apply elem_of_app. by left.
    + right. split; [|done]. exists c. split; [|done]. apply elem_of_app. by right.
  - intros c x [Hc|Hc]%elem_of_app R.
    + destruct (Hf2 x) as [Heq|[_ HM]]; [|done]. rewrite Heq. by apply (Hr1 c).
    + by apply (Hr2 c).
Qed.

Lemma climbs_sameGraph (fuel : nat) (g h : reqGraph) (k : string) :
  sameGraph g h -> climbs fuel g k = climbs fuel h k.
Proof.
  intros H. revert k. induction fuel as [|fuel IH]; intros k; simpl; [done|].
  pose proof (H k) as Hk. unfold sameNode in Hk.
  destruct (g !! k) as [r|], (h !! k) as [r'|]; try done.
  destruct Hk as (_ & _ & Hp). rewrite (forallb_Permutation _ _ _ Hp).
  apply forallb_ext_elem. intros p _. apply IH.
Qed.

Lemma resolveUp_fold_None (fuel : nat) (ps : list string) :
  fold_left (fun acc p => acc ≫= fun h => resolveUp fuel h p) ps None = None.
Proof. induction ps as [|p ps IH]; simpl; done. Qed.

Lemma reachUp_inv (rg : reqGraph) (k x : string) :
  reachUp rg k x -> x = k \/ exists p, p ∈ parentsOf rg k /\ reachUp rg p x.
Proof. destruct 1 as [|k p x Hp R]; [by left|]. right. eauto. Qed.

(** What a call of [resolveUp] that returns has done. *)
Lemma resolveUp_post (fuel : nat) (g : reqGraph) :
  forall h k h',
    sameGraph g h -> resolveUp fuel h k = Some h' ->
    upPost g h [k] h' /\ climbs fuel g k = true.
Proof.
  induction fuel as [|fuel IHf]; intros h k h' Hg Hres; [done|].
  simpl in Hres. rewrite (climbs_sameGraph _ g h k Hg). simpl.
  destruct (h !! k) as [r|] eqn:Hk; [|done].
  set (h1 := <[k := set_Seen true r]> h) in *.
  assert (Hm1 : upOnly h h1) by (by apply (upOnly_insert h k r)).
  assert (Hg1 : sameGraph g h1).
  { apply (sameGraph_trans _ h); [done|]. by apply upOnly_sameGraph. }
  assert (Hparents : forall p, p ∈ Parents r <-> p ∈ parentsOf g k).
  { intros p. rewrite (sameGraph_parents g h k p Hg). unfold parentsOf. by rewrite Hk. }
  assert (Hloop : forall ps hi hf,
            (forall p, p ∈ ps -> p ∈ parentsOf g k) -> sameGraph g hi ->
            fold_left (fun acc p => acc ≫= fun h0 => resolveUp fuel h0 p) ps (Some hi)
              = Some hf ->
            upPost g hi ps hf /\ forall p, p ∈ ps -> climbs fuel g p = true).
  { induction ps as [|p ps IH]; intros hi hf Hps Hgi Hfold.
    - inversion Hfold; subst. split; [apply upPost_nil|]. by intros p ?%elem_of_nil.
    - simpl in Hfold. destruct (resolveUp fuel hi p) as [h2|] eqn:Hp;
        [|by rewrite resolveUp_fold_None in Hfold].
      destruct (IHf _ _ _ Hgi Hp) as (Hpost & Hclimb).
      assert (Hg2 : sameGraph g h2).
      { apply (sameGraph_trans _ hi); [done|]. apply upOnly_sameGraph, Hpost. }
      destruct (IH h2 hf (fun p0 H0 => Hps p0 (list_elem_of_further _ _ _ H0)) Hg2 Hfold)
        as (Hpost' & Hclimbs).
      split.
      + by apply (upPost_app g hi h2 hf [p]).
      + by intros p0 [->|H0]%elem_of_cons; [|apply Hclimbs]. }
  destruct (Hloop (Parents r) h1 h' (fun p Hp => proj1 (Hparents p) Hp) Hg1 Hres)
    as ((Hm & Hfr & Hrm) & Hclimbs).
  assert (Hseen : Seen <$> h' !! k = Some true).
  { destruct (Hfr k) as [->|[_ ->]]; [|done]. unfold h1. by rewrite lookup_insert_eq. }
  split; [|rewrite <- (forallb_ext_elem (climbs fuel g)); [by apply forallb_elem|];
           intros p _; by apply climbs_sameGraph].
  split_and!.
  - by apply (upOnly_trans _ h1).
  - intros x. destruct (decide (x = k)) as [->|Hx].
    + right. split; [|done]. exists k. split; [left|constructor].
    + destruct (Hfr x) as [Heq|[(p & Hp & R) HM]].
      * left. rewrite Heq. unfold h1. by rewrite lookup_insert_ne.
      * right. split; [|done]. exists k. split; [left|].
        eapply rtc_l; [|exact R]. by apply Hparents.
  - intros c x ->%list_elem_of_singleton R.
    apply reachUp_inv in R as [->|(p & Hp & R)]; [done|].
    apply (Hrm p); [by apply Hparents|done].
Qed.

(** [resolveUp] returns whenever the parents end within the fuel. *)
Lemma resolveUp_total (fuel : nat) (g : reqGraph) :
  forall h k, sameGraph g h -> climbs fuel g k = true -> is_Some (resolveUp fuel h k).
Proof.
  induction fuel as [|fuel IHf]; intros h k Hg Hclimb; [done|].
  rewrite (climbs_sameGraph _ g h k Hg) in Hclimb. simpl in *.
  destruct (h !! k) as [r|] eqn:Hk; [|done].
  rewrite forallb_elem in Hclimb.
  set (h1 := <[k := set_Seen true r]> h).
  assert (Hg1 : sameGraph g h1).
  { apply (sameGraph_trans _ h); [done|].
    by apply upOnly_sameGraph, (upOnly_insert h k r). }
  assert (Hloop : forall ps hi,
            (forall p, p ∈ ps -> p ∈ Parents r) -> sameGraph g hi ->
            is_Some (fold_left (fun acc p => acc ≫= fun h0 => resolveUp fuel h0 p)
                       ps (Some hi))).
  { induction ps as [|p ps IH]; intros hi Hps Hgi; [by eexists|].
    simpl. destruct (IHf hi p Hgi) as [h2 Hp].
    { rewrite (climbs_sameGraph _ g h p Hg). apply Hclimb, Hps. left. }
    rewrite Hp. apply IH.
    - intros p0 H0. apply Hps. by right.
    - apply (sameGraph_trans _ hi); [done|].
      apply upOnly_sameGraph, (resolveUp_post fuel g hi p h2 Hgi Hp). }
  by apply Hloop.
Qed.

Lemma seenOnly_trans (h1 h2 h3 : reqGraph) :
  seenOnly h1 h2 -> seenOnly h2 h3 -> seenOnly h1 h3.
Proof. intros H1 H2 x. by rewrite H2, H1. Qed.

Lemma seenOnly_position (h h' : reqGraph) (x : string) :
  seenOnly h h' -> positionOf h' x = positionOf h x.
Proof.
  intros H. specialize (H x). unfold positionOf.
  destruct (h !! x) as [r|], (h' !! x) as [r'|]; try done.
  simpl in *. assert (He : set_Seen false r' = set_Seen false r) by congruence.
  by apply (f_equal Position) in He.
Qed.

Lemma resolveUp_seenOnly (fuel : nat) :
  forall h k h', resolveUp fuel h k = Some h' -> seenOnly h h'.
Proof.
  induction fuel as [|fuel IHf]; intros h k h' Hres; [done|].
  simpl in Hres. destruct (h !! k) as [r|] eqn:Hk; [|done].
  assert (H1 : seenOnly h (<[k := set_Seen true r]> h)).
  { intros x. destruct (decide (k = x)) as [<-|Hne].
    - by rewrite lookup_insert_eq, Hk.
    - by rewrite lookup_insert_ne. }
  revert Hres H1. generalize (<[k := set_Seen true r]> h). generalize (Parents r).
  induction l as [|p ps IH]; intros hi Hfold Hi.
  - by inversion Hfold; subst.
  - simpl in Hfold. destruct (resolveUp fuel hi p) as [h2|] eqn:Hp;
      [|by rewrite resolveUp_fold_None in Hfold].
    apply (IH h2 Hfold). apply (seenOnly_trans _ hi); [done|]. by apply (IHf hi p).
Qed.

Lemma upReq_stuck (fuel : nat) (order : list string) (acc : option resolved) :
  (forall h, acc <> Some (Linked h)) -> fold_left (upReq fuel) order acc = acc.
Proof.
  intros Hacc. induction order as [|k order IH]; simpl; [done|].
  replace (upReq fuel acc k) with acc; [done|].
  unfold upReq. destruct acc as [[h| |]|]; try done. by destruct (Hacc h).
Qed.

Lemma upPass_cons (fuel : nat) (k : string) (order : list string) (h : reqGraph) :
  upPass fuel (k :: order) h =
  match h !! k with
  | Some req =>
      if decide (Level req = CODE) then
        match resolveUp fuel h k with
        | None => None
        | Some h1 =>
            match h1 !! k with
            | Some req1 =>
                match Parents req1 with
                | p :: _ =>
                    upPass fuel order (<[k := set_Position (positionOf h1 p) req1]> h1)
                | [] => Some IndexOutOfRange
                end
            | None => None
            end
        end
      else upPass fuel order h
  | None => upPass fuel order h
  end.
Proof.
  unfold upPass. simpl. destruct (h !! k) as [req|]; [|done].
  destruct (decide (Level req = CODE)); [|done].
  destruct (resolveUp fuel h k) as [h1|]; simpl; [|by apply upReq_stuck].
  destruct (h1 !! k) as [req1|]; [|by apply upReq_stuck].
  destruct (Parents req1); [by apply upReq_stuck|done].
Qed.

Lemma upPost_reposition (g h h1 h2 : reqGraph) (roots : list string) :
  upPost g h roots h1 -> upOnly h1 h2 ->
  (forall x, Seen <$> h2 !! x = Seen <$> h1 !! x) ->
  upPost g h roots h2.
Proof.
  intros (Hm & Hfr & Hrm) Hup Hseen. split_and!.
  - by apply (upOnly_trans _ h1).
  - intros x. rewrite Hseen. apply Hfr.
  - intros c x Hc R. rewrite Hseen. by apply (Hrm c).
Qed.

(** What the loop over the CODE nodes has done when it ends without a
    panic: the reached markers, and the positions of the CODE nodes. *)
Lemma upPass_post (fuel : nat) (g : reqGraph) (order : list string) :
  forall h h',
    sameGraph g h -> upPass fuel order h = Some (Linked h') ->
    upPost g h (codeRoots g order) h' /\
    (forall c, c ∈ codeRoots g order -> climbs fuel g c = true /\ parentsOf g c <> []) /\
    (forall x, x ∉ codeRoots g order -> Position <$> h' !! x = Position <$> h !! x) /\
    (forall x, x ∈ codeRoots g order ->
       exists r' p ps, h' !! x = Some r' /\ Parents r' = p :: ps /\
                       (Level <$> g !! p <> Some CODE -> Position r' = positionOf h p)).
Proof.
  induction order as [|k order IH]; intros h h' Hg Hpass.
  - inversion Hpass; subst. split_and!.
    + apply upPost_nil.
    + by intros c ?%elem_of_nil.
    + done.
    + by intros x ?%elem_of_nil.
  - rewrite upPass_cons in Hpass. unfold codeRoots. simpl. fold (codeRoots g order).
    rewrite (sameGraph_level g h k Hg).
    destruct (h !! k) as [req|] eqn:Hk; simpl; [|by apply IH].
    destruct (decide (Level req = CODE)) as [Hl|Hl];
      [|rewrite bool_decide_eq_false_2 by congruence; by apply IH].
    rewrite bool_decide_eq_true_2 by congruence.
    destruct (resolveUp fuel h k) as [h1|] eqn:Hres; [|done].
    destruct (h1 !! k) as [req1|] eqn:Hk1; [|done].
    destruct (Parents req1) as [|p ps] eqn:Hps; [done|].
    destruct (resolveUp_post _ g _ _ _ Hg Hres) as (Hpost & Hclimb).
    pose proof (resolveUp_seenOnly _ _ _ _ Hres) as Hso.
    set (h2 := <[k := set_Position (positionOf h1 p) req1]> h1) in *.
    assert (Hup2 : upOnly h1 h2) by (by apply (upOnly_insert h1 k req1)).
    assert (Hseen2 : forall x, Seen <$> h2 !! x = Seen <$> h1 !! x).
    { intros x. unfold h2. destruct (decide (k = x)) as [<-|Hne].
      - by rewrite lookup_insert_eq, Hk1.
      - by rewrite lookup_insert_ne. }
    pose proof (upPost_reposition _ _ _ _ _ Hpost Hup2 Hseen2) as Hpost2.
    assert (Hg2 : sameGraph g h2).
    { apply (sameGraph_trans _ h); [done|]. apply upOnly_sameGraph, Hpost2. }
    destruct (IH h2 h' Hg2 Hpass) as (Hpost' & Hroots & Hpos & Hcode).
    assert (Hlevel : Level <$> g !! k = Some CODE).
    { rewrite (sameGraph_level g h k Hg), Hk. simpl. by rewrite Hl. }
    assert (Hpos1 : forall x, Level <$> g !! x <> Some CODE ->
              positionOf h2 x = positionOf h x).
    { intros x Hx. unfold positionOf at 1, h2. rewrite lookup_insert_ne by congruence.
      apply (seenOnly_position h h1 x Hso). }
    split_and!.
    + by apply (upPost_app g h h2 h' [k]).
    + intros c [->|Hc]%elem_of_cons; [|by apply Hroots]. split; [done|].
      intros Hnil. pose proof (Hg2 k) as Hgk. unfold sameNode, parentsOf in *.
      unfold h2 in Hgk. rewrite lookup_insert_eq in Hgk.
      destruct (g !! k) as [rg|]; [|done]. simpl in *. destruct Hgk as (_ & _ & Hperm).
      rewrite Hnil, Hps in Hperm. by apply Permutation_nil_cons in Hperm.
    + intros x Hx. apply not_elem_of_cons in Hx as [Hxk Hx].
      rewrite (Hpos x Hx). unfold h2. rewrite lookup_insert_ne by done.
      specialize (Hso x). destruct (h !! x) as [r|], (h1 !! x) as [r1|]; try done.
      simpl in *. assert (He : set_Seen false r1 = set_Seen false r) by congruence.
      apply (f_equal Position) in He. simpl in He. by rewrite He.
    + intros x Hx. destruct (decide (x ∈ codeRoots g order)) as [Hin|Hnin].
      * destruct (Hcode x Hin) as (r' & p' & ps' & Hr' & Hps' & Hp').
        exists r', p', ps'. split_and!; [done..|]. intros Hnc.
        by rewrite (Hp' Hnc), Hpos1.
      * apply elem_of_cons in Hx as [->|Hx]; [|done].
        assert (Hk2 : h2 !! k = Some (set_Position (positionOf h1 p) req1))
          by apply lookup_insert_eq.
        pose proof (Hpos k Hnin) as Hpk. rewrite Hk2 in Hpk. simpl in Hpk.
        destruct Hpost' as (Hup' & _).
        destruct (upOnly_lookup_r _ _ k _ Hup' Hk2) as (r' & Hr' & He).
        exists r', p, ps. split_and!; [done| |].
        -- apply (f_equal Parents) in He. simpl in He. by rewrite He.
        -- intros Hnc. rewrite Hr' in Hpk. simpl in Hpk. inversion Hpk as [Hpk'].
           rewrite Hpk'. apply (seenOnly_position h h1 p Hso).
Qed.

(** The loop over the CODE nodes ends without a panic when every CODE node
    has a parent and its ancestors end within the fuel. *)
Lemma upPass_total (fuel : nat) (g : reqGraph) (order : list string) :
  forall h,
    sameGraph g h ->
    (forall c, c ∈ codeRoots g order -> climbs fuel g c = true /\ parentsOf g c <> []) ->
    exists h', upPass fuel order h = Some (Linked h').
Proof.
  induction order as [|k order IH]; intros h Hg Hroots; [by exists h|].
  rewrite upPass_cons. unfold codeRoots in Hroots. simpl in Hroots.
  fold (codeRoots g order) in Hroots. rewrite (sameGraph_level g h k Hg) in Hroots.
  destruct (h !! k) as [req|] eqn:Hk; simpl in Hroots; [|by apply IH].
  destruct (decide (Level req = CODE)) as [Hl|Hl];
    [|rewrite bool_decide_eq_false_2 in Hroots by congruence; by apply IH].
  rewrite bool_decide_eq_true_2 in Hroots by congruence.
  destruct (Hroots k) as (Hclimb & Hne); [left|].
  destruct (resolveUp_total fuel g h k Hg Hclimb) as [h1 Hres]. rewrite Hres.
  destruct (resolveUp_post _ g _ _ _ Hg Hres) as ((Hup & _) & _).
  assert (Hg1 : sameGraph g h1).
  { apply (sameGraph_trans _ h); [done|]. by apply upOnly_sameGraph. }
  pose proof (Hg1 k) as Hgk. unfold sameNode, parentsOf in *.
  destruct (g !! k) as [rg|] eqn:Hgk'; [|done].
  destruct (h1 !! k) as [req1|] eqn:Hk1; [|done]. simpl in Hne.
  destruct Hgk as (_ & _ & Hperm).
  destruct (Parents req1) as [|p ps] eqn:Hps.
  { apply Permutation_nil_r in Hperm. done. }
  apply IH.
  - apply (sameGraph_trans _ h1); [done|].
    by apply upOnly_sameGraph, (upOnly_insert h1 k req1).
  - intros c Hc. apply Hroots. by right.
Qed.

(** ** Sorting the links *)

Lemma insertByPosition_perm (pos : string -> Z) (x : string) (l : list string) :
  insertByPosition pos x l ≡ₚ x :: l.
Proof.
  induction l as [|y l IH]; simpl; [done|].
  destruct (pos x <? pos y); [done|]. rewrite IH. apply Permutation_swap.
Qed.

Lemma insertByPosition_sorted (pos : string -> Z) (x : string) (l : list string) :
  Sorted (byPos pos) l -> Sorted (byPos pos) (insertByPosition pos x l).
Proof.
  induction l as [|y l IH]; simpl; intros Hs.
  - by repeat constructor.
  - destruct (Z.ltb_spec (pos x) (pos y)) as [Hlt|Hge].
    + constructor; [done|]. constructor. unfold byPos. lia.
    + apply Sorted_inv in Hs as [Hs Hhd]. constructor; [by apply IH|].
      destruct l as [|z l]; simpl.
      * by constructor.
      * destruct (pos x <? pos z); constructor; [done|]. by apply HdRel_inv in Hhd.
Qed.

Lemma sortByPosition_fold (pos : string -> Z) (l acc : list string) :
  Sorted (byPos pos) acc ->
  Sorted (byPos pos) (fold_left (fun a x => insertByPosition pos x a) l acc) /\
  fold_left (fun a x => insertByPosition pos x a) l acc ≡ₚ acc ++ l.
Proof.
  revert acc. induction l as [|x l IH]; intros acc Hacc; simpl.
  - split; [done|]. by rewrite app_nil_r.
  - destruct (IH (insertByPosition pos x acc)) as [Hs Hp];
      [by apply insertByPosition_sorted|].
    split; [done|]. rewrite Hp, insertByPosition_perm.
    by rewrite (Permutation_middle acc l x).
Qed.

Lemma sortByPosition_sorted (pos : string -> Z) (l : list string) :
  Sorted (byPos pos) (sortByPosition pos l).
Proof. apply sortByPosition_fold. constructor. Qed.

Lemma sortByPosition_perm (pos : string -> Z) (l : list string) :
  sortByPosition pos l ≡ₚ l.
Proof. apply (sortByPosition_fold pos l []). constructor. Qed.

Lemma insertByPosition_ext (pos pos' : string -> Z) (x : string) (l : list string) :
  (forall y, pos y = pos' y) -> insertByPosition pos x l = insertByPosition pos' x l.
Proof. intros H. induction l as [|y l IH]; simpl; [done|]. by rewrite !H, IH. Qed.

Lemma sortByPosition_ext (pos pos' : string -> Z) (l : list string) :
  (forall y, pos y = pos' y) -> sortByPosition pos l = sortByPosition pos' l.
Proof.
  intros H. unfold sortByPosition. generalize (@nil string).
  induction l as [|x l IH]; intros acc; simpl; [done|].
  by rewrite (insertByPosition_ext pos pos' x acc H), IH.
Qed.

Lemma Sorted_byPos_ext (pos pos' : string -> Z) (l : list string) :
  (forall y, y ∈ l -> pos y = pos' y) -> Sorted (byPos pos) l -> Sorted (byPos pos') l.
Proof.
  intros H Hs. induction Hs as [|x l Hs IH Hhd]; [constructor|].
  constructor.
  - apply IH. intros y Hy. apply H. by right.
  - destruct Hhd as [|y l Hxy]; constructor. unfold byPos in *.
    rewrite <- (H x), <- (H y); [done|right; left|left].
Qed.

Lemma relinked_refl (h : reqGraph) : relinked h h.
Proof. intros x. destruct (h !! x) as [r|]; [|done]. by destruct r. Qed.

Lemma relinked_trans (h1 h2 h3 : reqGraph) :
  relinked h1 h2 -> relinked h2 h3 -> relinked h1 h3.
Proof.
  intros H1 H2 x. specialize (H1 x). specialize (H2 x).
  destruct (h1 !! x) as [r1|], (h2 !! x) as [r2|], (h3 !! x) as [r3|]; try done.
  destruct H1 as (E1 & P1 & C1), H2 as (E2 & P2 & C2). split_and!.
  - rewrite E2 at 1. by rewrite E1 at 1.
  - by rewrite P2.
  - by rewrite C2.
Qed.

Lemma relinked_sameGraph (h h' : reqGraph) : relinked h h' -> sameGraph h h'.
Proof.
  intros H x. specialize (H x). unfold sameNode.
  destruct (h !! x) as [r|], (h' !! x) as [r'|]; try done.
  destruct H as (E & P & C). split_and!; [by rewrite E|done..].
Qed.

Lemma relinked_fields (h h' : reqGraph) (x : string) :
  relinked h h' ->
  Position <$> h' !! x = Position <$> h !! x /\
  Seen <$> h' !! x = Seen <$> h !! x /\
  Status <$> h' !! x = Status <$> h !! x.
Proof.
  intros H. specialize (H x).
  destruct (h !! x) as [r|], (h' !! x) as [r'|]; try done.
  destruct H as (E & _). simpl. by rewrite E.
Qed.

Lemma relinked_positionOf (h h' : reqGraph) (x : string) :
  relinked h h' -> positionOf h' x = positionOf h x.
Proof.
  intros H. destruct (relinked_fields h h' x H) as (Hp & _). unfold positionOf.
  by destruct (h !! x), (h' !! x); simplify_eq/=.
Qed.

Lemma sortReq_relinked (h : reqGraph) (k : string) : relinked h (sortReq h k).
Proof.
  intros x. unfold sortReq. destruct (decide (k = x)) as [<-|Hne].
  - rewrite !lookup_alter_eq. destruct (h !! k) as [r|]; simpl; [|done].
    split_and!; [done|apply sortByPosition_perm..].
  - rewrite !lookup_alter_ne by done. apply relinked_refl.
Qed.

Lemma sortReq_sorted (h : reqGraph) (k : string) (r' : Req) :
  sortReq h k !! k = Some r' ->
  Sorted (byPos (positionOf h)) (Parents r') /\
  Sorted (byPos (positionOf h)) (Children r').
Proof.
  unfold sortReq. rewrite !lookup_alter_eq. destruct (h !! k) as [r|]; simpl; [|done].
  intros [= <-]. simpl. split; [apply sortByPosition_sorted|].
  rewrite (sortByPosition_ext _ (positionOf h)); [apply sortByPosition_sorted|].
  intros y. unfold positionOf. destruct (decide (k = y)) as [<-|Hne].
  - rewrite lookup_alter_eq. by destruct (h !! k).
  - by rewrite lookup_alter_ne.
Qed.

(** What the sorting loop leaves: the same graph, with the links of the
    nodes it has visited sorted by position. *)
Lemma sortPass_post (order : list string) :
  forall h,
    relinked h (sortPass order h) /\
    (forall x, x ∉ order -> sortPass order h !! x = h !! x) /\
    (forall x r', x ∈ order -> sortPass order h !! x = Some r' ->
       Sorted (byPos (positionOf h)) (Parents r') /\
       Sorted (byPos (positionOf h)) (Children r')).
Proof.
  induction order as [|k order IH]; intros h.
  - split_and!; [apply relinked_refl|done|]. by intros x r' ?%elem_of_nil.
  - change (sortPass (k :: order) h) with (sortPass order (sortReq h k)).
    destruct (IH (sortReq h k)) as (Hrel & Hout & Hin).
    pose proof (sortReq_relinked h k) as Hrel1.
    assert (Hpos : forall l, Sorted (byPos (positionOf (sortReq h k))) l ->
              Sorted (byPos (positionOf h)) l).
    { intros l. apply Sorted_byPos_ext. intros y _. by apply relinked_positionOf. }
    split_and!.
    + by apply (relinked_trans _ (sortReq h k)).
    + intros x Hx. apply not_elem_of_cons in Hx as [Hxk Hx]. rewrite (Hout x Hx).
      unfold sortReq. by rewrite !lookup_alter_ne.
    + intros x r' Hx Hr'. destruct (decide (x ∈ order)) as [Hxo|Hxo].
      * destruct (Hin x r' Hxo Hr') as [HP HC]. split; by apply Hpos.
      * apply elem_of_cons in Hx as [->|Hx]; [|done].
        rewrite (Hout k Hxo) in Hr'. by apply (sortReq_sorted h k).
Qed.

(** ** Levels and termination *)

Lemma levelledLinks_sameGraph (g h : reqGraph) :
  sameGraph g h -> levelledLinks g -> levelledLinks h.
Proof.
  intros Hg [HP HC].
  assert (Hlookup : forall x r, g !! x = Some r ->
            exists r', h !! x = Some r' /\ Level r' = Level r).
  { intros x r Hr. pose proof (Hg x) as Hx. unfold sameNode in Hx. rewrite Hr in Hx.
    destruct (h !! x) as [r'|]; [|done]. exists r'. by destruct Hx as (-> & _). }
  split.
  - intros x p Hp. apply (sameGraph_parents g h x p Hg) in Hp.
    destruct (HP x p Hp) as (rx & rp & Hx & Hp' & Hlt).
    destruct (Hlookup x rx Hx) as (rx' & Hx1 & Hlx).
    destruct (Hlookup p rp Hp') as (rp' & Hp1 & Hlp).
    exists rx', rp'. split_and!; [done..|]. by rewrite Hlx, Hlp.
  - intros x c Hc. apply (sameGraph_children g h x c Hg) in Hc.
    destruct (HC x c Hc) as (rx & rc & Hx & Hc' & Hlt).
    destruct (Hlookup x rx Hx) as (rx' & Hx1 & Hlx).
    destruct (Hlookup c rc Hc') as (rc' & Hc1 & Hlc).
    exists rx', rc'. split_and!; [done..|]. by rewrite Hlx, Hlc.
Qed.

(** With levelled links, [resolveDown] needs no more fuel than there are
    levels from the node down to CODE. *)
Lemma levelled_statusOf (g : reqGraph) :
  levelledLinks g ->
  forall fuel k r,
    g !! k = Some r -> (4 <= fuel + levelNum (Level r))%nat ->
    is_Some (statusOf fuel g k).
Proof.
  intros [_ HC]. induction fuel as [|fuel IH]; intros k r Hk Hfuel.
  - destruct (Level r); simpl in Hfuel; lia.
  - rewrite statusOf_unfold, Hk. destruct (_ && _); [by eexists|].
    replace (forallb (fun c => bool_decide (is_Some (statusOf fuel g c))) (Children r))
      with true; [by eexists|].
    symmetry. apply forallb_elem. intros c Hc. apply bool_decide_eq_true_2.
    destruct (HC k c) as (rx & rc & Hx & Hc' & Hlt).
    { unfold childrenOf. by rewrite Hk. }
    apply (IH c rc Hc'). rewrite Hk in Hx. inversion Hx; subst. lia.
Qed.

(** With levelled links, [resolveUp] needs no more fuel than there are
    levels from the node up to SYSTEM. *)
Lemma levelled_climbs (g : reqGraph) :
  levelledLinks g ->
  forall fuel k r,
    g !! k = Some r -> (levelNum (Level r) < fuel)%nat -> climbs fuel g k = true.
Proof.
  intros [HP _]. induction fuel as [|fuel IH]; intros k r Hk Hfuel; [lia|].
  simpl. rewrite Hk. apply forallb_elem. intros p Hp.
  destruct (HP k p) as (rx & rp & Hx & Hp' & Hlt).
  { unfold parentsOf. by rewrite Hk. }
  apply (IH p rp Hp'). rewrite Hk in Hx. inversion Hx; subst. lia.
Qed.

Lemma levelled_reachDown (g : reqGraph) (a b : string) (ra rb : Req) :
  levelledLinks g -> reachDown g a b -> g !! a = Some ra -> g !! b = Some rb ->
  a = b \/ (levelNum (Level ra) < levelNum (Level rb))%nat.
Proof.
  intros [_ HC] R. revert ra. induction R as [a|a c b Hac _ IH]; intros ra Ha Hb; [by left|].
  destruct (HC a c Hac) as (rx & rc & Hx & Hc & Hlt). rewrite Ha in Hx.
  inversion Hx; subst rx. right. destruct (IH rc Hc Hb) as [->|Hlt'].
  - rewrite Hc in Hb. inversion Hb; subst. done.
  - lia.
Qed.

(** The links of an unlinked graph after the first loop of [Resolve]. *)
Lemma linked_parentsOf (P C : string -> list string) (rg rg1 : reqGraph) (x p : string) :
  unlinked rg -> linksAdded P C rg rg1 ->
  p ∈ parentsOf rg1 x <-> is_Some (rg !! x) /\ p ∈ P x.
Proof.
  intros Hun Hadded. unfold parentsOf. rewrite Hadded.
  destruct (rg !! x) as [r|] eqn:Hr; simpl.
  - rewrite (proj1 (Hun x r Hr)). simpl. split; [eauto|by intros [_ ?]].
  - split; [by intros ?%elem_of_nil|]. by intros [[? [=]] _].
Qed.

Lemma linked_childrenOf (P C : string -> list string) (rg rg1 : reqGraph) (x c : string) :
  unlinked rg -> linksAdded P C rg rg1 ->
  c ∈ childrenOf rg1 x <-> is_Some (rg !! x) /\ c ∈ C x.
Proof.
  intros Hun Hadded. unfold childrenOf. rewrite Hadded.
  destruct (rg !! x) as [r|] eqn:Hr; simpl.
  - rewrite (proj2 (Hun x r Hr)). simpl. split; [eauto|by intros [_ ?]].
  - split; [by intros ?%elem_of_nil|]. by intros [[? [=]] _].
Qed.

Lemma linksAdded_level (P C : string -> list string) (rg rg1 : reqGraph) (x : string) (r : Req) :
  linksAdded P C rg rg1 -> rg !! x = Some r ->
  exists r1, rg1 !! x = Some r1 /\ Level r1 = Level r.
Proof. intros Hadded Hr. rewrite Hadded, Hr. simpl. eauto. Qed.

Lemma linked_levelled (order : list string) (rg rg1 : reqGraph) :
  unlinked rg -> declaredUpwards rg ->
  linksAdded (fun x => flat_map (nodeP rg x) order)
             (fun x => flat_map (nodeC rg x) order) rg rg1 ->
  levelledLinks rg1.
Proof.
  intros Hun Hup Hadded. split.
  - intros x p Hp. apply (linked_parentsOf _ _ rg rg1 x p Hun Hadded) in Hp as [_ Hp].
    apply elem_of_linkedParents in Hp as (_ & req & Hreq & Hpid & [parent Hparent]).
    destruct (linksAdded_level _ _ _ _ _ _ Hadded Hreq) as (rx & Hrx & Hlx).
    destruct (linksAdded_level _ _ _ _ _ _ Hadded Hparent) as (rp & Hrp & Hlp).
    exists rx, rp. split_and!; [done..|]. rewrite Hlx, Hlp. by apply (Hup x req p parent).
  - intros x c Hc. apply (linked_childrenOf _ _ rg rg1 x c Hun Hadded) in Hc as [[rp Hrp] Hc].
    apply elem_of_linkedChildren in Hc as (_ & req & Hreq & Hpid).
    destruct (linksAdded_level _ _ _ _ _ _ Hadded Hrp) as (rx & Hrx & Hlx).
    destruct (linksAdded_level _ _ _ _ _ _ Hadded Hreq) as (rc & Hrc & Hlc).
    exists rx, rc. split_and!; [done..|]. rewrite Hlx, Hlc. by apply (Hup c req x rp).
Qed.

(** Without linking errors every visited node below SYSTEM level has a
    parent. *)
Lemma linked_has_parent (order : list string) (rg rg1 : reqGraph) (k : string) (req : Req) :
  unlinked rg -> linkErrors order rg = [] ->
  linksAdded (fun x => flat_map (nodeP rg x) order)
             (fun x => flat_map (nodeC rg x) order) rg rg1 ->
  k ∈ order -> rg !! k = Some req -> Level req <> SYSTEM ->
  parentsOf rg1 k <> [].
Proof.
  intros Hun Herrs Hadded Hk Hreq Hlvl.
  destruct (linkErrors_complete order rg k req Hk Hreq) as (Hnone & Hmissing & _).
  rewrite Herrs in Hnone, Hmissing.
  destruct (ParentIds req) as [|pid pids] eqn:Hpids.
  { by apply elem_of_nil in Hnone. }
  assert (Hpid : is_Some (rg !! pid)).
  { destruct (rg !! pid) eqn:Hp; [eauto|]. exfalso.
    apply (elem_of_nil (errInvalid req pid " does not exist.")), Hmissing; [left|done]. }
  assert (Hin : pid ∈ parentsOf rg1 k).
  { apply (linked_parentsOf _ _ rg rg1 k pid Hun Hadded). split; [eauto|].
    apply elem_of_linkedParents. split; [done|]. exists req. rewrite Hpids.
    split_and!; [done|left|done]. }
  intros Hnil. rewrite Hnil in Hin. by apply elem_of_nil in Hin.
Qed.

(** [Resolve], taken apart. *)
Lemma Resolve_no_errors (fuel : nat) (o1 o2 o3 o4 : list string) (rg : reqGraph) :
  linkErrors o1 rg = [] ->
  exists rg1,
    linksAdded (fun x => flat_map (nodeP rg x) o1)
               (fun x => flat_map (nodeC rg x) o1) rg rg1 /\
    Resolve fuel o1 o2 o3 o4 rg =
      downPass fuel o2 rg1 ≫= fun rg2 => upPass fuel o4 (sortPass o3 rg2).
Proof.
  intros Herrs. destruct (Resolve_link o1 rg) as (rg1 & Hlink & Hadded).
  exists rg1. split; [done|]. unfold Resolve. by rewrite Hlink, Herrs.
Qed.

Lemma Resolve_Linked (fuel : nat) (o1 o2 o3 o4 : list string) (rg rg' : reqGraph) :
  Resolve fuel o1 o2 o3 o4 rg = Some (Linked rg') ->
  exists rg1 rg2,
    linkErrors o1 rg = [] /\
    linksAdded (fun x => flat_map (nodeP rg x) o1)
               (fun x => flat_map (nodeC rg x) o1) rg rg1 /\
    downPass fuel o2 rg1 = Some rg2 /\
    upPass fuel o4 (sortPass o3 rg2) = Some (Linked rg').
Proof.
  intros Hres. destruct (linkErrors o1 rg) as [|e errs] eqn:Herrs.
  - destruct (Resolve_no_errors fuel o1 o2 o3 o4 rg Herrs) as (rg1 & Hadded & Heq).
    rewrite Heq in Hres. destruct (downPass fuel o2 rg1) as [rg2|] eqn:Hdown; [|done].
    exists rg1, rg2. by split_and!.
  - destruct (Resolve_with_errors fuel o1 o2 o3 o4 rg) as (rg1 & Heq & _);
      [by rewrite Herrs|]. congruence.
Qed.

(** C3, amended.  [Resolve] does not compare levels; but when every
    declared parent of the ingested graph is of a strictly higher level
    than the node that declares it, and linking finds no error, then
    [Resolve] returns with fuel for four nested calls, one per level: the
    two traversals end, every parent link of the result leads to a
    strictly higher level, and no node is below one of its children. *)
Theorem Resolve_terminates_when_levelled (fuel : nat) (o1 o2 o3 o4 : list string)
    (rg : reqGraph) :
  unlinked rg -> declaredUpwards rg -> covers o1 rg -> linkErrors o1 rg = [] ->
  (4 <= fuel)%nat ->
  exists rg',
    Resolve fuel o1 o2 o3 o4 rg = Some (Linked rg') /\
    levelledLinks rg' /\
    forall x c, c ∈ childrenOf rg' x -> ~ reachDown rg' c x.
Proof.
  intros Hun Hup Hcov Herrs Hfuel.
  destruct (Resolve_no_errors fuel o1 o2 o3 o4 rg Herrs) as (rg1 & Hadded & Heq).
  pose proof (linked_levelled o1 rg rg1 Hun Hup Hadded) as Hlev.
  assert (Hlevel : forall r, (levelNum (Level r) <= 3)%nat) by (intros r; by destruct (Level r); simpl; lia).
  destruct (downPass_total fuel rg1 o2 rg1 (sameGraph_refl _)) as [rg2 Hdown].
  { intros s Hs. apply list_elem_of_In, filter_In in Hs as [_ Hs].
    apply bool_decide_eq_true in Hs. destruct (rg1 !! s) as [r|] eqn:Hr; [|done].
    apply (levelled_statusOf rg1 Hlev fuel s r Hr). lia. }
  destruct (downPass_post fuel rg1 o2 rg1 rg2 (sameGraph_refl _) Hdown) as ((Hm & _) & _).
  assert (Hg3 : sameGraph rg1 (sortPass o3 rg2)).
  { apply (sameGraph_trans _ rg2); [by apply marksOnly_sameGraph|].
    apply relinked_sameGraph, sortPass_post. }
  destruct (upPass_total fuel rg1 o4 (sortPass o3 rg2) Hg3) as [rg' Hup'].
  { intros c Hc. apply list_elem_of_In, filter_In in Hc as [_ Hc].
    apply bool_decide_eq_true in Hc. destruct (rg1 !! c) as [r1|] eqn:Hr1; [|done].
    simpl in Hc. split.
    - apply (levelled_climbs rg1 Hlev fuel c r1 Hr1). specialize (Hlevel r1). lia.
    - pose proof (Hadded c) as Hc1. rewrite Hr1 in Hc1.
      destruct (rg !! c) as [req|] eqn:Hreq; [|done].
      apply (linked_has_parent o1 rg rg1 c req); try done.
      + apply Hcov. by rewrite Hreq.
      + simpl in Hc1. inversion Hc1 as [Hc2]. inversion Hc as [Hl].
        rewrite Hc2 in Hl. simpl in Hl. by rewrite Hl. }
  exists rg'. rewrite Heq, Hdown. simpl. split; [done|].
  destruct (upPass_post fuel rg1 o4 _ _ Hg3 Hup') as ((Hup1 & _) & _).
  assert (Hlev' : levelledLinks rg').
  { apply (levelledLinks_sameGraph rg1); [|done].
    apply (sameGraph_trans _ (sortPass o3 rg2)); [done|]. by apply upOnly_sameGraph. }
  split; [done|]. intros x c Hc R.
  destruct (proj2 Hlev' x c Hc) as (rx & rc & Hx & Hc' & Hlt).
  destruct (levelled_reachDown rg' c x rc rx Hlev' R Hc' Hx) as [->|Hlt']; [|lia].
  rewrite Hx in Hc'. inversion Hc'; subst. lia.
Qed.

(** C3, as stated, fails: linking finds no error in a graph where a HIGH
    node has a HIGH parent and the two lie on a cycle below a SYSTEM node,
    and then [Resolve] does not return, whatever the fuel. *)
Lemma cycle_links_and_diverges :
  fold_left linkReq CycleScenario.order (CycleScenario.graph, "")
    = (CycleScenario.linked, "") /\
  Parents <$> CycleScenario.linked !! "REQ-0-DDLN-SWH-001"
    = Some ["REQ-0-DDLN-SYS-001"; "REQ-0-DDLN-SWH-002"] /\
  Level <$> CycleScenario.linked !! "REQ-0-DDLN-SWH-001" = Some HIGH /\
  Level <$> CycleScenario.linked !! "REQ-0-DDLN-SWH-002" = Some HIGH /\
  reachDown CycleScenario.linked "REQ-0-DDLN-SWH-001" "REQ-0-DDLN-SWH-001" /\
  "REQ-0-DDLN-SWH-001" ∈ childrenOf CycleScenario.linked "REQ-0-DDLN-SWH-002" /\
  forall fuel,
    Resolve fuel CycleScenario.order CycleScenario.order CycleScenario.order
            CycleScenario.order CycleScenario.graph = None.
Proof.
  assert (Hlink : fold_left linkReq CycleScenario.order (CycleScenario.graph, "")
                  = (CycleScenario.linked, "")) by (vm_compute; reflexivity).
  assert (HcS : childrenOf CycleScenario.linked "REQ-0-DDLN-SYS-001"
                = ["REQ-0-DDLN-SWH-001"]) by (vm_compute; reflexivity).
  assert (Hc1 : childrenOf CycleScenario.linked "REQ-0-DDLN-SWH-001"
                = ["REQ-0-DDLN-SWH-002"]) by (vm_compute; reflexivity).
  assert (Hc2 : childrenOf CycleScenario.linked "REQ-0-DDLN-SWH-002"
                = ["REQ-0-DDLN-SWH-001"]) by (vm_compute; reflexivity).
  assert (Hstep : reachDown CycleScenario.linked "REQ-0-DDLN-SWH-001" "REQ-0-DDLN-SWH-002").
  { apply rtc_once. rewrite Hc1. left. }
  split_and!; [done|vm_compute; reflexivity..| | |].
  - eapply rtc_r; [exact Hstep|]. rewrite Hc2. left.
  - rewrite Hc2. left.
  - intros fuel. unfold Resolve. rewrite Hlink. cbv beta iota zeta.
    rewrite decide_False by (intros Hne; by apply Hne).
    change CycleScenario.order
      with ("REQ-0-DDLN-SYS-001" :: ["REQ-0-DDLN-SWH-001"; "REQ-0-DDLN-SWH-002"]).
    rewrite downPass_cons.
    destruct (CycleScenario.linked !! "REQ-0-DDLN-SYS-001") as [req|] eqn:Hreq;
      [|by vm_compute in Hreq].
    assert (Hl : Level req = SYSTEM) by (vm_compute in Hreq; by inversion Hreq).
    rewrite decide_True by done.
    destruct (resolveDown fuel CycleScenario.linked "REQ-0-DDLN-SYS-001")
      as [[h st]|] eqn:Hres; [|done].
    exfalso.
    destruct (resolveDown_post fuel CycleScenario.linked _ _ _ _ (sameGraph_refl _) Hres)
      as (Hst & _).
    destruct fuel as [|fuel]; [done|].
    assert (Hs1 : is_Some (statusOf fuel CycleScenario.linked "REQ-0-DDLN-SWH-001")).
    { apply (statusOf_child fuel _ "REQ-0-DDLN-SYS-001"); [by rewrite Hst|].
      rewrite HcS. left. }
    apply (statusOf_no_cycle fuel CycleScenario.linked
             "REQ-0-DDLN-SWH-002" "REQ-0-DDLN-SWH-001" Hs1); [|done].
    rewrite Hc2. left.
Qed.

(** Case analysis on a lookup in a graph given by its insertions. *)
Ltac lookup_cases H :=
  repeat (apply lookup_insert_Some in H as [[<- <-]|[? H]]);
  try (by rewrite lookup_empty in H).

Lemma ChainScenario_unlinked : unlinked ChainScenario.graph.
Proof. intros k r H. unfold ChainScenario.graph in H. lookup_cases H; done. Qed.

Lemma ChainScenario_unseen : unseen ChainScenario.graph.
Proof. intros k r H. unfold ChainScenario.graph in H. lookup_cases H; done. Qed.

Lemma ChainScenario_covers : covers ChainScenario.order ChainScenario.graph.
Proof.
  intros k [r H]. unfold ChainScenario.graph in H. unfold ChainScenario.order.
  lookup_cases H; set_solver.
Qed.

Lemma ChainScenario_declaredUpwards : declaredUpwards ChainScenario.graph.
Proof.
  intros k req pid parent H Hpid Hparent. unfold ChainScenario.graph in H.
  lookup_cases H; simpl in Hpid.
  - by apply elem_of_nil in Hpid.
  - apply list_elem_of_singleton in Hpid as ->. vm_compute in Hparent.
    inversion Hparent; subst. simpl. lia.
  - apply list_elem_of_singleton in Hpid as ->. vm_compute in Hparent.
    inversion Hparent; subst. simpl. lia.
Qed.

Lemma Resolve_terminates_when_levelled_witness :
  exists rg',
    Resolve 4 ChainScenario.order ChainScenario.order ChainScenario.order
            ChainScenario.order ChainScenario.graph = Some (Linked rg') /\
    levelledLinks rg' /\
    forall x c, c ∈ childrenOf rg' x -> ~ reachDown rg' c x.
Proof.
  apply (Resolve_terminates_when_levelled 4 ChainScenario.order ChainScenario.order
           ChainScenario.order ChainScenario.order ChainScenario.graph).
  - apply ChainScenario_unlinked.
  - apply ChainScenario_declaredUpwards.
  - apply ChainScenario_covers.
  - vm_compute. reflexivity.
  - lia.
Defined.

(** ** Status propagation as a whole *)

Lemma elem_of_systemRoots (g : reqGraph) (order : list string) (s : string) :
  s ∈ systemRoots g order <-> s ∈ order /\ Level <$> g !! s = Some SYSTEM.
Proof.
  unfold systemRoots. rewrite list_elem_of_In, filter_In, <- list_elem_of_In.
  by rewrite bool_decide_eq_true.
Qed.

Lemma elem_of_codeRoots (g : reqGraph) (order : list string) (c : string) :
  c ∈ codeRoots g order <-> c ∈ order /\ Level <$> g !! c = Some CODE.
Proof.
  unfold codeRoots. rewrite list_elem_of_In, filter_In, <- list_elem_of_In.
  by rewrite bool_decide_eq_true.
Qed.

(** What the three loops after linking have done when they end without a
    panic. *)
Lemma propagate_post (fuel : nat) (g : reqGraph) (o2 o3 o4 : list string) (h h' : reqGraph) :
  sameGraph g h -> propagate fuel o2 o3 o4 h = Some (Linked h') ->
  sameGraph g h' /\
  (forall s, s ∈ systemRoots g o2 -> is_Some (statusOf fuel g s)) /\
  (forall c, c ∈ codeRoots g o4 -> climbs fuel g c = true /\ parentsOf g c <> []) /\
  (forall x, Seen <$> h' !! x = Seen <$> h !! x \/
             ((belowSystem g o2 x \/ aboveCode g o4 x) /\ Seen <$> h' !! x = Some true)) /\
  (forall x, belowSystem g o2 x \/ aboveCode g o4 x -> Seen <$> h' !! x = Some true) /\
  (forall x, Status <$> h' !! x = Status <$> h !! x \/
             (belowSystem g o2 x /\
              exists f st, statusOf f g x = Some st /\ Status <$> h' !! x = Some st)) /\
  (forall x, belowSystem g o2 x ->
             exists f st, statusOf f g x = Some st /\ Status <$> h' !! x = Some st).
Proof.
  intros Hg Hprop. unfold propagate in Hprop.
  destruct (downPass fuel o2 h) as [hd|] eqn:Hdown; [|done]. simpl in Hprop.
  destruct (downPass_post fuel g o2 h hd Hg Hdown) as ((Hm & Hfr & Hrm) & Hdef).
  assert (Hgd : sameGraph g hd).
  { apply (sameGraph_trans _ h); [done|]. by apply marksOnly_sameGraph. }
  destruct (sortPass_post o3 hd) as (Hrel & _).
  assert (Hgs : sameGraph g (sortPass o3 hd)).
  { apply (sameGraph_trans _ hd); [done|]. by apply relinked_sameGraph. }
  destruct (upPass_post fuel g o4 _ _ Hgs Hprop) as ((Hup & Hfu & Hru) & Hroots & _).
  assert (Hstatus : forall x, Status <$> h' !! x = Status <$> hd !! x).
  { intros x. rewrite (upOnly_status _ _ x Hup).
    by destruct (relinked_fields hd (sortPass o3 hd) x Hrel) as (_ & _ & ->). }
  assert (Hseen_s : forall x, Seen <$> sortPass o3 hd !! x = Seen <$> hd !! x).
  { intros x. by destruct (relinked_fields hd (sortPass o3 hd) x Hrel) as (_ & -> & _). }
  assert (Hmarked : forall x, Marked g x (hd !! x) ->
            Seen <$> hd !! x = Some true /\
            exists f st, statusOf f g x = Some st /\ Status <$> hd !! x = Some st).
  { intros x (r & -> & Hs & f & Hf). simpl. rewrite Hs. eauto. }
  split_and!.
  - apply (sameGraph_trans _ (sortPass o3 hd)); [done|]. by apply upOnly_sameGraph.
  - done.
  - done.
  - intros x. destruct (Hfu x) as [Heq|[Hab ->]]; [|right; split; [by right|done]].
    rewrite Heq, Hseen_s. destruct (Hfr x) as [->|[Hbs HM]]; [by left|].
    right. split; [by left|]. by apply Hmarked.
  - intros x [Hb|Ha].
    + destruct Hb as (s & Hs & R). pose proof (Hrm s x Hs R) as HM.
      apply Hmarked in HM as [HM _].
      destruct (Hfu x) as [Heq|[_ ->]]; [|done]. by rewrite Heq, Hseen_s.
    + destruct Ha as (c & Hc & R). by apply (Hru c).
  - intros x. rewrite Hstatus. destruct (Hfr x) as [->|[Hbs HM]]; [by left|].
    right. split; [done|]. by apply Hmarked.
  - intros x (s & Hs & R). rewrite Hstatus. by apply Hmarked, (Hrm s).
Qed.

Lemma elem_of_DanglingReqsByPosition (order : list string) (rg : reqGraph) (k : string) :
  k ∈ DanglingReqsByPosition order rg <->
  k ∈ order /\ exists reg, rg !! k = Some reg /\ Seen reg = false.
Proof.
  unfold DanglingReqsByPosition. rewrite sortByPosition_perm.
  rewrite list_elem_of_In, filter_In, <- list_elem_of_In.
  destruct (rg !! k) as [reg|]; simpl.
  - rewrite negb_true_iff. split; [intros [? ?]; eauto|].
    intros [? (reg' & [= <-] & ?)]. done.
  - split; [by intros [_ ?]|]. by intros [_ (reg' & [=] & _)].
Qed.

(** C2, amended.  After [Resolve] has returned without error on a graph
    none of whose nodes was marked, a node is unmarked if and only if it
    lies neither below (nor is) a SYSTEM node nor above (nor is) a CODE node:
    [resolveDown] marks what it visits, too.  So an unmarked node is not a
    CODE node and has no path to a CODE node, but a node without path to a
    CODE node is marked all the same when a SYSTEM node is above it.  The
    accessor returns the unmarked nodes. *)
Theorem Resolve_unseen_iff (fuel : nat) (o1 o2 o3 o4 : list string) (rg rg' : reqGraph) :
  unseen rg -> covers o2 rg -> covers o4 rg ->
  Resolve fuel o1 o2 o3 o4 rg = Some (Linked rg') ->
  forall k r', rg' !! k = Some r' ->
    (Seen r' = false <->
     ~ (exists s rs, rg' !! s = Some rs /\ Level rs = SYSTEM /\ reachDown rg' s k) /\
     ~ (exists c rc, rg' !! c = Some rc /\ Level rc = CODE /\ reachUp rg' c k)) /\
    (forall order, k ∈ order ->
       k ∈ DanglingReqsByPosition order rg' <-> Seen r' = false).
Proof.
  intros Hunseen Hcov2 Hcov4 Hres k r' Hk.
  destruct (Resolve_Linked _ _ _ _ _ _ _ Hres) as (rg1 & rg2 & _ & Hadded & Hdown & Hup).
  assert (Hprop : propagate fuel o2 o3 o4 rg1 = Some (Linked rg')).
  { unfold propagate. by rewrite Hdown. }
  destruct (propagate_post fuel rg1 o2 o3 o4 rg1 rg' (sameGraph_refl _) Hprop)
    as (Hg & _ & _ & Hfr & Hrm & _).
  assert (Hdom : forall x, is_Some (rg' !! x) -> is_Some (rg !! x)).
  { intros x Hx. apply (sameGraph_is_Some _ _ x (sameGraph_sym _ _ Hg)) in Hx.
    by apply (linksAdded_is_Some _ _ _ _ x Hadded). }
  assert (Hbelow : belowSystem rg1 o2 k <->
            exists s rs, rg' !! s = Some rs /\ Level rs = SYSTEM /\ reachDown rg' s k).
  { split.
    - intros (s & [Hs Hl]%elem_of_systemRoots & R). rewrite (sameGraph_level _ _ s Hg) in Hl.
      destruct (rg' !! s) as [rs|] eqn:Hrs; [|done]. exists s, rs.
      split_and!; [done|by inversion Hl|by apply (sameGraph_reachDown rg1)].
    - intros (s & rs & Hrs & Hl & R). exists s. split.
      + apply elem_of_systemRoots. split; [apply Hcov2, Hdom; by rewrite Hrs|].
        by rewrite (sameGraph_level _ _ s Hg), Hrs, <- Hl.
      + by apply (sameGraph_reachDown rg'); [apply sameGraph_sym|]. }
  assert (Habove : aboveCode rg1 o4 k <->
            exists c rc, rg' !! c = Some rc /\ Level rc = CODE /\ reachUp rg' c k).
  { split.
    - intros (c & [Hc Hl]%elem_of_codeRoots & R). rewrite (sameGraph_level _ _ c Hg) in Hl.
      destruct (rg' !! c) as [rc|] eqn:Hrc; [|done]. exists c, rc.
      split_and!; [done|by inversion Hl|by apply (sameGraph_reachUp rg1)].
    - intros (c & rc & Hrc & Hl & R). exists c. split.
      + apply elem_of_codeRoots. split; [apply Hcov4, Hdom; by rewrite Hrc|].
        by rewrite (sameGraph_level _ _ c Hg), Hrc, <- Hl.
      + by apply (sameGraph_reachUp rg'); [apply sameGraph_sym|]. }
  split.
  - rewrite <- Hbelow, <- Habove. split.
    + intros Hfalse. split; intros Hreach.
      * specialize (Hrm k (or_introl Hreach)). rewrite Hk in Hrm. simpl in Hrm. congruence.
      * specialize (Hrm k (or_intror Hreach)). rewrite Hk in Hrm. simpl in Hrm. congruence.
    + intros [Hnb Hna]. destruct (Hfr k) as [Heq|[[?|?] _]]; [|done..].
      rewrite Hk, Hadded in Heq. destruct (rg !! k) as [r|] eqn:Hr; [|done].
      simpl in Heq. inversion Heq as [Hs]. rewrite Hs. by apply (Hunseen k r).
  - intros order Hin. rewrite elem_of_DanglingReqsByPosition, Hk. split.
    + by intros [_ (reg & [= <-] & ?)].
    + intros Hs. split; [done|]. by exists r'.
Qed.

(** C2, as stated, fails: a HIGH node without children, hence without a
    path to a CODE node, is marked by [resolveDown] from the SYSTEM node
    above it, and the accessor returns nothing. *)
Lemma childless_requirement_is_seen :
  exists rg',
    Resolve 4 StalledScenario.order StalledScenario.order StalledScenario.order
            StalledScenario.order StalledScenario.graph = Some (Linked rg') /\
    Level <$> rg' !! "REQ-0-DDLN-SWH-002" = Some HIGH /\
    Children <$> rg' !! "REQ-0-DDLN-SWH-002" = Some [] /\
    (forall c, reachDown rg' "REQ-0-DDLN-SWH-002" c -> c = "REQ-0-DDLN-SWH-002") /\
    Status <$> rg' !! "REQ-0-DDLN-SWH-002" = Some NOT_STARTED /\
    Seen <$> rg' !! "REQ-0-DDLN-SWH-002" = Some true /\
    DanglingReqsByPosition StalledScenario.order rg' = [].
Proof.
  eexists. split; [vm_compute; reflexivity|].
  split_and!; try (vm_compute; reflexivity).
  intros c R. apply reachDown_inv in R as [->|(c' & Hc' & _)]; [done|].
  vm_compute in Hc'. by apply elem_of_nil in Hc'.
Qed.

Lemma Resolve_unseen_iff_witness :
  exists rg' r',
    Resolve 4 ChainScenario.order ChainScenario.order ChainScenario.order
            ChainScenario.order ChainScenario.graph = Some (Linked rg') /\
    rg' !! "REQ-0-DDLN-SWH-001" = Some r' /\
    (Seen r' = false <->
     ~ (exists s rs, rg' !! s = Some rs /\ Level rs = SYSTEM /\
                     reachDown rg' s "REQ-0-DDLN-SWH-001") /\
     ~ (exists c rc, rg' !! c = Some rc /\ Level rc = CODE /\
                     reachUp rg' c "REQ-0-DDLN-SWH-001")) /\
    (forall order, "REQ-0-DDLN-SWH-001" ∈ order ->
       "REQ-0-DDLN-SWH-001" ∈ DanglingReqsByPosition order rg' <-> Seen r' = false).
Proof.
  eexists _, _. split; [vm_compute; reflexivity|]. split; [vm_compute; reflexivity|].
  eapply (Resolve_unseen_iff 4 ChainScenario.order ChainScenario.order ChainScenario.order
            ChainScenario.order ChainScenario.graph _ ChainScenario_unseen
            ChainScenario_covers ChainScenario_covers).
  - vm_compute. reflexivity.
  - vm_compute. reflexivity.
Defined.

(** ** Positions *)

Lemma linksAdded_positionOf (P C : string -> list string) (rg rg1 : reqGraph) (x : string) :
  linksAdded P C rg rg1 -> positionOf rg1 x = positionOf rg x.
Proof. intros H. unfold positionOf. rewrite H. by destruct (rg !! x). Qed.

Lemma linksAdded_sameLevel (P C : string -> list string) (rg rg1 : reqGraph) (x : string) :
  linksAdded P C rg rg1 -> Level <$> rg1 !! x = Level <$> rg !! x.
Proof. intros H. rewrite H. by destruct (rg !! x). Qed.

Lemma marksOnly_positionOf (h h' : reqGraph) (x : string) :
  marksOnly h h' -> positionOf h' x = positionOf h x.
Proof.
  intros H. specialize (H x). unfold positionOf.
  destruct (h !! x) as [r|], (h' !! x) as [r'|]; try done.
  simpl in *. assert (He : eraseMarks r' = eraseMarks r) by congruence.
  by apply (f_equal Position) in He.
Qed.

(** C7, amended.  After [Resolve] has returned without error, the parent
    list and the child list of every node are sorted in nondecreasing
    order of the positions that the nodes had when [Resolve] was called;
    these are the final positions for all but the CODE nodes, so a list
    without CODE node is sorted by final position as well.  Every CODE
    node has a first parent, and has the position of this parent if the
    parent is not a CODE node. *)
Theorem Resolve_links_sorted (fuel : nat) (o1 o2 o3 o4 : list string) (rg rg' : reqGraph) :
  covers o3 rg -> covers o4 rg ->
  Resolve fuel o1 o2 o3 o4 rg = Some (Linked rg') ->
  (forall x, Level <$> rg' !! x <> Some CODE -> positionOf rg' x = positionOf rg x) /\
  forall k r', rg' !! k = Some r' ->
    Sorted (byPos (positionOf rg)) (Parents r') /\
    Sorted (byPos (positionOf rg)) (Children r') /\
    ((forall p, p ∈ Parents r' -> Level <$> rg' !! p <> Some CODE) ->
     Sorted (byPos (positionOf rg')) (Parents r')) /\
    ((forall c, c ∈ Children r' -> Level <$> rg' !! c <> Some CODE) ->
     Sorted (byPos (positionOf rg')) (Children r')) /\
    (Level r' = CODE ->
     exists p ps, Parents r' = p :: ps /\
                  (Level <$> rg' !! p <> Some CODE -> Position r' = positionOf rg' p)).
Proof.
  intros Hcov3 Hcov4 Hres.
  destruct (Resolve_Linked _ _ _ _ _ _ _ Hres) as (rg1 & rg2 & _ & Hadded & Hdown & Hup).
  destruct (downPass_post fuel rg1 o2 rg1 rg2 (sameGraph_refl _) Hdown) as ((Hm & _) & _).
  destruct (sortPass_post o3 rg2) as (Hrel & _ & Hsorted).
  set (rg3 := sortPass o3 rg2) in *.
  destruct (upPass_post fuel rg3 o4 rg3 rg' (sameGraph_refl _) Hup)
    as ((Hupo & _) & _ & Hpos & Hcode).
  assert (Hpos3 : forall x, positionOf rg3 x = positionOf rg x).
  { intros x. rewrite (relinked_positionOf rg2 rg3 x Hrel).
    rewrite (marksOnly_positionOf rg1 rg2 x Hm).
    apply (linksAdded_positionOf _ _ rg rg1 x Hadded). }
  assert (Hlevel3 : forall x, Level <$> rg' !! x = Level <$> rg3 !! x).
  { intros x. symmetry. by apply sameGraph_level, upOnly_sameGraph. }
  assert (Hdom : forall x, is_Some (rg3 !! x) -> is_Some (rg !! x)).
  { intros x Hx.
    apply (sameGraph_is_Some _ _ x (sameGraph_sym _ _ (relinked_sameGraph _ _ Hrel))) in Hx.
    apply (sameGraph_is_Some _ _ x (sameGraph_sym _ _ (marksOnly_sameGraph _ _ Hm))) in Hx.
    by apply (linksAdded_is_Some _ _ _ _ x Hadded). }
  assert (Hfinal : forall x, Level <$> rg' !! x <> Some CODE ->
            positionOf rg' x = positionOf rg x).
  { intros x Hx. rewrite <- Hpos3. unfold positionOf.
    assert (Hnr : x ∉ codeRoots rg3 o4).
    { intros [_ Hl]%elem_of_codeRoots. by rewrite Hlevel3 in Hx. }
    specialize (Hpos x Hnr). by destruct (rg' !! x), (rg3 !! x); simplify_eq/=. }
  split; [done|]. intros k r' Hk.
  destruct (upOnly_lookup _ _ _ _ Hupo Hk) as (r3 & Hr3 & He).
  assert (HP : Parents r' = Parents r3) by (by apply (f_equal Parents) in He).
  assert (HC : Children r' = Children r3) by (by apply (f_equal Children) in He).
  assert (Hk3 : k ∈ o3) by (apply Hcov3, Hdom; by rewrite Hr3).
  destruct (Hsorted k r3 Hk3 Hr3) as [HsP HsC].
  assert (Hext : forall l, Sorted (byPos (positionOf rg2)) l -> Sorted (byPos (positionOf rg)) l).
  { intros l. apply Sorted_byPos_ext. intros y _.
    rewrite (marksOnly_positionOf rg1 rg2 y Hm).
    apply (linksAdded_positionOf _ _ rg rg1 y Hadded). }
  rewrite HP, HC. split_and!.
  - by apply Hext.
  - by apply Hext.
  - intros Hnc. apply (Sorted_byPos_ext (positionOf rg)); [|by apply Hext].
    intros y Hy. symmetry. by apply Hfinal, Hnc.
  - intros Hnc. apply (Sorted_byPos_ext (positionOf rg)); [|by apply Hext].
    intros y Hy. symmetry. by apply Hfinal, Hnc.
  - intros Hl.
    assert (Hroot : k ∈ codeRoots rg3 o4).
    { apply elem_of_codeRoots. split; [apply Hcov4, Hdom; by rewrite Hr3|].
      by rewrite <- Hlevel3, Hk, <- Hl. }
    destruct (Hcode k Hroot) as (r'' & p & ps & Hr'' & Hps & Hp).
    rewrite Hk in Hr''. inversion Hr''; subst r''.
    exists p, ps. split; [by rewrite <- HP|]. intros Hnc.
    rewrite Hp by (by rewrite <- Hlevel3). rewrite Hpos3. symmetry. by apply Hfinal.
Qed.

(** C7, as stated, fails: the children of the second LOW node are sorted
    while both files still have position 0; then the first file takes
    position 3 and the second position 2, and they stay in this order. *)
Lemma children_unsorted_after_Resolve :
  exists rg',
    Resolve 4 TwoFilesScenario.order TwoFilesScenario.order TwoFilesScenario.order
            TwoFilesScenario.order TwoFilesScenario.graph = Some (Linked rg') /\
    Children <$> rg' !! "REQ-0-DDLN-SWL-002" = Some ["/repo/a.go"; "/repo/b.go"] /\
    positionOf rg' "/repo/a.go" = 3 /\
    positionOf rg' "/repo/b.go" = 2 /\
    ~ Sorted (byPos (positionOf rg')) ["/repo/a.go"; "/repo/b.go"].
Proof.
  eexists. split; [vm_compute; reflexivity|].
  split_and!; try (vm_compute; reflexivity).
  intros Hs. apply Sorted_inv in Hs as [_ Hhd]. apply HdRel_inv in Hhd.
  unfold byPos in Hhd. vm_compute in Hhd. by apply Hhd.
Qed.

Lemma ChainScenario_Resolve :
  Resolve 4 ChainScenario.order ChainScenario.order ChainScenario.order
          ChainScenario.order ChainScenario.graph = Some (Linked ChainScenario_resolved).
Proof. vm_compute. reflexivity. Qed.

Lemma Resolve_links_sorted_witness :
  exists r',
    ChainScenario_resolved !! "/repo/a.go" = Some r' /\
    Sorted (byPos (positionOf ChainScenario.graph)) (Parents r') /\
    (Level r' = CODE ->
     exists p ps, Parents r' = p :: ps /\
                  (Level <$> ChainScenario_resolved !! p <> Some CODE ->
                   Position r' = positionOf ChainScenario_resolved p)).
Proof.
  eexists. split; [vm_compute; reflexivity|].
  destruct (Resolve_links_sorted 4 ChainScenario.order ChainScenario.order
              ChainScenario.order ChainScenario.order ChainScenario.graph
              ChainScenario_resolved ChainScenario_covers ChainScenario_covers
              ChainScenario_Resolve) as (_ & Hnodes).
  edestruct (Hnodes "/repo/a.go") as (HP & _ & _ & _ & Hcode).
  - vm_compute. reflexivity.
  - split; [exact HP|exact Hcode].
Defined.

(** ** Idempotence *)

(** C8.  When status propagation (the loop of [resolveDown] over the
    SYSTEM nodes, the sorting loop and the loop of [resolveUp] over the
    CODE nodes) has returned on a linked graph, running it again on the
    result, with the same fuel and in whatever order over the same nodes,
    returns as well, and every node has the status and the reached marker
    it had after the first run. *)
Theorem propagate_idempotent (fuel : nat) (o2 o3 o4 o2' o3' o4' : list string)
    (rg rg1 : reqGraph) :
  propagate fuel o2 o3 o4 rg = Some (Linked rg1) ->
  (forall k, k ∈ o2' -> k ∈ o2) -> (forall k, k ∈ o4' -> k ∈ o4) ->
  exists rg2,
    propagate fuel o2' o3' o4' rg1 = Some (Linked rg2) /\
    forall k, Status <$> rg2 !! k = Status <$> rg1 !! k /\
              Seen <$> rg2 !! k = Seen <$> rg1 !! k.
Proof.
  intros Hprop Ho2 Ho4.
  destruct (propagate_post fuel rg o2 o3 o4 rg rg1 (sameGraph_refl _) Hprop)
    as (Hg1 & Hdef & Hroots & _ & Hrm1 & _ & Hsm1).
  assert (Hsys : forall s, s ∈ systemRoots rg o2' -> s ∈ systemRoots rg o2).
  { intros s [Hs Hl]%elem_of_systemRoots. apply elem_of_systemRoots. auto. }
  assert (Hcode : forall c, c ∈ codeRoots rg o4' -> c ∈ codeRoots rg o4).
  { intros c [Hc Hl]%elem_of_codeRoots. apply elem_of_codeRoots. auto. }
  assert (Hbelow : forall x, belowSystem rg o2' x -> belowSystem rg o2 x).
  { intros x (s & Hs & R). exists s. auto. }
  assert (Habove : forall x, aboveCode rg o4' x -> aboveCode rg o4 x).
  { intros x (c & Hc & R). exists c. auto. }
  destruct (downPass_total fuel rg o2' rg1 Hg1) as [hd Hdown].
  { intros s Hs. by apply Hdef, Hsys. }
  destruct (downPass_post fuel rg o2' rg1 hd Hg1 Hdown) as ((Hm & _) & _).
  assert (Hgs : sameGraph rg (sortPass o3' hd)).
  { apply (sameGraph_trans _ rg1); [done|].
    apply (sameGraph_trans _ hd); [by apply marksOnly_sameGraph|].
    apply relinked_sameGraph, sortPass_post. }
  destruct (upPass_total fuel rg o4' (sortPass o3' hd) Hgs) as [rg2 Hup].
  { intros c Hc. by apply Hroots, Hcode. }
  assert (Hprop2 : propagate fuel o2' o3' o4' rg1 = Some (Linked rg2)).
  { unfold propagate. by rewrite Hdown. }
  exists rg2. split; [done|]. intros k.
  destruct (propagate_post fuel rg o2' o3' o4' rg1 rg2 Hg1 Hprop2)
    as (_ & _ & _ & Hfr2 & _ & Hst2 & _).
  split.
  - destruct (Hst2 k) as [Heq|(Hb & f & st & Hf & ->)]; [done|].
    destruct (Hsm1 k (Hbelow k Hb)) as (f1 & st1 & Hf1 & ->).
    by rewrite (statusOf_agree _ _ _ _ _ _ Hf Hf1).
  - destruct (Hfr2 k) as [Heq|[[Hb|Ha] ->]]; [done| |].
    + symmetry. apply Hrm1. left. by apply Hbelow.
    + symmetry. apply Hrm1. right. by apply Habove.
Qed.

Lemma ChainScenario_propagate :
  propagate 4 ChainScenario.order ChainScenario.order ChainScenario.order
            ChainScenario_linked = Some (Linked ChainScenario_propagated).
Proof. vm_compute. reflexivity. Qed.

Lemma propagate_idempotent_witness :
  exists rg2,
    propagate 4 ChainScenario.order ChainScenario.order ChainScenario.order
              ChainScenario_propagated = Some (Linked rg2) /\
    forall k, Status <$> rg2 !! k = Status <$> ChainScenario_propagated !! k /\
              Seen <$> rg2 !! k = Seen <$> ChainScenario_propagated !! k.
Proof.
  apply (propagate_idempotent 4 ChainScenario.order ChainScenario.order ChainScenario.order
           ChainScenario.order ChainScenario.order ChainScenario.order
           ChainScenario_linked ChainScenario_propagated ChainScenario_propagate).
  - intros k Hk. exact Hk.
  - intros k Hk. exact Hk.
Defined.

(** * Further properties *)

(** ** What [Resolve] leaves of a graph *)

Lemma marksOnly_ingestedFields (h h' : reqGraph) (x : string) :
  marksOnly h h' -> ingestedFields <$> h' !! x = ingestedFields <$> h !! x.
Proof.
  intros H. specialize (H x). destruct (h !! x) as [r|], (h' !! x) as [r'|]; try done.
  simpl in *. assert (He : eraseMarks r' = eraseMarks r) by congruence.
  f_equal. by apply (f_equal ingestedFields) in He.
Qed.

Lemma upOnly_ingestedFields (h h' : reqGraph) (x : string) :
  upOnly h h' -> ingestedFields <$> h' !! x = ingestedFields <$> h !! x.
Proof.
  intros H. specialize (H x). destruct (h !! x) as [r|], (h' !! x) as [r'|]; try done.
  simpl in *. assert (He : eraseUp r' = eraseUp r) by congruence.
  f_equal. by apply (f_equal ingestedFields) in He.
Qed.

Lemma relinked_ingestedFields (h h' : reqGraph) (x : string) :
  relinked h h' -> ingestedFields <$> h' !! x = ingestedFields <$> h !! x.
Proof.
  intros H. specialize (H x). destruct (h !! x) as [r|], (h' !! x) as [r'|]; try done.
  destruct H as (E & _). simpl. f_equal. by rewrite E.
Qed.

Lemma linksAdded_ingestedFields (P C : string -> list string) (rg rg1 : reqGraph) (x : string) :
  linksAdded P C rg rg1 -> ingestedFields <$> rg1 !! x = ingestedFields <$> rg !! x.
Proof. intros H. rewrite H. by destruct (rg !! x). Qed.

Lemma seen_le_marks (g h : reqGraph) (roots : list string) (h' : reqGraph) (x : string) :
  downPost g h roots h' -> Seen <$> h !! x = Some true -> Seen <$> h' !! x = Some true.
Proof.
  intros (_ & Hfr & _) Hs. destruct (Hfr x) as [->|[_ (r' & -> & Hr' & _)]]; [done|].
  simpl. by rewrite Hr'.
Qed.

Lemma upPass_not_LinkErrors (fuel : nat) (order : list string) (h h' : reqGraph) (e : string) :
  upPass fuel order h <> Some (LinkErrors e h').
Proof.
  unfold upPass.
  assert (Hfold : forall acc, (forall e0 h0, acc <> Some (LinkErrors e0 h0)) ->
            fold_left (upReq fuel) order acc <> Some (LinkErrors e h')).
  { induction order as [|k order IH]; intros acc Hacc; simpl; [done|].
    apply IH. intros e0 h0. unfold upReq.
    destruct acc as [[h1| |]|]; try done.
    destruct (h1 !! k) as [req|]; [|done].
    destruct (decide (Level req = CODE)); [|done].
    destruct (resolveUp fuel h1 k) as [h2|]; simpl; [|done].
    destruct (h2 !! k) as [req1|]; [|done].
    by destruct (Parents req1). }
  by apply Hfold.
Qed.

(** [Resolve], whatever its outcome, after the first loop. *)
Lemma Resolve_graph (fuel : nat) (o1 o2 o3 o4 : list string) (rg rg' : reqGraph)
    (res : resolved) :
  Resolve fuel o1 o2 o3 o4 rg = Some res -> graphOf res = Some rg' ->
  exists rg1,
    linksAdded (fun x => flat_map (nodeP rg x) o1)
               (fun x => flat_map (nodeC rg x) o1) rg rg1 /\
    sameGraph rg1 rg' /\
    (forall x, ingestedFields <$> rg' !! x = ingestedFields <$> rg1 !! x) /\
    (forall x, Seen <$> rg1 !! x = Some true -> Seen <$> rg' !! x = Some true) /\
    (linkErrors o1 rg = [] <-> res = Linked rg').
Proof.
  intros Hres Hg. destruct (linkErrors o1 rg) as [|e errs] eqn:Herrs.
  - destruct (Resolve_no_errors fuel o1 o2 o3 o4 rg Herrs) as (rg1 & Hadded & Heq).
    rewrite Heq in Hres. destruct (downPass fuel o2 rg1) as [rg2|] eqn:Hdown; [|done].
    simpl in Hres.
    assert (Hlinked : res = Linked rg').
    { destruct res as [h|e h|]; [by inversion Hg| |done].
      by apply upPass_not_LinkErrors in Hres. }
    subst res. exists rg1.
    destruct (downPass_post fuel rg1 o2 rg1 rg2 (sameGraph_refl _) Hdown) as (Hpost & _).
    pose proof Hpost as (Hm & _).
    destruct (sortPass_post o3 rg2) as (Hrel & _).
    destruct (upPass_post fuel (sortPass o3 rg2) o4 _ rg' (sameGraph_refl _) Hres)
      as ((Hup & Hfr & _) & _).
    split_and!.
    + done.
    + apply (sameGraph_trans _ rg2); [by apply marksOnly_sameGraph|].
      apply (sameGraph_trans _ (sortPass o3 rg2)); [by apply relinked_sameGraph|].
      by apply upOnly_sameGraph.
    + intros x. rewrite (upOnly_ingestedFields _ _ x Hup).
      rewrite (relinked_ingestedFields _ _ x Hrel). by apply marksOnly_ingestedFields.
    + intros x Hs. apply (seen_le_marks _ _ _ _ x Hpost) in Hs.
      destruct (relinked_fields rg2 (sortPass o3 rg2) x Hrel) as (_ & Hseen & _).
      rewrite <- Hseen in Hs. destruct (Hfr x) as [->|[_ ->]]; done.
    + done.
  - destruct (Resolve_with_errors fuel o1 o2 o3 o4 rg) as (rg1 & Heq & Hadded);
      [by rewrite Herrs|].
    rewrite Herrs in Heq. rewrite Heq in Hres. inversion Hres; subst res.
    simpl in Hg. inversion Hg; subst rg'. exists rg1.
    split_and!; [done|apply sameGraph_refl|done|done|].
    split; [done|]. intros [=].
Qed.

(** X1.  Whatever [Resolve] returns, the graph it leaves has the nodes
    it was given, under the same keys, each with the identifier, level,
    path, hash, declared parents, body and attributes it had; and a node
    that was marked as reached stays marked. *)
Theorem Resolve_keeps_records (fuel : nat) (o1 o2 o3 o4 : list string) (rg rg' : reqGraph)
    (res : resolved) :
  Resolve fuel o1 o2 o3 o4 rg = Some res -> graphOf res = Some rg' ->
  forall k,
    ingestedFields <$> rg' !! k = ingestedFields <$> rg !! k /\
    (Seen <$> rg !! k = Some true -> Seen <$> rg' !! k = Some true).
Proof.
  intros Hres Hg k.
  destruct (Resolve_graph _ _ _ _ _ _ _ _ Hres Hg) as (rg1 & Hadded & _ & Hid & Hseen & _).
  split.
  - rewrite Hid. by apply (linksAdded_ingestedFields _ _ rg rg1 k Hadded).
  - intros Hs. apply Hseen. rewrite Hadded. by destruct (rg !! k).
Qed.

Lemma Resolve_keeps_records_witness :
  ingestedFields <$> ChainScenario_resolved !! "/repo/a.go"
    = ingestedFields <$> ChainScenario.graph !! "/repo/a.go" /\
  (Seen <$> ChainScenario.graph !! "/repo/a.go" = Some true ->
   Seen <$> ChainScenario_resolved !! "/repo/a.go" = Some true).
Proof.
  apply (Resolve_keeps_records 4 ChainScenario.order ChainScenario.order ChainScenario.order
           ChainScenario.order ChainScenario.graph ChainScenario_resolved
           (Linked ChainScenario_resolved) ChainScenario_Resolve eq_refl "/repo/a.go").
Defined.

(** X2.  On a graph without links, whatever [Resolve] returns,
    the links of the graph it leaves are symmetric: [p] is among the
    parents of [k] if and only if [k] is among the children of [p]. *)
Theorem Resolve_links_symmetric (fuel : nat) (o1 o2 o3 o4 : list string) (rg rg' : reqGraph)
    (res : resolved) :
  unlinked rg ->
  Resolve fuel o1 o2 o3 o4 rg = Some res -> graphOf res = Some rg' ->
  forall k p, p ∈ parentsOf rg' k <-> k ∈ childrenOf rg' p.
Proof.
  intros Hun Hres Hg k p.
  destruct (Resolve_graph _ _ _ _ _ _ _ _ Hres Hg) as (rg1 & Hadded & Hsame & _).
  rewrite <- (sameGraph_parents rg1 rg' k p Hsame).
  rewrite <- (sameGraph_children rg1 rg' p k Hsame).
  rewrite (linked_parentsOf _ _ rg rg1 k p Hun Hadded).
  rewrite (linked_childrenOf _ _ rg rg1 p k Hun Hadded).
  rewrite elem_of_linkedParents, elem_of_linkedChildren. split.
  - intros (_ & Hk & req & Hreq & Hp & Hsome). eauto.
  - intros (Hsome & Hk & req & Hreq & Hp). split; [by rewrite Hreq|]. eauto.
Qed.

Lemma Resolve_links_symmetric_witness :
  "REQ-0-DDLN-SWH-001" ∈ parentsOf ChainScenario_resolved "/repo/a.go" <->
  "/repo/a.go" ∈ childrenOf ChainScenario_resolved "REQ-0-DDLN-SWH-001".
Proof.
  apply (Resolve_links_symmetric 4 ChainScenario.order ChainScenario.order ChainScenario.order
           ChainScenario.order ChainScenario.graph ChainScenario_resolved
           (Linked ChainScenario_resolved) ChainScenario_unlinked ChainScenario_Resolve eq_refl).
Defined.
Lemma flat_map_nil_all {A B} (f : A -> list B) (l : list A) :
  (forall x, x ∈ l -> f x = []) -> flat_map f l = [].
Proof.
  induction l as [|y l IH]; intros H; simpl; [done|].
  rewrite (H y) by left. simpl. apply IH. intros x Hx. apply H. by right.
Qed.

Lemma flat_map_single {A B} `{EqDecision A} (f : A -> list B) (l : list A) (x : A) :
  NoDup l -> x ∈ l -> (forall k, k ≠ x -> f k = []) -> flat_map f l = f x.
Proof.
  intros Hnd Hx Hf. induction Hnd as [|y l Hy Hnd IH]; [by apply elem_of_nil in Hx|].
  simpl. apply elem_of_cons in Hx as [->|Hx].
  - rewrite flat_map_nil_all; [by rewrite app_nil_r|].
    intros k Hk. apply Hf. by intros ->.
  - rewrite (Hf y) by (by intros ->). simpl. by apply IH.
Qed.

Lemma nodeP_other (rg : reqGraph) (x k : string) : k ≠ x -> nodeP rg x k = [].
Proof.
  intros Hne. unfold nodeP. destruct (rg !! k) as [req|]; simpl; [|done].
  apply flat_map_nil_all. intros pid _. unfold stepP. by rewrite decide_False.
Qed.

Lemma nodeP_self (rg : reqGraph) (x : string) (req : Req) :
  rg !! x = Some req -> nodeP rg x x = resolvedParents rg req.
Proof.
  intros Hx. unfold nodeP, resolvedParents. rewrite Hx. simpl.
  induction (ParentIds req) as [|pid pids IH]; simpl; [done|].
  unfold stepP at 1. rewrite decide_True by done. rewrite IH.
  destruct (rg !! pid) as [parent|] eqn:Hp.
  - by rewrite bool_decide_eq_true_2 by eauto.
  - rewrite bool_decide_eq_false_2; [done|]. by intros [? [=]].
Qed.

Lemma resolvedParents_all (order : list string) (rg : reqGraph) (k : string) (req : Req) :
  linkErrors order rg = [] -> k ∈ order -> rg !! k = Some req ->
  resolvedParents rg req = ParentIds req.
Proof.
  intros Herrs Hk Hreq.
  destruct (linkErrors_complete order rg k req Hk Hreq) as (_ & Hmissing & _).
  rewrite Herrs in Hmissing. unfold resolvedParents.
  assert (Hall : forall pid, pid ∈ ParentIds req -> is_Some (rg !! pid)).
  { intros pid Hpid. destruct (rg !! pid) eqn:Hp; [eauto|].
    by apply Hmissing, elem_of_nil in Hpid. }
  clear Hmissing. induction (ParentIds req) as [|pid pids IH]; simpl; [done|].
  rewrite bool_decide_eq_true_2 by (apply Hall; left).
  f_equal. apply IH. intros p Hp. apply Hall. by right.
Qed.

(** X3.  On a graph without links, when the first loop visits every
    key at most once, the parents of every visited node are, whatever
    [Resolve] returns, its declared parents that are in the graph, as often
    as they are declared; when [Resolve] returns without error, they are
    all its declared parents. *)
Theorem Resolve_parents_declared (fuel : nat) (o1 o2 o3 o4 : list string)
    (rg rg' : reqGraph) (res : resolved) :
  unlinked rg -> NoDup o1 ->
  Resolve fuel o1 o2 o3 o4 rg = Some res -> graphOf res = Some rg' ->
  forall k req r', k ∈ o1 -> rg !! k = Some req -> rg' !! k = Some r' ->
    Parents r' ≡ₚ resolvedParents rg req /\
    (res = Linked rg' -> Parents r' ≡ₚ ParentIds req).
Proof.
  intros Hun Hnd Hres Hg k req r' Hk Hreq Hr'.
  destruct (Resolve_graph _ _ _ _ _ _ _ _ Hres Hg) as (rg1 & Hadded & Hsame & _ & _ & Herrs).
  assert (Hperm : Parents r' ≡ₚ resolvedParents rg req).
  { pose proof (Hsame k) as Hk1. unfold sameNode in Hk1. rewrite Hr', Hadded, Hreq in Hk1.
    simpl in Hk1. destruct Hk1 as (_ & _ & Hp). rewrite <- Hp.
    rewrite (proj1 (Hun k req Hreq)). simpl.
    rewrite (flat_map_single (nodeP rg k) o1 k Hnd Hk) by apply nodeP_other.
    by rewrite (nodeP_self rg k req Hreq). }
  split; [done|]. intros Hl. rewrite Hperm.
  by rewrite (resolvedParents_all o1 rg k req (proj2 Herrs Hl) Hk Hreq).
Qed.

Lemma ChainScenario_order_NoDup : NoDup ChainScenario.order.
Proof. apply (bool_decide_unpack _). by vm_compute. Qed.

Lemma Resolve_parents_declared_witness :
  exists r',
    ChainScenario_resolved !! "/repo/a.go" = Some r' /\
    Parents r' ≡ₚ resolvedParents ChainScenario.graph ChainScenario.code /\
    (Linked ChainScenario_resolved = Linked ChainScenario_resolved ->
     Parents r' ≡ₚ ParentIds ChainScenario.code).
Proof.
  eexists. split; [vm_compute; reflexivity|].
  apply (Resolve_parents_declared 4 ChainScenario.order ChainScenario.order
           ChainScenario.order ChainScenario.order ChainScenario.graph
           ChainScenario_resolved (Linked ChainScenario_resolved)
           ChainScenario_unlinked ChainScenario_order_NoDup ChainScenario_Resolve eq_refl
           "/repo/a.go" ChainScenario.code).
  - left.
  - vm_compute. reflexivity.
  - vm_compute. reflexivity.
Defined.

(** ** Calling [Resolve] again *)

Lemma Resolve_links_perm (fuel : nat) (o1 o2 o3 o4 : list string) (rg rg' : reqGraph)
    (res : resolved) :
  Resolve fuel o1 o2 o3 o4 rg = Some res -> graphOf res = Some rg' ->
  forall k req r', rg !! k = Some req -> rg' !! k = Some r' ->
    Parents r' ≡ₚ Parents req ++ flat_map (nodeP rg k) o1 /\
    Children r' ≡ₚ Children req ++ flat_map (nodeC rg k) o1.
Proof.
  intros Hres Hg k req r' Hreq Hr'.
  destruct (Resolve_graph _ _ _ _ _ _ _ _ Hres Hg) as (rg1 & Hadded & Hsame & _).
  pose proof (Hsame k) as Hk. unfold sameNode in Hk. rewrite Hr', Hadded, Hreq in Hk.
  simpl in Hk. destruct Hk as (_ & Hc & Hp). by split.
Qed.

Lemma nodeP_fields (g h : reqGraph) (x k : string) :
  (forall y, ingestedFields <$> h !! y = ingestedFields <$> g !! y) ->
  nodeP h x k = nodeP g x k.
Proof.
  intros H. unfold nodeP. pose proof (H k) as Hk.
  destruct (g !! k) as [r|], (h !! k) as [r'|]; try done. simpl in *.
  assert (Hpids : ParentIds r' = ParentIds r).
  { inversion Hk as [He]. done. }
  rewrite Hpids. clear Hk Hpids. induction (ParentIds r) as [|pid pids IH]; simpl; [done|].
  rewrite IH. f_equal. unfold stepP. destruct (decide (x = k)); [|done].
  pose proof (H pid) as Hpid. by destruct (g !! pid), (h !! pid).
Qed.

Lemma nodeC_fields (g h : reqGraph) (x k : string) :
  (forall y, ingestedFields <$> h !! y = ingestedFields <$> g !! y) ->
  nodeC h x k = nodeC g x k.
Proof.
  intros H. unfold nodeC. pose proof (H k) as Hk.
  destruct (g !! k) as [r|], (h !! k) as [r'|]; try done. simpl in *.
  assert (Hpids : ParentIds r' = ParentIds r).
  { inversion Hk as [He]. done. }
  by rewrite Hpids.
Qed.

Lemma flat_map_ext_all {A B} (f g : A -> list B) (l : list A) :
  (forall x, f x = g x) -> flat_map f l = flat_map g l.
Proof. intros H. induction l as [|x l IH]; simpl; [done|]. by rewrite H, IH. Qed.

(** X4.  [Resolve] is not to be called twice: a second call on the
    graph that a first call has left of a graph without links appends every
    link once more, so every node has each of its parents and children
    twice as often. *)
Theorem Resolve_again_doubles_links (fuel fuel' : nat) (o1 o2 o3 o4 o1' o2' o3' o4' : list string)
    (rg rg' rg'' : reqGraph) (res res' : resolved) :
  unlinked rg -> o1' ≡ₚ o1 ->
  Resolve fuel o1 o2 o3 o4 rg = Some res -> graphOf res = Some rg' ->
  Resolve fuel' o1' o2' o3' o4' rg' = Some res' -> graphOf res' = Some rg'' ->
  forall k r' r'', rg' !! k = Some r' -> rg'' !! k = Some r'' ->
    Parents r'' ≡ₚ Parents r' ++ Parents r' /\
    Children r'' ≡ₚ Children r' ++ Children r'.
Proof.
  intros Hun Hperm Hres Hg Hres' Hg' k r' r'' Hr' Hr''.
  assert (Hfields : forall y, ingestedFields <$> rg' !! y = ingestedFields <$> rg !! y).
  { intros y.
    destruct (Resolve_graph _ _ _ _ _ _ _ _ Hres Hg) as (rg1 & Hadded & _ & Hid & _).
    rewrite Hid. by apply (linksAdded_ingestedFields _ _ rg rg1 y Hadded). }
  assert (Hreq : exists req, rg !! k = Some req).
  { pose proof (Hfields k) as Hk. rewrite Hr' in Hk. destruct (rg !! k); [eauto|done]. }
  destruct Hreq as [req Hreq].
  destruct (Resolve_links_perm _ _ _ _ _ _ _ _ Hres Hg k req r' Hreq Hr') as (HP & HC).
  destruct (Resolve_links_perm _ _ _ _ _ _ _ _ Hres' Hg' k r' r'' Hr' Hr'') as (HP' & HC').
  destruct (Hun k req Hreq) as (HnP & HnC). rewrite HnP in HP. rewrite HnC in HC.
  simpl in HP, HC. split.
  - rewrite HP'. apply Permutation_app_head.
    rewrite (flat_map_ext_all _ (nodeP rg k)) by (intros x; by apply nodeP_fields).
    rewrite HP. by apply Permutation_flat_map.
  - rewrite HC'. apply Permutation_app_head.
    rewrite (flat_map_ext_all _ (nodeC rg k)) by (intros x; by apply nodeC_fields).
    rewrite HC. by apply Permutation_flat_map.
Qed.

Lemma ChainScenario_Resolve_again :
  Resolve 4 ChainScenario.order ChainScenario.order ChainScenario.order
          ChainScenario.order ChainScenario_resolved
    = Some (Linked ChainScenario_resolved_again).
Proof. vm_compute. reflexivity. Qed.

Lemma Resolve_again_doubles_links_witness :
  exists r' r'',
    ChainScenario_resolved !! "REQ-0-DDLN-SWH-001" = Some r' /\
    ChainScenario_resolved_again !! "REQ-0-DDLN-SWH-001" = Some r'' /\
    Parents r'' ≡ₚ Parents r' ++ Parents r' /\
    Children r'' ≡ₚ Children r' ++ Children r'.
Proof.
  eexists _, _. split; [vm_compute; reflexivity|]. split; [vm_compute; reflexivity|].
  apply (Resolve_again_doubles_links 4 4 ChainScenario.order ChainScenario.order
           ChainScenario.order ChainScenario.order ChainScenario.order ChainScenario.order
           ChainScenario.order ChainScenario.order ChainScenario.graph
           ChainScenario_resolved ChainScenario_resolved_again
           (Linked ChainScenario_resolved) (Linked ChainScenario_resolved_again)
           ChainScenario_unlinked (reflexivity _) ChainScenario_Resolve eq_refl
           ChainScenario_Resolve_again eq_refl "REQ-0-DDLN-SWH-001").
  - vm_compute. reflexivity.
  - vm_compute. reflexivity.
Defined.

(** ** The panic of [req.Parents[0]] *)

Lemma upPass_panic (fuel : nat) (g : reqGraph) (order : list string) :
  forall h,
    sameGraph g h -> upPass fuel order h = Some IndexOutOfRange ->
    exists c, c ∈ codeRoots g order /\ parentsOf g c = [].
Proof.
  induction order as [|k order IH]; intros h Hg Hpass; [done|].
  rewrite upPass_cons in Hpass. unfold codeRoots. simpl. fold (codeRoots g order).
  rewrite (sameGraph_level g h k Hg).
  assert (Hrest : forall h2, sameGraph g h2 -> upPass fuel order h2 = Some IndexOutOfRange ->
            forall b : bool, exists c, c ∈ (if b then k :: codeRoots g order else codeRoots g order)
                                /\ parentsOf g c = []).
  { intros h2 Hg2 Hp2 b. destruct (IH h2 Hg2 Hp2) as (c & Hc & Hnil). exists c.
    split; [|done]. destruct b; [by right|done]. }
  destruct (h !! k) as [req|] eqn:Hk; simpl; [|by apply (Hrest h Hg Hpass false)].
  destruct (decide (Level req = CODE)) as [Hl|Hl];
    [|rewrite bool_decide_eq_false_2 by congruence; by apply (Hrest h Hg Hpass false)].
  rewrite bool_decide_eq_true_2 by congruence.
  destruct (resolveUp fuel h k) as [h1|] eqn:Hres; [|done].
  destruct (resolveUp_post _ g _ _ _ Hg Hres) as ((Hup & _) & _).
  assert (Hg1 : sameGraph g h1).
  { apply (sameGraph_trans _ h); [done|]. by apply upOnly_sameGraph. }
  destruct (h1 !! k) as [req1|] eqn:Hk1; [|done].
  destruct (Parents req1) as [|p ps] eqn:Hps.
  - exists k. split; [left|]. pose proof (Hg1 k) as Hgk. unfold sameNode, parentsOf in *.
    rewrite Hk1 in Hgk. destruct (g !! k) as [r0|]; [|done]. simpl.
    destruct Hgk as (_ & _ & Hperm). rewrite Hps in Hperm.
    by apply Permutation_nil_r in Hperm.
  - refine (Hrest _ _ Hpass true).
    apply (sameGraph_trans _ h1); [done|].
    by apply upOnly_sameGraph, (upOnly_insert h1 k req1).
Qed.

(** X5.  When the first loop visits every node, [Resolve] does not
    panic on [req.Parents[0]]: a CODE node without a parent in the graph is
    a linking error, and [Resolve] returns it before it comes to the loop
    over the CODE nodes. *)
Theorem Resolve_no_index_panic (fuel : nat) (o1 o2 o3 o4 : list string) (rg : reqGraph) :
  covers o1 rg -> Resolve fuel o1 o2 o3 o4 rg <> Some IndexOutOfRange.
Proof.
  intros Hcov Hres. destruct (linkErrors o1 rg) as [|e errs] eqn:Herrs.
  - destruct (Resolve_no_errors fuel o1 o2 o3 o4 rg Herrs) as (rg1 & Hadded & Heq).
    rewrite Heq in Hres. destruct (downPass fuel o2 rg1) as [rg2|] eqn:Hdown; [|done].
    simpl in Hres.
    destruct (downPass_post fuel rg1 o2 rg1 rg2 (sameGraph_refl _) Hdown) as ((Hm & _) & _).
    assert (Hg3 : sameGraph rg1 (sortPass o3 rg2)).
    { apply (sameGraph_trans _ rg2); [by apply marksOnly_sameGraph|].
      apply relinked_sameGraph, sortPass_post. }
    destruct (upPass_panic fuel rg1 o4 _ Hg3 Hres) as (c & [_ Hl]%elem_of_codeRoots & Hnil).
    unfold parentsOf in Hnil. rewrite Hadded in Hl, Hnil.
    destruct (rg !! c) as [req|] eqn:Hreq; [|done]. simpl in Hl, Hnil.
    apply app_eq_nil in Hnil as [_ Hnil].
    assert (Hc : c ∈ o1) by (apply Hcov; by rewrite Hreq).
    destruct (linkErrors_complete o1 rg c req Hc Hreq) as (Hnone & Hmissing & _).
    rewrite Herrs in Hnone, Hmissing.
    destruct (ParentIds req) as [|pid pids] eqn:Hpids.
    { apply (elem_of_nil (errNoParents req)), Hnone; [done|]. inversion Hl as [Hl']. 
      by rewrite Hl'. }
    assert (Hpid : is_Some (rg !! pid)).
    { destruct (rg !! pid) eqn:Hp; [eauto|]. exfalso.
      apply (elem_of_nil (errInvalid req pid " does not exist.")), Hmissing; [left|done]. }
    assert (Hin : pid ∈ flat_map (nodeP rg c) o1).
    { apply elem_of_linkedParents. split; [done|]. exists req. rewrite Hpids.
      split_and!; [done|left|done]. }
    rewrite Hnil in Hin. by apply elem_of_nil in Hin.
  - destruct (Resolve_with_errors fuel o1 o2 o3 o4 rg) as (rg1 & Heq & _);
      [by rewrite Herrs|]. congruence.
Qed.

Lemma Resolve_no_index_panic_witness :
  covers ChainScenario.order ChainScenario.graph /\
  Resolve 4 ChainScenario.order ChainScenario.order ChainScenario.order
          ChainScenario.order ChainScenario.graph <> Some IndexOutOfRange.
Proof.
  split; [exact ChainScenario_covers|].
  apply (Resolve_no_index_panic 4 ChainScenario.order ChainScenario.order
           ChainScenario.order ChainScenario.order ChainScenario.graph
           ChainScenario_covers).
Defined.
(** ** The statuses that [Resolve] leaves *)

Lemma statusOf_completed_child (fuel : nat) (g : reqGraph) (x c : string) :
  statusOf (S fuel) g x = Some COMPLETED -> c ∈ childrenOf g x ->
  statusOf fuel g c = Some COMPLETED.
Proof.
  rewrite statusOf_unfold. unfold childrenOf.
  destruct (g !! x) as [r|]; [|done]. simpl.
  destruct (_ && _); [done|].
  destruct (forallb (fun c => bool_decide (is_Some (statusOf fuel g c))) (Children r));
    [|done].
  destruct (forallb (fun c => bool_decide (statusOf fuel g c = Some COMPLETED)) (Children r))
    eqn:Hall; [|done].
  intros _ Hc. rewrite forallb_elem in Hall. by apply (bool_decide_eq_true_1 _), Hall.
Qed.

Lemma statusOf_completed_reach (g : reqGraph) (x y : string) :
  reachDown g x y ->
  forall fuel, statusOf fuel g x = Some COMPLETED ->
  exists fuel', statusOf fuel' g y = Some COMPLETED.
Proof.
  induction 1 as [x|x c y Hc _ IH]; intros fuel Hx; [eauto|].
  destruct fuel as [|fuel]; [done|].
  apply (IH fuel). by apply (statusOf_completed_child fuel g x).
Qed.

Lemma statusOf_completed_leaf (fuel : nat) (g : reqGraph) (y : string) (r : Req) :
  statusOf fuel g y = Some COMPLETED -> g !! y = Some r -> Children r = [] ->
  Level r = CODE.
Proof.
  destruct fuel as [|fuel]; [done|]. rewrite statusOf_unfold. intros H Hr Hnil.
  rewrite Hr, Hnil in H. simpl in H.
  destruct (decide (Level r = CODE)) as [|Hne]; [done|].
  by rewrite bool_decide_eq_true_2 in H.
Qed.

Lemma statusOf_not_started (fuel : nat) (g : reqGraph) (y : string) :
  statusOf fuel g y = Some NOT_STARTED ->
  exists r, g !! y = Some r /\ Children r = [] /\ Level r <> CODE.
Proof.
  destruct fuel as [|fuel]; [done|]. rewrite statusOf_unfold.
  destruct (g !! y) as [r|]; [|done]. intros H. exists r. split; [done|].
  destruct (bool_decide (Level r ≠ CODE) && bool_decide (length (Children r) = 0%nat))
    eqn:Hleaf.
  - apply andb_true_iff in Hleaf as [Hl Hlen].
    apply bool_decide_eq_true in Hl. apply bool_decide_eq_true in Hlen.
    split; [by destruct (Children r)|done].
  - destruct (forallb _ (Children r)); [|done]. by destruct (forallb _ (Children r)).
Qed.

Lemma statusOf_started_leaf (g : reqGraph) (fuel : nat) :
  forall x, statusOf fuel g x = Some STARTED ->
  exists y fuel', reachDown g x y /\ statusOf fuel' g y = Some NOT_STARTED.
Proof.
  induction fuel as [|fuel IH]; intros x; [done|]. rewrite statusOf_unfold.
  destruct (g !! x) as [r|] eqn:Hr; [|done].
  destruct (_ && _); [done|].
  destruct (forallb (fun c => bool_decide (is_Some (statusOf fuel g c))) (Children r))
    eqn:Hdef; [|done].
  destruct (forallb (fun c => bool_decide (statusOf fuel g c = Some COMPLETED)) (Children r))
    eqn:Hall; [done|]. intros _.
  apply not_true_iff_false in Hall. rewrite forallb_elem in Hall, Hdef.
  assert (Hex : exists c, c ∈ Children r /\ statusOf fuel g c <> Some COMPLETED).
  { clear Hdef. induction (Children r) as [|c cs IHc].
    - exfalso. apply Hall. by intros c ?%elem_of_nil.
    - destruct (decide (statusOf fuel g c = Some COMPLETED)) as [Hc|Hc].
      + destruct IHc as (c' & Hc' & Hne).
        * intros Hcs. apply Hall. intros c0 [->|H0]%elem_of_cons; [|by apply Hcs].
          by apply bool_decide_eq_true_2.
        * exists c'. split; [by right|done].
      + exists c. split; [left|done]. }
  destruct Hex as (c & Hc & Hne).
  assert (Hxc : c ∈ childrenOf g x) by (unfold childrenOf; by rewrite Hr).
  destruct (bool_decide_eq_true_1 _ (Hdef c Hc)) as [[| |] Hsc]; [| |done].
  - exists c, fuel. split; [|done]. by apply rtc_once.
  - destruct (IH c Hsc) as (y & fuel' & R & Hy). exists y, fuel'. split; [|done].
    by eapply rtc_l.
Qed.

Lemma underSystem_belowSystem (o2 : list string) (g h : reqGraph) (x : string) :
  sameGraph g h -> underSystem o2 h x <-> belowSystem g o2 x.
Proof.
  intros Hg. split.
  - intros (s & rs & Hs & Hrs & Hl & R). exists s. split.
    + apply elem_of_systemRoots. split; [done|].
      by rewrite (sameGraph_level _ _ s Hg), Hrs, <- Hl.
    + by apply (sameGraph_reachDown h); [apply sameGraph_sym|].
  - intros (s & [Hs Hl]%elem_of_systemRoots & R). rewrite (sameGraph_level _ _ s Hg) in Hl.
    destruct (h !! s) as [rs|] eqn:Hrs; [|done]. exists s, rs.
    split_and!; [done..|by inversion Hl|by apply (sameGraph_reachDown g)].
Qed.

(** The statuses after [Resolve], in terms of the graph it leaves. *)
Lemma Resolve_statuses (fuel : nat) (o1 o2 o3 o4 : list string) (rg rg' : reqGraph) :
  Resolve fuel o1 o2 o3 o4 rg = Some (Linked rg') ->
  (forall x, underSystem o2 rg' x ->
     exists f st, statusOf f rg' x = Some st /\ Status <$> rg' !! x = Some st) /\
  (forall x, ~ underSystem o2 rg' x -> Status <$> rg' !! x = Status <$> rg !! x).
Proof.
  intros Hres.
  destruct (Resolve_Linked _ _ _ _ _ _ _ Hres) as (rg1 & rg2 & _ & Hadded & Hdown & Hup).
  assert (Hprop : propagate fuel o2 o3 o4 rg1 = Some (Linked rg')).
  { unfold propagate. by rewrite Hdown. }
  destruct (propagate_post fuel rg1 o2 o3 o4 rg1 rg' (sameGraph_refl _) Hprop)
    as (Hg & _ & _ & _ & _ & Hfr & Hrm).
  split.
  - intros x Hx. apply (underSystem_belowSystem o2 rg1 rg' x Hg) in Hx.
    destruct (Hrm x Hx) as (f & st & Hf & Hst). exists f, st. split; [|done].
    by rewrite <- (statusOf_sameGraph f rg1 rg' x Hg).
  - intros x Hx. destruct (Hfr x) as [Heq|[Hb _]].
    + rewrite Heq, Hadded. by destruct (rg !! x).
    + by apply (underSystem_belowSystem o2 rg1 rg' x Hg) in Hb.
Qed.

Lemma underSystem_reach (o2 : list string) (rg : reqGraph) (x y : string) :
  underSystem o2 rg x -> reachDown rg x y -> underSystem o2 rg y.
Proof.
  intros (s & rs & Hs & Hrs & Hl & R) Rxy. exists s, rs. split_and!; [done..|].
  by etrans.
Qed.

(** X6.  After [Resolve] has returned without error, a node that
    is, or lies below, a SYSTEM node and is COMPLETED has nothing open
    below it: every node that is reached from it through child links is
    COMPLETED, and those without children are CODE nodes. *)
Theorem Resolve_completed_below (fuel : nat) (o1 o2 o3 o4 : list string) (rg rg' : reqGraph) :
  Resolve fuel o1 o2 o3 o4 rg = Some (Linked rg') ->
  forall x y, underSystem o2 rg' x -> Status <$> rg' !! x = Some COMPLETED ->
    reachDown rg' x y ->
    exists ry, rg' !! y = Some ry /\ Status ry = COMPLETED /\
               (Children ry = [] -> Level ry = CODE).
Proof.
  intros Hres x y Hx Hst R.
  destruct (Resolve_statuses _ _ _ _ _ _ _ Hres) as (Hunder & _).
  destruct (Hunder x Hx) as (f & st & Hf & Hst'). rewrite Hst in Hst'.
  inversion Hst'; subst st.
  destruct (statusOf_completed_reach rg' x y R f Hf) as (f' & Hf').
  destruct (Hunder y (underSystem_reach _ _ _ _ Hx R)) as (f2 & st2 & Hf2 & Hst2).
  rewrite (statusOf_agree _ _ _ _ _ _ Hf2 Hf') in Hst2.
  destruct (rg' !! y) as [ry|] eqn:Hy; [|done]. exists ry.
  split_and!; [done|by inversion Hst2|]. by apply (statusOf_completed_leaf f' rg' y).
Qed.

Lemma ChainScenario_reach :
  reachDown ChainScenario_resolved "REQ-0-DDLN-SYS-001" "/repo/a.go".
Proof.
  apply (rtc_l _ _ "REQ-0-DDLN-SWH-001"); [apply list_elem_of_In; vm_compute; by left|].
  apply rtc_once. apply list_elem_of_In. vm_compute. by left.
Qed.

Lemma Resolve_completed_below_witness :
  exists ry, ChainScenario_resolved !! "/repo/a.go" = Some ry /\ Status ry = COMPLETED /\
             (Children ry = [] -> Level ry = CODE).
Proof.
  apply (Resolve_completed_below 4 ChainScenario.order ChainScenario.order
           ChainScenario.order ChainScenario.order ChainScenario.graph
           ChainScenario_resolved ChainScenario_Resolve "REQ-0-DDLN-SYS-001" "/repo/a.go").
  - exists "REQ-0-DDLN-SYS-001". eexists.
    split_and!; [apply list_elem_of_In; vm_compute; tauto|vm_compute; reflexivity
                |reflexivity|apply rtc_refl].
  - vm_compute. reflexivity.
  - apply ChainScenario_reach.
Defined.

(** X7.  After [Resolve] has returned without error, a node that
    is, or lies below, a SYSTEM node and is STARTED has an open end below
    it: a node without children that is not a CODE node, which is
    NOT_STARTED. *)
Theorem Resolve_started_open_end (fuel : nat) (o1 o2 o3 o4 : list string) (rg rg' : reqGraph) :
  Resolve fuel o1 o2 o3 o4 rg = Some (Linked rg') ->
  forall x, underSystem o2 rg' x -> Status <$> rg' !! x = Some STARTED ->
    exists y ry, reachDown rg' x y /\ rg' !! y = Some ry /\
                 Children ry = [] /\ Level ry <> CODE /\ Status ry = NOT_STARTED.
Proof.
  intros Hres x Hx Hst.
  destruct (Resolve_statuses _ _ _ _ _ _ _ Hres) as (Hunder & _).
  destruct (Hunder x Hx) as (f & st & Hf & Hst'). rewrite Hst in Hst'.
  inversion Hst'; subst st.
  destruct (statusOf_started_leaf rg' f x Hf) as (y & f' & R & Hf').
  destruct (statusOf_not_started f' rg' y Hf') as (ry & Hy & Hnil & Hl).
  destruct (Hunder y (underSystem_reach _ _ _ _ Hx R)) as (f2 & st2 & Hf2 & Hst2).
  rewrite (statusOf_agree _ _ _ _ _ _ Hf2 Hf') in Hst2.
  exists y, ry. split_and!; [done..|]. rewrite Hy in Hst2. by inversion Hst2.
Qed.

Lemma StalledScenario_Resolve :
  Resolve 4 StalledScenario.order StalledScenario.order StalledScenario.order
          StalledScenario.order StalledScenario.graph = Some (Linked StalledScenario_resolved).
Proof. vm_compute. reflexivity. Qed.

Lemma Resolve_started_open_end_witness :
  exists y ry, reachDown StalledScenario_resolved "REQ-0-DDLN-SYS-001" y /\
               StalledScenario_resolved !! y = Some ry /\
               Children ry = [] /\ Level ry <> CODE /\ Status ry = NOT_STARTED.
Proof.
  apply (Resolve_started_open_end 4 StalledScenario.order StalledScenario.order
           StalledScenario.order StalledScenario.order StalledScenario.graph
           StalledScenario_resolved StalledScenario_Resolve "REQ-0-DDLN-SYS-001").
  - exists "REQ-0-DDLN-SYS-001". eexists.
    split_and!; [apply list_elem_of_In; vm_compute; tauto|vm_compute; reflexivity
                |reflexivity|apply rtc_refl].
  - vm_compute. reflexivity.
Defined.

(** X8.  [Resolve] writes the status of the nodes that are, or lie
    below, a SYSTEM node, and of no other: a node that no SYSTEM node
    reaches through child links has, after [Resolve] has returned without
    error, the status it had, CODE node or not. *)
Theorem Resolve_status_elsewhere (fuel : nat) (o1 o2 o3 o4 : list string) (rg rg' : reqGraph) :
  Resolve fuel o1 o2 o3 o4 rg = Some (Linked rg') ->
  forall x, ~ underSystem o2 rg' x -> Status <$> rg' !! x = Status <$> rg !! x.
Proof. intros Hres. apply (Resolve_statuses _ _ _ _ _ _ _ Hres). Qed.

Lemma DetachedScenario_Resolve :
  Resolve 1 DetachedScenario.order DetachedScenario.order DetachedScenario.order
          DetachedScenario.order DetachedScenario.graph
    = Some (Linked DetachedScenario_resolved).
Proof. vm_compute. reflexivity. Qed.

Lemma Resolve_status_elsewhere_witness :
  Status <$> DetachedScenario_resolved !! "REQ-0-DDLN-SWH-001"
    = Status <$> DetachedScenario.graph !! "REQ-0-DDLN-SWH-001".
Proof.
  apply (Resolve_status_elsewhere 1 DetachedScenario.order DetachedScenario.order
           DetachedScenario.order DetachedScenario.order DetachedScenario.graph
           DetachedScenario_resolved DetachedScenario_Resolve).
  intros (s & rs & Hs & Hrs & Hl & _).
  apply list_elem_of_singleton in Hs as ->.
  vm_compute in Hrs. inversion Hrs; subst rs. done.
Defined.

(** ** Ingestion of documents *)

Lemma ReqTypeToReqLevel_not_CODE (t : string) (l : RequirementLevel) :
  ReqTypeToReqLevel t = Some l -> l <> CODE.
Proof.
  unfold ReqTypeToReqLevel. repeat case_match; intros [= <-]; done.
Qed.

Section IngestionInvariants.

Variable RepoPath : string.
Variable ReqType : lyxReq -> string.
Variable RawReq : Type.
Variable IsValidDocName : string -> option string.
Variable ParseCertdoc : string -> list RawReq + string.
Variable ParseReq : RawReq -> lyxReq + string.
Variable lintLyxReq : string -> nat -> list bool -> lyxReq -> list string * list bool.

(** What the loop of [ParseLyx] leaves: the nodes it was given, and for
    every other node a record of the document from which [AddReq] has made
    it. *)
Lemma ParseLyx_loop_post (fileName : string) (n : nat) (reqs : list RawReq) :
  forall i present graph errs graph' errs',
    ParseLyx_loop RepoPath ReqType RawReq ParseReq lintLyxReq fileName n i reqs present
                  graph errs = Returned (graph', errs') ->
    graph ⊆ graph' /\
    forall k r, graph !! k = None -> graph' !! k = Some r ->
      exists j v rec level,
        reqs !! j = Some v /\ ParseReq v = inl rec /\ lyx_ID rec = k /\
        ReqTypeToReqLevel (ReqType (lyx_set_Position (Z.of_nat (i + j) mod 2 ^ 32) rec))
          = Some level /\
        r = mkReq k level (GoStrings.TrimPrefix fileName RepoPath) "" (lyx_Parents rec) [] []
                  (default "" (lyx_Attributes rec !! "TEXT"))
                  (delete "TEXT" (lyx_Attributes rec))
                  (Z.of_nat (i + j) mod 2 ^ 32) false NOT_STARTED.
Proof.
  induction reqs as [|v reqs IH]; intros i present graph errs graph' errs' Hloop.
  { simpl in Hloop. inversion Hloop; subst. split; [done|]. intros k r H1 H2. congruence. }
  simpl in Hloop.
  assert (Hshift : forall g0,
            (graph ⊆ g0) ->
            (forall k r, graph !! k = None -> g0 !! k = Some r ->
               exists rec level,
                 ParseReq v = inl rec /\ lyx_ID rec = k /\
                 ReqTypeToReqLevel (ReqType (lyx_set_Position (Z.of_nat i mod 2 ^ 32) rec))
                   = Some level /\
                 r = mkReq k level (GoStrings.TrimPrefix fileName RepoPath) ""
                           (lyx_Parents rec) [] []
                           (default "" (lyx_Attributes rec !! "TEXT"))
                           (delete "TEXT" (lyx_Attributes rec))
                           (Z.of_nat i mod 2 ^ 32) false NOT_STARTED) ->
            forall present' errs0,
              ParseLyx_loop RepoPath ReqType RawReq ParseReq lintLyxReq fileName n (S i) reqs
                            present' g0 errs0 = Returned (graph', errs') ->
              graph ⊆ graph' /\
              forall k r, graph !! k = None -> graph' !! k = Some r ->
                exists j v0 rec level,
                  (v :: reqs) !! j = Some v0 /\ ParseReq v0 = inl rec /\ lyx_ID rec = k /\
                  ReqTypeToReqLevel
                    (ReqType (lyx_set_Position (Z.of_nat (i + j) mod 2 ^ 32) rec))
                    = Some level /\
                  r = mkReq k level (GoStrings.TrimPrefix fileName RepoPath) ""
                            (lyx_Parents rec) [] []
                            (default "" (lyx_Attributes rec !! "TEXT"))
                            (delete "TEXT" (lyx_Attributes rec))
                            (Z.of_nat (i + j) mod 2 ^ 32) false NOT_STARTED).
  { intros g0 Hsub Hnew present' errs0 Hrest.
    destruct (IH _ _ _ _ _ _ Hrest) as (Hsub' & Hnew'). split; [by etrans|].
    intros k r Hk Hr. destruct (g0 !! k) as [r0|] eqn:Hk0.
    - assert (r = r0).
      { pose proof (lookup_weaken _ _ _ _ Hk0 Hsub'). congruence. }
      subst r0. destruct (Hnew k r Hk Hk0) as (rec & level & H1 & H2 & H3 & H4).
      exists 0%nat, v, rec, level. rewrite Nat.add_0_r. by split_and!.
    - destruct (Hnew' k r Hk0 Hr) as (j & v0 & rec & level & H1 & H2 & H3 & H4 & H5).
      exists (S j), v0, rec, level.
      replace (i + S j)%nat with (S i + j)%nat by lia. by split_and!. }
  destruct (ParseReq v) as [rec|err] eqn:Hparse.
  - destruct (lintLyxReq fileName n present rec) as [errs2 present'].
    destruct (decide (length errs2 ≠ 0%nat)).
    + apply (Hshift graph (reflexivity _)) in Hloop; [done|]. intros k r H1 H2. congruence.
    + unfold AddReq in Hloop. simpl in Hloop.
      destruct (graph !! lyx_ID rec) as [old|] eqn:Hold; simpl in Hloop.
      * apply (Hshift graph (reflexivity _)) in Hloop; [done|].
        intros k r H1 H2. congruence.
      * destruct (ReqTypeToReqLevel _) as [level|] eqn:Hlevel; [|done]. simpl in Hloop.
        apply Hshift in Hloop; [done|by apply insert_subseteq|].
        intros k r Hk Hr. destruct (decide (lyx_ID rec = k)) as [<-|Hne].
        -- rewrite lookup_insert_eq in Hr. inversion Hr; subst r. by exists rec, level.
        -- rewrite lookup_insert_ne in Hr by done. congruence.
  - apply (Hshift graph (reflexivity _)) in Hloop; [done|]. intros k r H1 H2. congruence.
Qed.

(** X9.  When [ParseLyx] returns, the graph has the nodes it had,
    unchanged, and every node it has gained comes from a record of the
    document: it is stored under the identifier of the record, it is not a
    CODE node, its path is the file name without the repository path, its
    position is the index of the record among the records of the document
    (modulo 2^32), and its text is taken out of its attributes. *)
Theorem ParseLyx_extends (fileName : string) (graph graph' : reqGraph) (errs : list string) :
  ParseLyx RepoPath ReqType RawReq IsValidDocName ParseCertdoc ParseReq lintLyxReq
           fileName graph = Returned (graph', errs) ->
  graph ⊆ graph' /\
  forall k r, graph !! k = None -> graph' !! k = Some r ->
    exists reqs i v rec,
      ParseCertdoc fileName = inl reqs /\ reqs !! i = Some v /\ ParseReq v = inl rec /\
      lyx_ID rec = k /\ ID r = k /\ Level r <> CODE /\
      Path r = GoStrings.TrimPrefix fileName RepoPath /\
      ParentIds r = lyx_Parents rec /\
      Position r = Z.of_nat i mod 2 ^ 32 /\
      Body r = default "" (lyx_Attributes rec !! "TEXT") /\
      Attributes r = delete "TEXT" (lyx_Attributes rec).
Proof.
  unfold ParseLyx. intros H.
  destruct (IsValidDocName fileName) as [err|].
  { inversion H; subst. split; [done|]. intros k r H1 H2. congruence. }
  destruct (ParseCertdoc fileName) as [reqs|err].
  2: { inversion H; subst. split; [done|]. intros k r H1 H2. congruence. }
  destruct (ParseLyx_loop_post _ _ _ _ _ _ _ _ _ H) as (Hsub & Hnew). split; [done|].
  intros k r Hk Hr.
  destruct (Hnew k r Hk Hr) as (j & v & rec & level & H1 & H2 & H3 & H4 & ->).
  exists reqs, j, v, rec. simpl. split_and!; try done.
  by apply (ReqTypeToReqLevel_not_CODE _ _ H4).
Qed.

(** X10.  [ParseLyx] keeps a graph as ingestion is to leave it:
    when every node is without links, not reached and NOT_STARTED, the CODE
    nodes stored under their paths and the others under their identifiers,
    with no attribute TEXT and a position below 2^32, then so it is when
    [ParseLyx] has returned. *)
Theorem ParseLyx_keeps_ingested (fileName : string) (graph graph' : reqGraph)
    (errs : list string) :
  ingested graph ->
  ParseLyx RepoPath ReqType RawReq IsValidDocName ParseCertdoc ParseReq lintLyxReq
           fileName graph = Returned (graph', errs) ->
  ingested graph'.
Proof.
  unfold ParseLyx. intros Hin H.
  destruct (IsValidDocName fileName) as [err|]; [by inversion H; subst|].
  destruct (ParseCertdoc fileName) as [reqs|err]; [|by inversion H; subst].
  destruct (ParseLyx_loop_post _ _ _ _ _ _ _ _ _ H) as (Hsub & Hnew).
  intros k r Hr. destruct (graph !! k) as [r0|] eqn:Hk.
  - pose proof (lookup_weaken _ _ _ _ Hk Hsub) as Hr0.
    assert (r = r0) by congruence. subst r0. by apply Hin.
  - destruct (Hnew k r Hk Hr) as (j & v & rec & level & H1 & H2 & H3 & H4 & ->).
    pose proof (ReqTypeToReqLevel_not_CODE _ _ H4) as Hl.
    unfold ingestedNode. simpl. split_and!; try done.
    intros _. split_and!; [done..|by rewrite lookup_delete_eq| |].
    + apply Z.mod_pos_bound. lia.
    + apply Z.mod_pos_bound. lia.
Qed.

End IngestionInvariants.

Lemma DuplicateScenario_parse :
  ParseLyx "/repo" (fun _ => "SYS") lyxReq (fun _ => None) DuplicateScenario.certdocs inl
           (fun _ _ present _ => ([], present)) "/repo/a.lyx" ∅
    = Returned ({[ "REQ-0-DDLN-SYS-001" := DuplicateScenario.first ]}, []).
Proof. vm_compute. reflexivity. Qed.

Lemma ParseLyx_extends_witness :
  exists reqs i v rec,
    DuplicateScenario.certdocs "/repo/a.lyx" = inl reqs /\ reqs !! i = Some v /\
    inl v = inl (B := string) rec /\
    lyx_ID rec = "REQ-0-DDLN-SYS-001" /\ ID DuplicateScenario.first = "REQ-0-DDLN-SYS-001" /\
    Level DuplicateScenario.first <> CODE /\
    Path DuplicateScenario.first = GoStrings.TrimPrefix "/repo/a.lyx" "/repo" /\
    ParentIds DuplicateScenario.first = lyx_Parents rec /\
    Position DuplicateScenario.first = Z.of_nat i mod 2 ^ 32 /\
    Body DuplicateScenario.first = default "" (lyx_Attributes rec !! "TEXT") /\
    Attributes DuplicateScenario.first = delete "TEXT" (lyx_Attributes rec).
Proof.
  apply (proj2 (ParseLyx_extends "/repo" (fun _ => "SYS") lyxReq (fun _ => None)
                  DuplicateScenario.certdocs inl (fun _ _ present _ => ([], present))
                  "/repo/a.lyx" ∅ _ [] DuplicateScenario_parse)
               "REQ-0-DDLN-SYS-001" DuplicateScenario.first).
  - reflexivity.
  - vm_compute. reflexivity.
Defined.

Lemma ingested_empty : ingested ∅.
Proof. intros k r Hk. by rewrite lookup_empty in Hk. Qed.

(** An ingested graph is what the properties of [Resolve] ask for: without
    links, and with no node marked as reached. *)
Lemma ingested_unlinked_unseen (rg : reqGraph) : ingested rg -> unlinked rg /\ unseen rg.
Proof.
  intros Hin. split; intros k r Hr; destruct (Hin k r Hr) as (HP & HC & HS & _); done.
Qed.

Lemma ParseLyx_keeps_ingested_witness :
  ingestedNode "REQ-0-DDLN-SYS-001" DuplicateScenario.first.
Proof.
  apply (ParseLyx_keeps_ingested "/repo" (fun _ => "SYS") lyxReq (fun _ => None)
           DuplicateScenario.certdocs inl (fun _ _ present _ => ([], present))
           "/repo/a.lyx" ∅ _ [] ingested_empty DuplicateScenario_parse
           "REQ-0-DDLN-SYS-001").
  vm_compute. reflexivity.
Defined.

(** ** References in code files *)

Lemma append_cons (c : ascii) (a b : string) : String c a +:+ b = String c (a +:+ b).
Proof. done. Qed.

Lemma append_nil_l (a : string) : "" +:+ a = a.
Proof. done. Qed.

Lemma expect_Some (lit : string) : forall s s', LLR.expect lit s = Some s' -> s = lit +:+ s'.
Proof.
  induction lit as [|a lit IH]; intros s s'; simpl; [by intros [= ->]|].
  destruct s as [|b s]; [done|]. destruct (Ascii.eqb a b) eqn:Hab; [|done].
  apply Ascii.eqb_eq in Hab as ->. intros H. rewrite append_cons. f_equal. by apply IH.
Qed.

Lemma expect_app (lit s : string) : LLR.expect lit (lit +:+ s) = Some s.
Proof.
  induction lit as [|a lit IH]; [done|]. rewrite append_cons. simpl.
  by rewrite Ascii.eqb_refl.
Qed.

Lemma takeWhile_dropWhile (p : ascii -> bool) (s : string) :
  s = LLR.takeWhile p s +:+ LLR.dropWhile p s.
Proof.
  induction s as [|c s IH]; [done|]. simpl. destruct (p c); [|done].
  rewrite append_cons. by f_equal.
Qed.

Lemma allOf_takeWhile (p : ascii -> bool) (s : string) : allOf p (LLR.takeWhile p s) = true.
Proof.
  induction s as [|c s IH]; [done|]. simpl. destruct (p c) eqn:Hc; [|done].
  simpl. by rewrite Hc.
Qed.

Lemma takeWhile_app (p : ascii -> bool) (run rest : string) :
  allOf p run = true -> startsWithout p rest -> LLR.takeWhile p (run +:+ rest) = run.
Proof.
  intros Hrun Hrest. induction run as [|c run IH].
  - rewrite append_nil_l. destruct rest as [|c rest]; [done|]. simpl in *. by rewrite Hrest.
  - simpl in Hrun. apply andb_true_iff in Hrun as [Hc Hrun].
    rewrite append_cons. simpl. rewrite Hc. f_equal. by apply IH.
Qed.

Lemma dropWhile_app (p : ascii -> bool) (run rest : string) :
  allOf p run = true -> startsWithout p rest -> LLR.dropWhile p (run +:+ rest) = rest.
Proof.
  intros Hrun Hrest. induction run as [|c run IH].
  - rewrite append_nil_l. destruct rest as [|c rest]; [done|]. simpl in *. by rewrite Hrest.
  - simpl in Hrun. apply andb_true_iff in Hrun as [Hc Hrun].
    rewrite append_cons. simpl. rewrite Hc. by apply IH.
Qed.

Lemma classThen_Some (p : ascii -> bool) (lit s run rest : string) :
  LLR.classThen p lit s = Some (run, rest) ->
  run <> "" /\ allOf p run = true /\ s = run +:+ lit +:+ rest.
Proof.
  unfold LLR.classThen. pose proof (allOf_takeWhile p s) as Hall.
  pose proof (takeWhile_dropWhile p s) as Hs.
  destruct (LLR.takeWhile p s) as [|c run0] eqn:Htake; [done|].
  destruct (LLR.expect lit (LLR.dropWhile p s)) as [rest0|] eqn:Hexp; [|done].
  simpl. intros [= <- <-]. apply expect_Some in Hexp. split_and!; [done..|].
  by rewrite <- Hexp.
Qed.

Lemma classThen_app (p : ascii -> bool) (lit run rest : string) :
  run <> "" -> allOf p run = true -> startsWithout p (lit +:+ rest) ->
  LLR.classThen p lit (run +:+ lit +:+ rest) = Some (run, rest).
Proof.
  intros Hne Hall Hstart. unfold LLR.classThen.
  rewrite (takeWhile_app p run _ Hall Hstart), (dropWhile_app p run _ Hall Hstart).
  destruct run as [|c run]; [done|]. by rewrite expect_app.
Qed.

(** A match at the head of [s]. *)
Lemma matchHere_Some (s ref : string) :
  LLR.matchHere s = Some ref ->
  llrReference ref /\
  exists sp1 sp2 post,
    allOf LLR.isSpace sp1 = true /\ allOf LLR.isSpace sp2 = true /\
    s = "//" +:+ sp1 +:+ "@llr" +:+ sp2 +:+ ref +:+ post.
Proof.
  unfold LLR.matchHere. intros H.
  destruct (LLR.expect "//" s) as [s1|] eqn:H1; [|discriminate H].
  cbn -[LLR.expect LLR.dropWhile LLR.classThen String.append] in H.
  destruct (LLR.expect "@llr" (LLR.dropWhile LLR.isSpace s1)) as [s2|] eqn:H2;
    [|discriminate H].
  cbn -[LLR.expect LLR.dropWhile LLR.classThen String.append] in H.
  destruct (LLR.expect "REQ-" (LLR.dropWhile LLR.isSpace s2)) as [s3|] eqn:H3;
    [|discriminate H].
  cbn -[LLR.expect LLR.dropWhile LLR.classThen String.append] in H.
  destruct (LLR.classThen LLR.isDigit "-" s3) as [[d1 s4]|] eqn:H4; [|discriminate H].
  cbn -[LLR.expect LLR.dropWhile LLR.classThen String.append] in H.
  destruct (LLR.classThen LLR.isWord "-SWL-" s4) as [[w s5]|] eqn:H5; [|discriminate H].
  cbn -[LLR.expect LLR.dropWhile LLR.classThen String.append] in H.
  destruct (LLR.classThen LLR.isDigit "" s5) as [[d2 post]|] eqn:H6; [|discriminate H].
  cbn -[LLR.expect LLR.dropWhile LLR.classThen String.append] in H.
  inversion H; subst ref. clear H.
  apply expect_Some in H1, H2, H3.
  apply classThen_Some in H4 as (Hd1 & Hd1' & H4).
  apply classThen_Some in H5 as (Hw & Hw' & H5).
  apply classThen_Some in H6 as (Hd2 & Hd2' & H6).
  split; [by exists d1, w, d2|].
  exists (LLR.takeWhile LLR.isSpace s1), (LLR.takeWhile LLR.isSpace s2), post.
  split_and!; [apply allOf_takeWhile..|].
  rewrite H1 at 1. f_equal.
  rewrite (takeWhile_dropWhile LLR.isSpace s1) at 1. f_equal.
  rewrite H2 at 1. f_equal.
  rewrite (takeWhile_dropWhile LLR.isSpace s2) at 1. f_equal.
  rewrite H3, H4, H5, H6. rewrite append_nil_l.
  by rewrite !append_assoc.
Qed.

Lemma FindStringSubmatch_Some (s ref : string) :
  LLR.FindStringSubmatch s = Some ref ->
  exists pre rest, s = pre +:+ rest /\ LLR.matchHere rest = Some ref.
Proof.
  induction s as [|c s IH].
  - done.
  - change (LLR.FindStringSubmatch (String c s))
      with (match LLR.matchHere (String c s) with
            | Some ref0 => Some ref0
            | None => LLR.FindStringSubmatch s
            end).
    destruct (LLR.matchHere (String c s)) eqn:Hm.
    + intros [= ->]. by exists "", (String c s).
    + intros (pre & rest & -> & Hrest)%IH. by exists (String c pre), rest.
Qed.

(** X11.  What [reLLRReference] extracts from a line is a
    reference: [REQ-], digits, [-], word characters, [-SWL-], digits; and
    the line holds it after [//], white space if any, [@llr] and white
    space if any. *)
Theorem FindStringSubmatch_reference (s ref : string) :
  LLR.FindStringSubmatch s = Some ref ->
  llrReference ref /\
  exists pre sp1 sp2 post,
    allOf LLR.isSpace sp1 = true /\ allOf LLR.isSpace sp2 = true /\
    s = pre +:+ "//" +:+ sp1 +:+ "@llr" +:+ sp2 +:+ ref +:+ post.
Proof.
  intros (pre & rest & -> & Hm)%FindStringSubmatch_Some.
  apply matchHere_Some in Hm as (Href & sp1 & sp2 & post & H1 & H2 & ->).
  split; [done|]. by exists pre, sp1, sp2, post.
Qed.

Lemma FindStringSubmatch_reference_witness :
  llrReference "REQ-0-DDLN-SWL-015" /\
  exists pre sp1 sp2 post,
    allOf LLR.isSpace sp1 = true /\ allOf LLR.isSpace sp2 = true /\
    "x = 1 // @llr REQ-0-DDLN-SWL-015, see there"
      = pre +:+ "//" +:+ sp1 +:+ "@llr" +:+ sp2 +:+ "REQ-0-DDLN-SWL-015" +:+ post.
Proof.
  apply (FindStringSubmatch_reference "x = 1 // @llr REQ-0-DDLN-SWL-015, see there").
  vm_compute. reflexivity.
Defined.

(** X12.  A line that starts with [//], white space if any,
    [@llr], white space if any, and a reference that no digit follows,
    yields this reference. *)
Theorem FindStringSubmatch_tagged_line (sp1 sp2 d1 w d2 post : string) :
  allOf LLR.isSpace sp1 = true -> allOf LLR.isSpace sp2 = true ->
  d1 <> "" -> allOf LLR.isDigit d1 = true ->
  w <> "" -> allOf LLR.isWord w = true ->
  d2 <> "" -> allOf LLR.isDigit d2 = true ->
  startsWithout LLR.isDigit post ->
  LLR.FindStringSubmatch
    ("//" +:+ sp1 +:+ "@llr" +:+ sp2 +:+ "REQ-" +:+ d1 +:+ "-" +:+ w +:+ "-SWL-" +:+ d2 +:+ post)
  = Some ("REQ-" +:+ d1 +:+ "-" +:+ w +:+ "-SWL-" +:+ d2).
Proof.
  intros Hsp1 Hsp2 Hd1 Hd1' Hw Hw' Hd2 Hd2' Hpost.
  set (ref := "REQ-" +:+ d1 +:+ "-" +:+ w +:+ "-SWL-" +:+ d2).
  set (s := "//" +:+ _).
  assert (Hm : LLR.matchHere s = Some ref).
  { unfold LLR.matchHere, s. rewrite expect_app.
    cbn -[LLR.expect LLR.dropWhile LLR.classThen String.append].
    rewrite (dropWhile_app LLR.isSpace sp1) by (done || reflexivity). rewrite expect_app.
    cbn -[LLR.expect LLR.dropWhile LLR.classThen String.append].
    rewrite (dropWhile_app LLR.isSpace sp2) by (done || reflexivity). rewrite expect_app.
    cbn -[LLR.expect LLR.dropWhile LLR.classThen String.append].
    rewrite (classThen_app LLR.isDigit "-" d1) by (done || reflexivity).
    cbn -[LLR.expect LLR.dropWhile LLR.classThen String.append].
    rewrite (classThen_app LLR.isWord "-SWL-" w) by (done || reflexivity).
    cbn -[LLR.expect LLR.dropWhile LLR.classThen String.append].
    change (d2 +:+ post) with (d2 +:+ "" +:+ post).
    rewrite (classThen_app LLR.isDigit "" d2) by done. done. }
  change (LLR.FindStringSubmatch s)
    with (match LLR.matchHere s with
          | Some r => Some r
          | None => match s with
                    | EmptyString => None
                    | String _ s' => LLR.FindStringSubmatch s'
                    end
          end).
  by rewrite Hm.
Qed.

Lemma FindStringSubmatch_tagged_line_witness :
  LLR.FindStringSubmatch
    ("//" +:+ " " +:+ "@llr" +:+ " " +:+ "REQ-" +:+ "0" +:+ "-" +:+ "DDLN" +:+ "-SWL-" +:+ "015"
     +:+ ", see there")
  = Some ("REQ-" +:+ "0" +:+ "-" +:+ "DDLN" +:+ "-SWL-" +:+ "015").
Proof.
  apply (FindStringSubmatch_tagged_line " " " " "0" "DDLN" "015" ", see there");
    done.
Defined.

(** X13.  [parseCode] writes the node of the file and no other.  With an
    error of [os.Open] or of the scanner it returns that error, and then,
    as when no line of the file has a reference, it writes nothing.
    Otherwise it returns no error and stores, under the file name, a CODE
    node with the identifier given, the file name as path, the hash and,
    as declared parents, the references of the lines, one per line that
    has one, in the order of the lines; every one of them has the form of
    an identifier of a low-level software requirement.  A graph as
    ingestion is to leave it stays so. *)
Theorem parseCode_stores (id fileName : string) (file : codeFile + string)
    (graph graph' : reqGraph) (err : option string) :
  parseCode id fileName file graph = (graph', err) ->
  (forall k, k <> fileName -> graph' !! k = graph !! k) /\
  (forall e, file = inr e -> err = Some e /\ graph' = graph) /\
  (forall f e, file = inl f -> cf_scanErr f = Some e -> err = Some e /\ graph' = graph) /\
  (forall f, file = inl f -> cf_scanErr f = None ->
             omap LLR.FindStringSubmatch (cf_lines f) = [] ->
             err = None /\ graph' = graph) /\
  (forall f, file = inl f -> cf_scanErr f = None ->
             omap LLR.FindStringSubmatch (cf_lines f) <> [] ->
     err = None /\
     exists r, graph' !! fileName = Some r /\
       ID r = id /\ Level r = CODE /\ Path r = fileName /\ FileHash r = cf_hash f /\
       ParentIds r = omap LLR.FindStringSubmatch (cf_lines f) /\
       (forall ref, ref ∈ ParentIds r -> llrReference ref) /\
       Parents r = [] /\ Children r = [] /\ Seen r = false /\ Status r = NOT_STARTED) /\
  (ingested graph -> ingested graph').
Proof.
  unfold parseCode. intros H.
  destruct file as [f|e].
  2: { inversion H; subst. split_and!; try done.
       intros e0 [= <-]. done. }
  destruct (cf_scanErr f) as [e|] eqn:Hscan.
  { inversion H; subst. split_and!; try done.
    - intros f0 e0 [= <-] Hs. rewrite Hscan in Hs. by inversion Hs.
    - intros f0 [= <-] Hs. by rewrite Hscan in Hs.
    - intros f0 [= <-] Hs. by rewrite Hscan in Hs. }
  destruct (omap LLR.FindStringSubmatch (cf_lines f)) as [|ref refs] eqn:Hrefs.
  { inversion H; subst. split_and!; try done.
    - intros f0 e0 [= <-] Hs. by rewrite Hscan in Hs.
    - intros f0 [= <-] _ Hne. by rewrite Hrefs in Hne. }
  simpl in H. inversion H; subst graph' err. clear H. unfold AddCodeRefs.
  assert (Hshape : forall ref0, ref0 ∈ ref :: refs -> llrReference ref0).
  { intros ref0 Hin. rewrite <- Hrefs in Hin.
    apply list_elem_of_omap in Hin as (line & _ & Hline).
    apply FindStringSubmatch_Some in Hline as (pre & rest & _ & Hm).
    by apply matchHere_Some in Hm as (Hshape & _). }
  split_and!.
  - intros k Hk. by rewrite lookup_insert_ne.
  - done.
  - intros f0 e0 [= <-] Hs. by rewrite Hscan in Hs.
  - intros f0 [= <-] _ Hnil. by rewrite Hrefs in Hnil.
  - intros f0 [= <-] _ _. split; [done|]. eexists. rewrite lookup_insert_eq.
    split; [done|]. simpl. rewrite Hrefs. by split_and!.
  - intros Hin k r Hr. destruct (decide (fileName = k)) as [<-|Hne].
    + rewrite lookup_insert_eq in Hr. inversion Hr; subst r.
      unfold ingestedNode. simpl. by split_and!.
    + rewrite lookup_insert_ne in Hr by done. by apply Hin.
Qed.

Lemma parseCode_stores_witness :
  None = None (A := string) /\
  exists r,
    (parseCode "a.go" "/repo/a.go" (inl CodeFileScenario.file) ∅).1 !! "/repo/a.go" = Some r /\
    ID r = "a.go" /\ Level r = CODE /\ Path r = "/repo/a.go" /\
    FileHash r = cf_hash CodeFileScenario.file /\
    ParentIds r = omap LLR.FindStringSubmatch (cf_lines CodeFileScenario.file) /\
    (forall ref, ref ∈ ParentIds r -> llrReference ref) /\
    Parents r = [] /\ Children r = [] /\ Seen r = false /\ Status r = NOT_STARTED.
Proof.
  apply (proj1 (proj2 (proj2 (proj2 (proj2
           (parseCode_stores "a.go" "/repo/a.go" (inl CodeFileScenario.file) ∅ _ None
              eq_refl))))) CodeFileScenario.file eq_refl eq_refl).
  vm_compute. discriminate.
Defined.

(** ** Filters *)

Lemma Matches_filter_cons (r : Req) (t : Z) (e : option (string -> bool))
    (rest : list (Z * option (string -> bool))) :
  Matches_filter r ((t, e) :: rest) =
  match subjectOf r t with
  | None => Matches_filter r rest
  | Some subject =>
      match e with
      | None => None
      | Some matchString =>
          if negb (matchString subject) then Some false else Matches_filter r rest
      end
  end.
Proof.
  unfold subjectOf. simpl.
  destruct (t =? TitleFilter); [done|]. destruct (t =? IdFilter); [done|].
  by destruct (t =? BodyFilter).
Qed.

Lemma Matches_filter_spec (r : Req) (entries : list (Z * option (string -> bool))) :
  compiled r entries ->
  exists b, Matches_filter r entries = Some b /\ (b = true <-> passes r entries).
Proof.
  induction entries as [|[t e] rest IH]; intros Hc.
  { exists true. split; [done|]. split; [|done]. by intros _ t m subject ?%elem_of_nil. }
  destruct IH as (b & Hb & Hspec).
  { intros t' e' Hin. apply Hc. by right. }
  rewrite Matches_filter_cons.
  assert (Htail : passes r ((t, e) :: rest) -> passes r rest).
  { intros Hp t' m subject Hin. apply Hp. by right. }
  destruct (subjectOf r t) as [subject|] eqn:Hsub.
  - destruct (Hc t e) as [m ->]; [left|by rewrite Hsub|].
    destruct (m subject) eqn:Hm; simpl.
    + exists b. split; [done|]. rewrite Hspec. split; [|done].
      intros Hp t' m' subject' [[= -> ->]|Hin]%elem_of_cons Hs'.
      * by rewrite Hsub in Hs'; inversion Hs'; subst.
      * by apply (Hp t' m' subject').
    + exists false. split; [done|]. split; [done|]. intros Hp.
      rewrite (Hp t m subject) in Hm; [done|left|done].
  - exists b. split; [done|]. rewrite Hspec. split; [|done].
    intros Hp t' m' subject' [[= -> <-]|Hin]%elem_of_cons Hs'.
    + by rewrite Hsub in Hs'.
    + by apply (Hp t' m' subject').
Qed.

(** X14.  With no [nil] expression in the filter, [Matches] returns,
    and it returns [true] if and only if every expression of the filter
    matches what it is for (the title, the identifier, the body) and, when
    there is a map of diffs, the identifier is one of its keys; the order
    in which the filter is visited makes no difference. *)
Theorem Matches_all_and_diff (r : Req) (entries : list (Z * option (string -> bool)))
    (diffs : option (gmap string (list string))) :
  compiled r entries ->
  exists b,
    Matches r entries diffs = Some b /\
    (b = true <->
     passes r entries /\ forall d, diffs = Some d -> is_Some (d !! ID r)) /\
    forall entries', entries' ≡ₚ entries -> Matches r entries' diffs = Some b.
Proof.
  intros Hc.
  assert (Hone : forall es, compiled r es ->
            exists b, Matches r es diffs = Some b /\
              (b = true <-> passes r es /\ forall d, diffs = Some d -> is_Some (d !! ID r))).
  { intros es Hes. destruct (Matches_filter_spec r es Hes) as (b & Hb & Hspec).
    unfold Matches. rewrite Hb. destruct b.
    - destruct diffs as [d|].
      + exists (bool_decide (is_Some (d !! ID r))). split; [done|].
        rewrite bool_decide_eq_true. split.
        * intros Hd. split; [by apply Hspec|]. by intros d' [= <-].
        * intros [_ Hd]. by apply Hd.
      + exists true. split; [done|]. split; [|done]. intros _.
        split; [by apply Hspec|done].
    - exists false. split; [done|]. split; [done|]. intros [Hp _].
      by apply Hspec in Hp. }
  destruct (Hone entries Hc) as (b & Hb & Hspec). exists b. split_and!; [done..|].
  intros entries' Hperm.
  destruct (Hone entries') as (b' & Hb' & Hspec').
  { intros t e Hin. apply Hc. by rewrite <- Hperm. }
  rewrite Hb'. f_equal.
  assert (Hpasses : passes r entries' <-> passes r entries).
  { unfold passes. by setoid_rewrite Hperm. }
  rewrite Hpasses in Hspec'. rewrite <- Hspec in Hspec'.
  destruct b, b'; try done; [by apply Hspec'|symmetry; by apply Hspec'].
Qed.

Lemma Matches_all_and_diff_witness :
  exists b,
    Matches ChainScenario.sys
            [(IdFilter, Some (String.prefix "REQ-0")); (BodyFilter, Some (String.prefix "System"))]
            None = Some b /\
    (b = true <->
     passes ChainScenario.sys
            [(IdFilter, Some (String.prefix "REQ-0")); (BodyFilter, Some (String.prefix "System"))]
     /\ forall d : gmap string (list string),
          None = Some d -> is_Some (d !! ID ChainScenario.sys)) /\
    forall entries',
      entries' ≡ₚ [(IdFilter, Some (String.prefix "REQ-0"));
                   (BodyFilter, Some (String.prefix "System"))] ->
      Matches ChainScenario.sys entries' None = Some b.
Proof.
  apply (Matches_all_and_diff ChainScenario.sys).
  intros t e [[= -> ->]|[[= -> ->]|[]%elem_of_nil]%elem_of_cons]%elem_of_cons _; eauto.
Defined.

(** ** Paths *)

Lemma cutAfter_unfold (s sep : string) :
  GoPath.cutAfter s sep =
  if String.prefix sep s then Some (sep, GoPath.drop (String.length sep) s)
  else match s with
       | EmptyString => None
       | String c s' => (fun '(a, b) => (String c a, b)) <$> GoPath.cutAfter s' sep
       end.
Proof. by destruct s. Qed.

Lemma prefix_nil (s : string) : String.prefix "" s = true.
Proof. by destruct s. Qed.

Lemma prefix_append (sep rest : string) : String.prefix sep (sep +:+ rest) = true.
Proof.
  induction sep as [|a sep IH]; [apply prefix_nil|]. rewrite append_cons. simpl.
  by destruct (ascii_dec a a).
Qed.

Lemma drop_append (sep rest : string) : GoPath.drop (String.length sep) (sep +:+ rest) = rest.
Proof. induction sep as [|a sep IH]; [by destruct rest|]. by rewrite append_cons. Qed.

Lemma occursAt_0 (sep s : string) : ~ occursAt sep s 0 -> String.prefix sep s = false.
Proof. unfold occursAt. intros H. apply not_true_is_false. by destruct s. Qed.

Lemma cutAfter_first (sep pre rest : string) :
  (forall n, (n < String.length pre)%nat -> ~ occursAt sep (pre +:+ sep +:+ rest) n) ->
  GoPath.cutAfter (pre +:+ sep +:+ rest) sep = Some (pre +:+ sep, rest).
Proof.
  induction pre as [|c pre IH]; intros Hfirst; rewrite cutAfter_unfold.
  - rewrite !append_nil_l, prefix_append, drop_append. done.
  - rewrite (occursAt_0 sep (String c pre +:+ sep +:+ rest)) by (apply Hfirst; simpl; lia).
    rewrite append_cons. rewrite IH; [done|].
    intros n Hn. apply (Hfirst (S n)). simpl. lia.
Qed.

Lemma cutAfter_absent (sep s : string) :
  (forall n, ~ occursAt sep s n) -> GoPath.cutAfter s sep = None.
Proof.
  induction s as [|c s IH]; intros Habsent; rewrite cutAfter_unfold.
  - by rewrite (occursAt_0 _ _ (Habsent 0%nat)).
  - rewrite (occursAt_0 _ _ (Habsent 0%nat)). rewrite IH; [done|].
    intros n. apply (Habsent (S n)).
Qed.

(** X15.  [relativePathToRepo] cuts the path after the first
    occurrence of the repository path, wherever that is, and drops one
    more byte, whatever it is; when nothing follows the occurrence, it
    panics. *)
Theorem relativePathToRepo_first_occurrence (pre repoPath rest : string) :
  repoPath <> "" ->
  (forall n, (n < String.length pre)%nat ->
             ~ occursAt repoPath (pre +:+ repoPath +:+ rest) n) ->
  relativePathToRepo (pre +:+ repoPath +:+ rest) repoPath =
  match rest with
  | EmptyString => None
  | String _ rel => Some rel
  end.
Proof.
  intros Hne Hfirst. unfold relativePathToRepo, GoPath.SplitAfterN2.
  destruct repoPath as [|a sep]; [done|]. by rewrite (cutAfter_first _ _ _ Hfirst).
Qed.

Lemma relativePathToRepo_first_occurrence_witness :
  relativePathToRepo ("" +:+ "/home/u/repo" +:+ "/src/a.go") "/home/u/repo" = Some "src/a.go".
Proof.
  apply (relativePathToRepo_first_occurrence "" "/home/u/repo" "/src/a.go"); [done|].
  simpl. lia.
Defined.

(** X16.  When the repository path does not occur in the
    path, [relativePathToRepo] returns the empty string. *)
Theorem relativePathToRepo_absent (filePath repoPath : string) :
  (forall n, ~ occursAt repoPath filePath n) ->
  relativePathToRepo filePath repoPath = Some "".
Proof.
  intros Habsent. unfold relativePathToRepo, GoPath.SplitAfterN2.
  destruct repoPath as [|a sep]; [by destruct (Habsent 0%nat (prefix_nil _))|].
  by rewrite (cutAfter_absent _ _ Habsent).
Qed.

Lemma relativePathToRepo_absent_witness :
  relativePathToRepo "a.go" "/home/u/repo" = Some "".
Proof.
  apply (relativePathToRepo_absent "a.go" "/home/u/repo").
  intros n. unfold occursAt. do 5 (destruct n as [|n]; [done|]). done.
Defined.

(** ** The accessors *)

Lemma sortByPosition_filter (rg : reqGraph) (p : string -> bool) (order : list string) :
  let l := sortByPosition (positionOf rg) (List.filter p order) in
  Sorted (byPos (positionOf rg)) l /\
  (forall k, k ∈ l <-> k ∈ order /\ p k = true) /\
  (NoDup order -> NoDup l).
Proof.
  simpl. split_and!.
  - apply sortByPosition_sorted.
  - intros k. rewrite sortByPosition_perm.
    by rewrite list_elem_of_In, filter_In, <- list_elem_of_In.
  - intros Hnd. rewrite sortByPosition_perm.
    apply NoDup_ListNoDup, List.NoDup_filter. by apply NoDup_ListNoDup.
Qed.

(** X17.  [OrdsByPosition], [CodeFilesByPosition] and
    [DanglingReqsByPosition] return, in nondecreasing order of position
    and each once, the SYSTEM nodes, the CODE nodes and the nodes that are
    not marked as reached. *)
Theorem ByPosition_accessors (order : list string) (rg : reqGraph) :
  NoDup order ->
  (Sorted (byPos (positionOf rg)) (OrdsByPosition order rg) /\
   NoDup (OrdsByPosition order rg) /\
   forall k, k ∈ OrdsByPosition order rg <->
             k ∈ order /\ exists v, rg !! k = Some v /\ Level v = SYSTEM) /\
  (Sorted (byPos (positionOf rg)) (CodeFilesByPosition order rg) /\
   NoDup (CodeFilesByPosition order rg) /\
   forall k, k ∈ CodeFilesByPosition order rg <->
             k ∈ order /\ exists v, rg !! k = Some v /\ Level v = CODE) /\
  (Sorted (byPos (positionOf rg)) (DanglingReqsByPosition order rg) /\
   NoDup (DanglingReqsByPosition order rg) /\
   forall k, k ∈ DanglingReqsByPosition order rg <->
             k ∈ order /\ exists v, rg !! k = Some v /\ Seen v = false).
Proof.
  intros Hnd. unfold OrdsByPosition, CodeFilesByPosition, DanglingReqsByPosition.
  split_and!.
  all: try apply sortByPosition_filter; try done.
  all: intros k; rewrite (proj1 (proj2 (sortByPosition_filter rg _ order)) k).
  all: destruct (rg !! k) as [v|]; simpl.
  all: try (split; [by intros [_ ?]|by intros [_ (? & [=] & _)]]).
  - rewrite bool_decide_eq_true. split; [intros [? ?]; eauto|].
    by intros [? (v' & [= <-] & ?)].
  - rewrite bool_decide_eq_true. split; [intros [? ?]; eauto|].
    by intros [? (v' & [= <-] & ?)].
  - rewrite negb_true_iff. split; [intros [? ?]; eauto|].
    by intros [? (v' & [= <-] & ?)].
Qed.

Lemma ByPosition_accessors_witness :
  Sorted (byPos (positionOf ChainScenario_resolved))
         (OrdsByPosition ChainScenario.order ChainScenario_resolved) /\
  NoDup (CodeFilesByPosition ChainScenario.order ChainScenario_resolved) /\
  ("/repo/a.go" ∈ DanglingReqsByPosition ChainScenario.order ChainScenario_resolved <->
   "/repo/a.go" ∈ ChainScenario.order /\
   exists v, ChainScenario_resolved !! "/repo/a.go" = Some v /\ Seen v = false).
Proof.
  destruct (ByPosition_accessors ChainScenario.order ChainScenario_resolved
              ChainScenario_order_NoDup) as ((H1 & _) & (_ & H2 & _) & (_ & _ & H3)).
  split_and!; [exact H1|exact H2|exact (H3 "/repo/a.go")].
Defined.

(** ** Patterns that do not compile *)

Lemma foldResult_Fatal_sound {A B} (f : A -> B -> result A) (P : B -> string -> Prop)
    (l : list B) :
  (forall a x m, f a x = Fatal m -> P x m) ->
  forall a m, foldResult f l a = Fatal m -> exists x, x ∈ l /\ P x m.
Proof.
  intros Hf. induction l as [|x l IH]; intros a m.
  - by rewrite foldResult_nil.
  - rewrite foldResult_cons. destruct (f a x) as [a'|m0] eqn:Hx; simpl.
    + intros (y & Hy & HP)%IH. exists y. split; [by right|done].
    + intros [= <-]. exists x. split; [left|by apply (Hf a)].
Qed.

Lemma foldResult_Fatal_complete {A B} (f : A -> B -> result A) (Q : B -> Prop)
    (l : list B) :
  (forall a x, Q x -> exists m, f a x = Fatal m) ->
  forall a, (exists x, x ∈ l /\ Q x) -> exists m, foldResult f l a = Fatal m.
Proof.
  intros Hf. induction l as [|x l IH]; intros a (y & Hy & HQ).
  - by apply elem_of_nil in Hy.
  - rewrite foldResult_cons. destruct (f a x) as [a'|m0] eqn:Hx; simpl; [|eauto].
    apply elem_of_cons in Hy as [->|Hy].
    + destruct (Hf a x HQ) as [m Hm]. congruence.
    + apply IH. eauto.
Qed.

Section FatalFacts.

Variable ToUpper : string -> string.
Variable regexp_Compile : string -> (string -> bool) + string.
Variable rangeRule : gmap string string -> list (string * string).

(** [range] visits every entry of a map once. *)
Hypothesis rangeRule_perm : forall a, rangeRule a ≡ₚ map_to_list a.

Lemma checkEntry_Fatal (r : Req) (a : gmap string string) (errs : list string)
    (kv : string * string) (m : string) :
  checkEntry ToUpper regexp_Compile r a errs kv = Fatal m <->
  kv.1 = "value" /\
  exists val, Attributes r !! ToUpper (default "" (a !! "name")) = Some val /\
              regexp_Compile kv.2 = inr m.
Proof.
  destruct kv as [k v]. unfold checkEntry. simpl.
  destruct (String.eqb k "name") eqn:Hname.
  { apply String.eqb_eq in Hname as ->. split; [|by intros [[=] _]].
    destruct (Attributes r !! ToUpper v); [done|]. by destruct (negb _). }
  destruct (String.eqb k "value") eqn:Hvalue.
  - apply String.eqb_eq in Hvalue as ->.
    destruct (Attributes r !! ToUpper (default "" (a !! "name"))) as [val|].
    + destruct (regexp_Compile v) as [ms|err].
      * split; [by destruct (negb _)|]. by intros [_ (val' & _ & [=])].
      * split; [intros [= <-]; eauto|]. by intros [_ (val' & _ & [= <-])].
    + split; [done|]. by intros [_ (val' & [=] & _)].
  - apply String.eqb_neq in Hvalue. split; [done|]. by intros [? _].
Qed.

Lemma checkRule_Fatal (r : Req) (a : gmap string string) (errs : list string) :
  (forall m, checkRule ToUpper regexp_Compile rangeRule r errs a = Fatal m ->
             badPattern ToUpper regexp_Compile r a m) /\
  (forall m, badPattern ToUpper regexp_Compile r a m ->
             exists m', checkRule ToUpper regexp_Compile rangeRule r errs a = Fatal m').
Proof.
  assert (Hin : forall k v, (k, v) ∈ rangeRule a <-> a !! k = Some v).
  { intros k v. rewrite rangeRule_perm. apply elem_of_map_to_list. }
  unfold checkRule. split.
  - intros m H.
    apply (foldResult_Fatal_sound _ (fun kv m =>
             kv.1 = "value" /\
             exists val, Attributes r !! ToUpper (default "" (a !! "name")) = Some val /\
                         regexp_Compile kv.2 = inr m)) in H
      as ([k v] & Hkv & Hk & val & Hval & Hre).
    + simpl in *. subst k. apply Hin in Hkv. by exists v, val.
    + intros errs0 kv m0. apply checkEntry_Fatal.
  - intros m (v & val & Hv & Hval & Hre).
    apply (foldResult_Fatal_complete _ (fun kv =>
             kv.1 = "value" /\
             exists val m, Attributes r !! ToUpper (default "" (a !! "name")) = Some val /\
                           regexp_Compile kv.2 = inr m)).
    + intros errs0 kv (Hk & val0 & m0 & H1 & H2). exists m0.
      apply checkEntry_Fatal. eauto.
    + exists ("value", v). split; [by apply Hin|]. simpl. eauto.
Qed.

Lemma Req_CheckAttributes_Fatal (r : Req) (rules : list (gmap string string)) :
  (forall m, Req_CheckAttributes ToUpper regexp_Compile rangeRule r rules = Fatal m ->
             exists a, a ∈ rules /\ badPattern ToUpper regexp_Compile r a m) /\
  ((exists a m, a ∈ rules /\ badPattern ToUpper regexp_Compile r a m) ->
   exists m, Req_CheckAttributes ToUpper regexp_Compile rangeRule r rules = Fatal m).
Proof.
  unfold Req_CheckAttributes. split.
  - intros m H.
    apply (foldResult_Fatal_sound _ (fun a m => badPattern ToUpper regexp_Compile r a m)) in H;
      [done|].
    intros errs a m0. apply checkRule_Fatal.
  - intros (a & m & Ha & Hbad).
    apply (foldResult_Fatal_complete _ (fun a =>
             exists m, badPattern ToUpper regexp_Compile r a m)).
    + intros errs a0 [m0 H0]. by apply (proj2 (checkRule_Fatal r a0 errs) m0).
    + exists a. eauto.
Qed.

(** X18.  [reqGraph.CheckAttributes] ends the program if and only if
    a rule gives a pattern that does not compile for an attribute that a
    node other than a CODE node has; the message is the error of
    [regexp.Compile] for such a pattern.  A pattern that does not compile
    goes unnoticed as long as no node has the attribute. *)
Theorem CheckAttributes_fatal (order : list string) (rg : reqGraph)
    (rules : list (gmap string string)) :
  (forall m, CheckAttributes ToUpper regexp_Compile rangeRule order rg rules = Fatal m ->
     exists k req a, k ∈ order /\ rg !! k = Some req /\ Level req <> CODE /\
                     a ∈ rules /\ badPattern ToUpper regexp_Compile req a m) /\
  ((exists m, CheckAttributes ToUpper regexp_Compile rangeRule order rg rules = Fatal m) <->
   exists k req a m, k ∈ order /\ rg !! k = Some req /\ Level req <> CODE /\
                     a ∈ rules /\ badPattern ToUpper regexp_Compile req a m).
Proof.
  assert (Hsound : forall m,
            CheckAttributes ToUpper regexp_Compile rangeRule order rg rules = Fatal m ->
            exists k req a, k ∈ order /\ rg !! k = Some req /\ Level req <> CODE /\
                            a ∈ rules /\ badPattern ToUpper regexp_Compile req a m).
  { unfold CheckAttributes. intros m H.
    apply (foldResult_Fatal_sound _ (fun k m =>
             exists req a, rg !! k = Some req /\ Level req <> CODE /\
                           a ∈ rules /\ badPattern ToUpper regexp_Compile req a m)) in H
      as (k & Hk & req & a & H1 & H2 & H3 & H4); [by exists k, req, a|].
    intros errs k m0. destruct (rg !! k) as [req|]; [|done].
    destruct (decide (Level req ≠ CODE)) as [Hl|Hl]; [|done].
    destruct (Req_CheckAttributes _ _ _ req rules) as [es|m1] eqn:Hreq; [done|].
    simpl. intros [= <-].
    destruct (proj1 (Req_CheckAttributes_Fatal req rules) m1 Hreq) as (a & Ha & Hbad).
    by exists req, a. }
  split; [done|]. split.
  - intros [m Hm]. destruct (Hsound m Hm) as (k & req & a & H). by exists k, req, a, m.
  - intros (k & req & a & m & Hk & Hreq & Hl & Ha & Hbad). unfold CheckAttributes.
    apply (foldResult_Fatal_complete _ (fun k =>
             exists req a m, rg !! k = Some req /\ Level req <> CODE /\
                             a ∈ rules /\ badPattern ToUpper regexp_Compile req a m)).
    + intros errs k0 (req0 & a0 & m0 & H1 & H2 & H3 & H4). rewrite H1.
      rewrite decide_True by done.
      destruct (proj2 (Req_CheckAttributes_Fatal req0 rules)) as [m1 Hm1]; [eauto|].
      rewrite Hm1. simpl. eauto.
    + exists k. split; [done|]. by exists req, a, m.
Qed.

End FatalFacts.

Lemma CheckAttributes_fatal_witness :
  CheckAttributes id BadPatternScenario.compile map_to_list BadPatternScenario.order
                  BadPatternScenario.graph BadPatternScenario.rules
    = Fatal "missing closing )" /\
  exists k req a, k ∈ BadPatternScenario.order /\ BadPatternScenario.graph !! k = Some req /\
                  Level req <> CODE /\ a ∈ BadPatternScenario.rules /\
                  badPattern id BadPatternScenario.compile req a "missing closing )".
Proof.
  split; [vm_compute; reflexivity|].
  apply (proj1 (CheckAttributes_fatal id BadPatternScenario.compile map_to_list
                  (fun a => reflexivity (map_to_list a))
                  BadPatternScenario.order BadPatternScenario.graph
                  BadPatternScenario.rules)).
  vm_compute. reflexivity.
Defined.
